(** * PBC dataset pipeline: a shallow embedding and its properties

    The repository holds three scripts over one fixed 20-column layout:
    - [convert_pbc_to_csv.py]     text file  -> two CSV files,
    - [load_pbc_data.py]          CSV file   -> survival tuple (T, E, X),
    - [extract_pbc_to_postgres.py] text file -> rows of table pbc_patients.

    Conventions of the embedding.
    - A numeric cell is its exact rational value ([Qc]); binary64 rounding
      is not modelled.  A missing cell (NaN in a float column, <NA> in a
      nullable integer column) is [None].
    - A DataFrame is its row count and its ordered list of named columns.
    - DataFrames are objects in a store and are passed by reference.
    - Fallible code returns [exn + A]; effects are threaded through a
      state-and-exception monad.
    - Driver and server behaviour that the scripts cannot see (whether a
      connection succeeds, what an arbitrary SQL text does) is a field of
      the world and universally quantified in the theorems. *)

From stdpp Require Import gmap strings list fin_maps numbers sorting.
From Stdlib Require Import Ascii QArith Qcanon.

Open Scope Z_scope.

Set Warnings "-clear-no-such-hyp".

(** ** Python exceptions *)

Inductive exn_class :=
  | FileNotFoundError
  | Psycopg2Error
  | ValueError
  | KeyError
  | TypeError
  | IndexError
  | ParserError
  | EmptyDataError
  | UnboundLocalError.

Global Instance exn_class_eq_dec : EqDecision exn_class.
Proof. solve_decision. Defined.

Record exn := Raise { exn_type : exn_class; exn_msg : string }.

Global Instance exn_eq_dec : EqDecision exn.
Proof. solve_decision. Defined.

Definition result (A : Type) : Type := exn + A.

(** ** Cells, columns and frames *)

Abbreviation cell := (option Qc).

Definition NaN : cell := None.

Definition num (z : Z) : cell := Some (Q2Qc (inject_Z z)).

Abbreviation column := (list cell).

Record DataFrame := mkFrame {
  nrows : nat;
  columns : list (string * column)
}.

Definition names (df : DataFrame) : list string := (columns df).*1.

(** Every column spans the index and labels are not repeated. *)
Definition wf_frame (df : DataFrame) : Prop :=
  NoDup (names df) ∧ Forall (λ c, length c.2 = nrows df) (columns df).

Fixpoint assoc {A} (k : string) (l : list (string * A)) : option A :=
  match l with
  | [] => None
  | (k', v) :: l => if decide (k' = k) then Some v else assoc k l
  end.

(** [df[col]]: KeyError on an unknown label. *)
Definition getitem (col : string) (df : DataFrame) : result column :=
  match assoc col (columns df) with
  | Some c => inr c
  | None => inl (Raise KeyError col)
  end.

Fixpoint assoc_set {A} (k : string) (v : A) (l : list (string * A))
  : list (string * A) :=
  match l with
  | [] => [(k, v)]
  | (k', v') :: l =>
      if decide (k' = k) then (k, v) :: l else (k', v') :: assoc_set k v l
  end.

(** [df[col] = values]: overwrite in place when the label exists, append
    as the last column otherwise; the length must match the index. *)
Definition setitem (col : string) (c : column) (df : DataFrame)
  : result DataFrame :=
  if decide (length c = nrows df)
  then inr (mkFrame (nrows df) (assoc_set col c (columns df)))
  else inl (Raise ValueError "Length of values does not match length of index").

(** [df[cols]] with a list of labels: a new frame with exactly these
    columns in the order asked; KeyError when a label is not a column. *)
Fixpoint select_columns (cols : list string) (l : list (string * column))
  : result (list (string * column)) :=
  match cols with
  | [] => inr []
  | c :: cols =>
      match assoc c l with
      | None => inl (Raise KeyError c)
      | Some v =>
          match select_columns cols l with
          | inl e => inl e
          | inr r => inr ((c, v) :: r)
          end
      end
  end.

Definition getitem_list (cols : list string) (df : DataFrame)
  : result DataFrame :=
  match select_columns cols (columns df) with
  | inl e => inl e
  | inr l => inr (mkFrame (nrows df) l)
  end.

(** Row [i] of a frame, as [df.values[i]] lists it: one cell per column. *)
Definition row_values (df : DataFrame) (i : nat) : list cell :=
  (λ c : string * column, default NaN (c.2 !! i)) <$> columns df.

Definition frame_values (df : DataFrame) : list (list cell) :=
  row_values df <$> seq 0 (nrows df).

(** ** Column arithmetic used by the scripts *)

(** [series / k]: NaN stays NaN. *)
Definition div_scalar (k : Qc) (c : column) : column :=
  (λ x : cell, (λ q, (q / k)%Qc) <$> x) <$> c.

(** [(series == k).astype(int)]: comparing NaN with anything is False. *)
Definition eq_scalar_int (k : Qc) (c : column) : column :=
  (λ x : cell,
     match x with
     | Some q => if decide (q = k) then num 1 else num 0
     | None => num 0
     end) <$> c.

Definition days_per_year : Qc := Q2Qc 365.25%Q.

(** ** Median and imputation *)

Definition present (c : column) : list Qc := omap id c.

(** [Series.median()]: NaN entries are skipped; NaN when nothing is left. *)
Definition median_sorted (s : list Qc) : cell :=
  let n := length s in
  if decide (n = 0%nat) then NaN
  else if Nat.odd n then s !! (n / 2)%nat
  else
    match s !! (n / 2 - 1)%nat, s !! (n / 2)%nat with
    | Some a, Some b => Some ((a + b) / Q2Qc 2)%Qc
    | _, _ => NaN
    end.

Definition median (c : column) : cell :=
  median_sorted (merge_sort Qcle (present c)).

(** [DataFrame.median()]: one value per column, labelled by the column. *)
Definition frame_median (df : DataFrame) : list (string * cell) :=
  (λ c : string * column, (c.1, median c.2)) <$> columns df.

Definition fill_cell (v : Qc) (x : cell) : cell :=
  match x with
  | Some q => Some q
  | None => Some v
  end.

(** The argument of [fillna]. *)
Inductive fill_arg :=
  | FillNone
  | FillScalar (v : Qc)
  | FillSeries (s : list (string * cell)).

(** [df.fillna(value)] returns a new frame.  pandas validates the
    argument first: a [None] value with no method raises ValueError
    ("Must specify a fill 'value' or 'method'.").  With a Series, each
    column is filled with the value under its own label; a label that is
    absent or whose value is NaN leaves the column as it is. *)
Definition fillna (value : fill_arg) (df : DataFrame) : result DataFrame :=
  match value with
  | FillNone =>
      inl (Raise ValueError "Must specify a fill 'value' or 'method'.")
  | FillScalar v =>
      inr (mkFrame (nrows df)
             ((λ c : string * column, (c.1, fill_cell v <$> c.2))
                <$> columns df))
  | FillSeries s =>
      inr (mkFrame (nrows df)
             ((λ c : string * column,
                 match assoc c.1 s with
                 | Some (Some v) => (c.1, fill_cell v <$> c.2)
                 | _ => c
                 end) <$> columns df))
  end.

(** ** The state-and-exception monad *)

Definition M (S A : Type) : Type := S → result A * S.

Definition ret {S A} (a : A) : M S A := λ s, (inr a, s).

Definition bind {S A B} (m : M S A) (k : A → M S B) : M S B :=
  λ s, match m s with
       | (inl e, s') => (inl e, s')
       | (inr a, s') => k a s'
       end.

Definition modify {S} (f : S → S) : M S unit := λ s, (inr tt, f s).

(** A pure fallible computation, run inside the monad. *)
Definition lift_result {S A} (r : result A) : M S A := λ s, (r, s).

Declare Scope monad_scope.
Delimit Scope monad_scope with M.
Notation "'let*' x ':=' m 'in' k" := (bind m (λ x, k))
  (at level 10, x name, m at level 100, k at level 200) : monad_scope.
Notation "m >> k" := (bind m (λ _, k))
  (at level 90, right associativity) : monad_scope.
Open Scope monad_scope.

(** [try: body except ...: handler(e)]: the handler runs in the state the
    body left behind. *)
Definition try_except {S A} (body : M S A) (handler : exn → M S A) : M S A :=
  λ s, match body s with
       | (inl e, s') => handler e s'
       | (inr a, s') => (inr a, s')
       end.

(** [try: body finally: cleanup]: the cleanup always runs; an exception
    of the cleanup replaces the outcome of the body. *)
Definition try_finally {S A} (body : M S A) (cleanup : M S unit) : M S A :=
  λ s, match body s with
       | (r, s') =>
           match cleanup s' with
           | (inl e, s'') => (inl e, s'')
           | (inr _, s'') => (r, s'')
           end
       end.

(** [for x in xs: body(x)] *)
Fixpoint for_each {S A} (xs : list A) (body : A → M S unit) : M S unit :=
  match xs with
  | [] => ret tt
  | x :: xs => body x >> for_each xs body
  end.

(** ** The database as the driver shows it *)

Inductive pyval :=
  | PyNone
  | PyNaN
  | PyNum (q : Qc).

Inductive sqlval :=
  | SqlNull
  | SqlNaN
  | SqlNum (q : Qc).

Global Instance sqlval_eq_dec : EqDecision sqlval.
Proof. solve_decision. Defined.

(** ** What the scripts print *)

(** An f-string is kept as its pieces, so that printed values stay exact. *)
Inductive piece :=
  | Lit (s : string)
  | PInt (z : Z)
  | PVal (x : cell)
  | PFmt (spec : string) (x : cell)
  | PExn (e : exn)
  | PCounts (l : list (string * Z))
  | PDict (l : list (Qc * Z))
  | PSql (v : sqlval).

Definition line : Type := list piece.

(** psycopg2 adapts [None] to NULL and a float NaN to the value 'NaN'. *)
Definition adapt (v : pyval) : sqlval :=
  match v with
  | PyNone => SqlNull
  | PyNaN => SqlNaN
  | PyNum q => SqlNum q
  end.

(** Modelled from the spec: the table definition lives in pbc_schema.sql,
    which is not part of the sources.  Per the spec, the columns of
    pbc_patients mirror the 20 PatientRecord fields and the identifier is
    the conflict key. *)
Record pbc_patient := mkPatient {
  id : Z;
  futime : sqlval; status : sqlval; drug : sqlval; age : sqlval;
  sex : sqlval; ascites : sqlval; hepato : sqlval; spiders : sqlval;
  edema : sqlval; bili : sqlval; chol : sqlval; albumin : sqlval;
  copper : sqlval; alk_phos : sqlval; sgot : sqlval; trig : sqlval;
  platelet : sqlval; protime : sqlval; stage : sqlval
}.

Global Instance pbc_patient_eq_dec : EqDecision pbc_patient.
Proof. solve_decision. Defined.

(** The table, keyed by the primary key. *)
Abbreviation table := (gmap Z pbc_patient).

Definition wf_table (t : table) : Prop :=
  ∀ k r, t !! k = Some r → id r = k.

Definition table_rows (t : table) : list pbc_patient := (map_to_list t).*2.

Inductive db_event :=
  | EvConnect (h : nat)
  | EvCursor (h : nat)
  | EvExecute (sql : string)
  | EvInsert (rows : list (list sqlval))
  | EvCommit
  | EvFetchone
  | EvCloseCursor (h : nat)
  | EvCloseConn (h : nat).

Global Instance db_event_eq_dec : EqDecision db_event.
Proof. solve_decision. Defined.

(** The part of the server the scripts do not determine: whether a
    connection is granted, and what a statement given as text does to the
    session's view of the table and which row it leaves to fetch. *)
Record server := mkServer {
  connect_error : list (string * string) → option string;
  run_sql : string → table → string + (table * option (list sqlval))
}.

Record world := mkWorld {
  env : gmap string string;
  fs : gmap string string;
  stdout : list line;
  heap : gmap nat DataFrame;
  srv : server;
  committed : table;
  session : table;
  fetched : option (list sqlval);
  live_conns : gset nat;
  live_cursors : gset nat;
  next_handle : nat;
  db_trace : list db_event
}.

Definition set_fs (f : gmap string string → gmap string string) (w : world) :=
  mkWorld (env w) (f (fs w)) (stdout w) (heap w) (srv w) (committed w) (session w)
    (fetched w) (live_conns w) (live_cursors w) (next_handle w) (db_trace w).

Definition set_stdout (f : list line → list line) (w : world) :=
  mkWorld (env w) (fs w) (f (stdout w)) (heap w) (srv w) (committed w) (session w)
    (fetched w) (live_conns w) (live_cursors w) (next_handle w) (db_trace w).

Definition set_heap (f : gmap nat DataFrame → gmap nat DataFrame) (w : world) :=
  mkWorld (env w) (fs w) (stdout w) (f (heap w)) (srv w) (committed w) (session w)
    (fetched w) (live_conns w) (live_cursors w) (next_handle w) (db_trace w).

Definition log_event (e : db_event) (w : world) :=
  mkWorld (env w) (fs w) (stdout w) (heap w) (srv w) (committed w) (session w)
    (fetched w) (live_conns w) (live_cursors w) (next_handle w)
    (db_trace w ++ [e]).

Definition set_session (t : table) (r : option (list sqlval)) (w : world) :=
  mkWorld (env w) (fs w) (stdout w) (heap w) (srv w) (committed w) t
    r (live_conns w) (live_cursors w) (next_handle w) (db_trace w).

Definition print (l : line) : M world unit :=
  modify (set_stdout (λ out, out ++ [l])).

(** [open(path).read()] *)
Definition read_file (path : string) : M world string :=
  λ w, match fs w !! path with
       | Some s => (inr s, w)
       | None => (inl (Raise FileNotFoundError path), w)
       end.

Definition write_file (path content : string) : M world unit :=
  modify (set_fs (λ f, <[path := content]> f)).

(** ** Python strings

    A string is a sequence of code points below 256. *)

Definition code (c : ascii) : N := N_of_ascii c.

(** [str.isspace] on one character. *)
Definition is_space (c : ascii) : bool :=
  let n := code c in
  ((9 <=? n) && (n <=? 13) || (28 <=? n) && (n <=? 32)
   || (n =? 133) || (n =? 160))%N.

(** [s.split(sep)] for a one-character separator: empty segments are
    kept and there is always at least one segment. *)
Fixpoint split_on (sep : ascii) (s : string) : list string :=
  match s with
  | EmptyString => [EmptyString]
  | String c s' =>
      if decide (c = sep) then EmptyString :: split_on sep s'
      else match split_on sep s' with
           | seg :: rest => String c seg :: rest
           | [] => [String c EmptyString]
           end
  end.

(** [sep.join(parts)] *)
Fixpoint join (sep : string) (parts : list string) : string :=
  match parts with
  | [] => EmptyString
  | [p] => p
  | p :: ps => p +:+ sep +:+ join sep ps
  end.

Fixpoint lstrip (s : string) : string :=
  match s with
  | EmptyString => EmptyString
  | String c s' => if is_space c then lstrip s' else s
  end.

Fixpoint rstrip (s : string) : string :=
  match s with
  | EmptyString => EmptyString
  | String c s' =>
      match rstrip s' with
      | EmptyString => if is_space c then EmptyString else String c EmptyString
      | r => String c r
      end
  end.

(** [s.strip()] *)
Definition strip (s : string) : string := rstrip (lstrip s).

Fixpoint contains (c : ascii) (s : string) : bool :=
  match s with
  | EmptyString => false
  | String c' s' => bool_decide (c' = c) || contains c s'
  end.

(** Fields of a line separated by runs of whitespace (the regular
    expression [\s+] given as separator); leading and trailing runs
    delimit nothing. *)
Fixpoint words_aux (cur : option string) (s : string) : list string :=
  match s with
  | EmptyString => match cur with Some w => [w] | None => [] end
  | String c s' =>
      if is_space c
      then match cur with
           | Some w => w :: words_aux None s'
           | None => words_aux None s'
           end
      else words_aux (Some (default EmptyString cur +:+ String c EmptyString)) s'
  end.

Definition words (s : string) : list string := words_aux None s.

(** ** Decimal numerals *)

Definition digit_char (d : Z) : ascii := ascii_of_N (48 + Z.to_N d).

Definition char_digit (c : ascii) : option Z :=
  let n := code c in
  if ((48 <=? n) && (n <=? 57))%N then Some (Z.of_N n - 48) else None.

(** Digits read left to right onto an accumulator. *)
Fixpoint parse_digits (s : string) (acc : Z) : option Z :=
  match s with
  | EmptyString => Some acc
  | String c s' =>
      match char_digit c with
      | Some d => parse_digits s' (10 * acc + d)
      | None => None
      end
  end.

(** The [k] low digits of [n], most significant first, put before [rest]. *)
Fixpoint fixed_digits (k : nat) (n : Z) (rest : string) : string :=
  match k with
  | O => rest
  | S k => fixed_digits k (n / 10) (String (digit_char (n mod 10)) rest)
  end.

(** All digits of [n >= 0], no leading zero (one digit for 0). *)
Fixpoint int_digits_aux (fuel : nat) (n : Z) (rest : string) : string :=
  match fuel with
  | O => rest
  | S fuel =>
      let rest' := String (digit_char (n mod 10)) rest in
      if decide (n / 10 = 0) then rest' else int_digits_aux fuel (n / 10) rest'
  end.

Definition int_digits (n : Z) (rest : string) : string :=
  int_digits_aux (S (Z.to_nat (Z.log2 n))) n rest.

(** The value of an unsigned numeral: digits, then optionally a point and
    more digits; at least one digit in all. *)
Definition parse_unsigned (s : string) : option Qc :=
  match split_on "."%char s with
  | [i] =>
      if decide (i = EmptyString) then None
      else (λ n, Q2Qc (inject_Z n)) <$> parse_digits i 0
  | [i; f] =>
      if decide (i = EmptyString ∧ f = EmptyString) then None
      else
        match parse_digits i 0, parse_digits f 0 with
        | Some n, Some m =>
            let p := 10 ^ Z.of_nat (String.length f) in
            Some (Q2Qc ((n * p + m) # Z.to_pos p))
        | _, _ => None
        end
  | _ => None
  end.

(** A numeric token: an optional sign and an unsigned numeral.  Exponent
    notation and the spellings of infinity are not covered. *)
Definition parse_number (s : string) : option Qc :=
  match s with
  | String "-"%char s' => (λ q, (- q)%Qc) <$> parse_unsigned s'
  | String "+"%char s' => parse_unsigned s'
  | _ => parse_unsigned s
  end.

Definition float_digits : nat := 17.

(** The least number of fractional digits, up to [float_digits], that
    writes [q] exactly. *)
Definition scale_of (q : Qc) : option nat :=
  List.find (λ k, bool_decide ((10 ^ Z.of_nat k) mod Zpos (Qden q) = 0))
    (seq 0 (S float_digits)).

Definition sign_of (q : Qc) (rest : string) : string :=
  if decide (Qnum q < 0) then String "-"%char rest else rest.

(** An integer as an int64 column writes it. *)
Definition render_int (q : Qc) : string :=
  sign_of q (int_digits (Z.abs (Qnum q) / Zpos (Qden q)) EmptyString).

(** A number as a float64 column writes it, in positional notation: the
    integer part, a point, and the fractional digits needed ([0] when
    there are none).  A value whose expansion is longer than
    [float_digits] digits is cut there, where binary64 would round. *)
Definition render_float (q : Qc) : string :=
  let k := default float_digits (scale_of q) in
  let p := 10 ^ Z.of_nat k in
  let m := Z.abs (Qnum q) * p / Zpos (Qden q) in
  sign_of q
    (int_digits (m / p)
       (String "."%char
          (if decide (k = 0%nat) then "0"%string
           else fixed_digits k (m mod p) EmptyString))).

(** ** pandas: reading and writing delimited text *)

(** The strings [read_csv] takes for a missing value by default. *)
Definition default_na : list string :=
  [""; "#N/A"; "#N/A N/A"; "#NA"; "-1.#IND"; "-1.#QNAN"; "-NaN"; "-nan";
   "1.#IND"; "1.#QNAN"; "<NA>"; "N/A"; "NA"; "NULL"; "NaN"; "None";
   "n/a"; "nan"; "null"]%string.

(** One field.  A field that is neither a missing-value string nor a
    numeral would make pandas keep the column as text; frames here are
    numeric, so reading stops with an error instead. *)
Definition parse_cell (na : list string) (tok : string) : result cell :=
  if decide (tok ∈ na) then inr NaN
  else match parse_number tok with
       | Some q => inr (Some q)
       | None => inl (Raise TypeError tok)
       end.

Fixpoint parse_cells (na : list string) (toks : list string)
  : result (list cell) :=
  match toks with
  | [] => inr []
  | t :: toks =>
      match parse_cell na t with
      | inl e => inl e
      | inr c =>
          match parse_cells na toks with
          | inl e => inl e
          | inr cs => inr (c :: cs)
          end
      end
  end.

(** One record of [n] columns: too many fields is a parser error, too
    few are completed with missing values. *)
Definition parse_record (na : list string) (n : nat) (toks : list string)
  : result (list cell) :=
  if decide (n < length toks)%nat
  then inl (Raise ParserError "Error tokenizing data")
  else match parse_cells na toks with
       | inl e => inl e
       | inr cs => inr (cs ++ replicate (n - length cs) NaN)
       end.

Fixpoint parse_records (na : list string) (n : nat) (rows : list (list string))
  : result (list (list cell)) :=
  match rows with
  | [] => inr []
  | r :: rows =>
      match parse_record na n r with
      | inl e => inl e
      | inr cs =>
          match parse_records na n rows with
          | inl e => inl e
          | inr css => inr (cs :: css)
          end
      end
  end.

(** Column [j] of a list of records. *)
Definition column_of (rows : list (list cell)) (j : nat) : column :=
  (λ r : list cell, default NaN (r !! j)) <$> rows.

Definition frame_of_records (labels : list string) (rows : list (list cell))
  : DataFrame :=
  mkFrame (length rows)
    ((λ p : nat * string, (p.2, column_of rows p.1)) <$> imap pair labels).

Definition newline : ascii := ascii_of_N 10.

(** [pd.read_csv(text, sep=r'\s+', header=None, names=labels,
    na_values=extra)] on the text of a file. *)
Definition read_table_text (labels extra_na : list string) (text : string)
  : result DataFrame :=
  let rows := filter (λ r, r ≠ []) (words <$> split_on newline text) in
  if decide (rows = []) then inl (Raise EmptyDataError "No columns to parse from file")
  else match parse_records (extra_na ++ default_na) (length labels) rows with
       | inl e => inl e
       | inr rs => inr (frame_of_records labels rs)
       end.

(** [pd.read_csv(text)]: comma-separated, the first line is the header. *)
Definition read_csv_text (text : string) : result DataFrame :=
  match filter (λ l, l ≠ EmptyString) (split_on newline text) with
  | [] => inl (Raise EmptyDataError "No columns to parse from file")
  | header :: lines =>
      let labels := split_on ","%char header in
      match parse_records default_na (length labels)
              (split_on ","%char <$> lines) with
      | inl e => inl e
      | inr rs => inr (frame_of_records labels rs)
      end
  end.

Definition is_integer (q : Qc) : bool := bool_decide (Qden q = 1%positive).

(** A column that holds integers only and no missing value is an int64
    column; any other column is float64. *)
Definition int_column (c : column) : bool :=
  forallb (λ x : cell, match x with Some q => is_integer q | None => false end) c.

Definition render_cell (as_int : bool) (x : cell) : string :=
  match x with
  | None => EmptyString
  | Some q => if as_int then render_int q else render_float q
  end.

Definition render_row (df : DataFrame) (i : nat) : string :=
  join ","
    ((λ c : string * column,
        render_cell (int_column c.2) (default NaN (c.2 !! i))) <$> columns df).

(** [df.to_csv(path, index=False)]: a header line, one line per row, each
    ended by a line feed; a missing value is written as the empty field.
    No field here needs quoting. *)
Definition to_csv_text (df : DataFrame) : string :=
  join (String newline EmptyString)
    (join "," (names df) :: (render_row df <$> seq 0 (nrows df)))
  +:+ String newline EmptyString.

(** ** DataFrame objects in the store *)

Definition alloc (df : DataFrame) : M world nat :=
  λ w, let l := fresh (dom (heap w)) in
       (inr l, set_heap (λ h, <[l := df]> h) w).

Definition deref (l : nat) : M world DataFrame :=
  λ w, match heap w !! l with
       | Some df => (inr df, w)
       | None => (inl (Raise UnboundLocalError "no such object"), w)
       end.

Definition store (l : nat) (df : DataFrame) : M world unit :=
  modify (set_heap (λ h, <[l := df]> h)).

(** [df.copy()] *)
Definition copy (l : nat) : M world nat :=
  let* df := deref l in alloc df.

(** [df[col]], read through the reference. *)
Definition getitem_ref (l : nat) (col : string) : M world column :=
  let* df := deref l in lift_result (getitem col df).

(** [df[col] = values]: updates the object that [l] refers to. *)
Definition setitem_ref (l : nat) (col : string) (c : column) : M world unit :=
  let* df := deref l in
  let* df' := lift_result (setitem col c df) in
  store l df'.

Definition read_table (path : string) (labels extra_na : list string)
  : M world nat :=
  let* text := read_file path in
  let* df := lift_result (read_table_text labels extra_na text) in
  alloc df.

Definition read_csv (path : string) : M world nat :=
  let* text := read_file path in
  let* df := lift_result (read_csv_text text) in
  alloc df.

Definition to_csv (l : nat) (path : string) : M world unit :=
  let* df := deref l in
  write_file path (to_csv_text df).

(** [df.isnull().sum()] *)
Definition isnull_sum (df : DataFrame) : list (string * Z) :=
  (λ c : string * column,
     (c.1, Z.of_nat (length (filter (λ x : cell, x = None) c.2))))
    <$> columns df.

(** ** convert_pbc_to_csv.py *)

Definition pbc_columns : list string :=
  ["id"; "futime"; "status"; "drug"; "age"; "sex"; "ascites"; "hepato";
   "spiders"; "edema"; "bili"; "chol"; "albumin"; "copper"; "alk_phos";
   "sgot"; "trig"; "platelet"; "protime"; "stage"]%string.

(** [convert_pbc_to_csv()]: returns the reference [df]. *)
Definition convert_pbc_to_csv : M world nat :=
  print [Lit "Reading pbc.dat.txt..."] >>
  let* df := read_table "pbc.dat.txt" pbc_columns ["."%string] in
  let* f := deref df in
  print [Lit "Loaded "; PInt (Z.of_nat (nrows f)); Lit " patients with ";
         PInt (Z.of_nat (length (columns f))); Lit " features"] >>
  print [Lit "Missing values per column:"] >>
  print [PCounts (isnull_sum f)] >>
  to_csv df "pbc_data.csv" >>
  print [Lit "Saved to "; Lit "pbc_data.csv"] >>
  let* df_ml := copy df in
  let* age := getitem_ref df_ml "age" in
  setitem_ref df_ml "age_years" (div_scalar days_per_year age) >>
  let* status := getitem_ref df_ml "status" in
  setitem_ref df_ml "death_event" (eq_scalar_int (Q2Qc 2) status) >>
  let* sex := getitem_ref df_ml "sex" in
  setitem_ref df_ml "male" (eq_scalar_int (Q2Qc 0) sex) >>
  let* sex' := getitem_ref df_ml "sex" in
  setitem_ref df_ml "female" (eq_scalar_int (Q2Qc 1) sex') >>
  let* drug := getitem_ref df_ml "drug" in
  setitem_ref df_ml "drug_treatment" (eq_scalar_int (Q2Qc 1) drug) >>
  to_csv df_ml "pbc_ml_ready.csv" >>
  print [Lit "Saved ML-ready version to "; Lit "pbc_ml_ready.csv"] >>
  ret df.

(** ** load_pbc_data.py *)

(** [series.astype('Int64')]: values and missing entries are kept; a value
    with a fractional part cannot be cast. *)
Definition astype_Int64 (c : column) : result column :=
  if forallb (λ x : cell, match x with Some q => is_integer q | None => true end) c
  then inr c
  else inl (Raise TypeError "cannot safely cast non-equivalent float64 to int64").

Definition categorical_cols : list string :=
  ["drug"; "sex"; "ascites"; "hepato"; "spiders"; "stage";
   "death_event"; "male"; "female"; "drug_treatment"]%string.

(** [load_pbc_data(csv_path)] *)
Definition load_pbc_data (csv_path : string) : M world nat :=
  let* df := read_csv csv_path in
  for_each categorical_cols (λ col,
    let* f := deref df in
    if decide (col ∈ names f)
    then let* c := getitem_ref df col in
         let* c' := lift_result (astype_Int64 c) in
         setitem_ref df col c'
    else ret tt) >>
  ret df.

Definition feature_cols : list string :=
  ["age_years"; "male"; "ascites"; "hepato"; "spiders"; "edema";
   "bili"; "chol"; "albumin"; "copper"; "alk_phos"; "sgot";
   "trig"; "platelet"; "protime"; "stage"; "drug_treatment"]%string.

(** [get_survival_data(df)]: [T] and [E] are arrays of values; [X] is a
    reference to a new frame. *)
Definition get_survival_data (df : nat) : M world (column * column * nat) :=
  let* T := getitem_ref df "futime" in
  let* E := getitem_ref df "death_event" in
  let* f := deref df in
  let* sel := lift_result (getitem_list feature_cols f) in
  let* X0 := alloc sel in
  let* X := copy X0 in
  let* fx := deref X in
  let* filled := lift_result (fillna (FillSeries (frame_median fx)) fx) in
  let* X' := alloc filled in
  ret (T, E, X').

(** [get_feature_descriptions()] *)
Definition get_feature_descriptions : M world (list (string * string)) :=
  ret [("futime", "Follow-up time in days (survival outcome)");
       ("death_event", "Death indicator (1=died, 0=alive/transplant)");
       ("age_years", "Patient age in years");
       ("male", "Male gender (1=male, 0=female)");
       ("ascites", "Ascites present (fluid in abdomen)");
       ("hepato", "Hepatomegaly present (enlarged liver)");
       ("spiders", "Spider angiomata present (vascular lesions)");
       ("edema", "Edema severity (0=none, 0.5=moderate, 1=severe)");
       ("bili", "Serum bilirubin mg/dl (liver function)");
       ("chol", "Serum cholesterol mg/dl");
       ("albumin", "Serum albumin gm/dl (liver synthetic function)");
       ("copper", "24-hour urine copper ug/day");
       ("alk_phos", "Alkaline phosphatase U/liter (bile duct function)");
       ("sgot", "SGOT/AST U/ml (liver enzyme)");
       ("trig", "Triglycerides mg/dl");
       ("platelet", "Platelet count per cubic ml/1000");
       ("protime", "Prothrombin time seconds (clotting function)");
       ("stage", "Histologic disease stage (1-4)");
       ("drug_treatment", "D-penicillamine treatment (1=yes, 0=placebo)")]%string.

(** [series.sum()], [series.min()], [series.max()]: NaN is skipped. *)
Definition col_sum (c : column) : Qc := foldr Qcplus (Q2Qc 0) (present c).

Definition col_min (c : column) : cell :=
  match present c with
  | [] => NaN
  | x :: xs => Some (foldr (λ a b, if decide (a <= b)%Qc then a else b) x xs)
  end.

Definition col_max (c : column) : cell :=
  match present c with
  | [] => NaN
  | x :: xs => Some (foldr (λ a b, if decide (a <= b)%Qc then b else a) x xs)
  end.

(** [print_dataset_summary(df)] *)
Definition print_dataset_summary (df : nat) : M world unit :=
  print [Lit ""] >>
  print [Lit "PBC Dataset Summary:"] >>
  let* f := deref df in
  print [Lit "Total patients: "; PInt (Z.of_nat (nrows f))] >>
  let* de := getitem_ref df "death_event" in
  print [Lit "Deaths: "; PVal (Some (col_sum de))] >>
  let* st := getitem_ref df "status" in
  print [Lit "Transplants: "; PVal (Some (col_sum (eq_scalar_int (Q2Qc 1) st)))] >>
  let* st' := getitem_ref df "status" in
  print [Lit "Alive: "; PVal (Some (col_sum (eq_scalar_int (Q2Qc 0) st')))] >>
  let* fu := getitem_ref df "futime" in
  print [Lit "Median survival time: "; PFmt ".0f" (median fu); Lit " days"] >>
  let* ay := getitem_ref df "age_years" in
  let* ay' := getitem_ref df "age_years" in
  print [Lit "Age range: "; PFmt ".1f" (col_min ay); Lit " - ";
         PFmt ".1f" (col_max ay'); Lit " years"] >>
  print [Lit "Missing values per column:"] >>
  let* f1 := deref df in
  print [PCounts (filter (λ p : string * Z, 0 < p.2) (isnull_sum f1))].

(** ** psycopg2: connections, cursors, statements *)

Definition set_db (conns cursors : gset nat) (next : nat) (w : world) :=
  mkWorld (env w) (fs w) (stdout w) (heap w) (srv w) (committed w) (session w)
    (fetched w) conns cursors next (db_trace w).

Definition set_committed (t : table) (w : world) :=
  mkWorld (env w) (fs w) (stdout w) (heap w) (srv w) t (session w)
    (fetched w) (live_conns w) (live_cursors w) (next_handle w) (db_trace w).

(** [psycopg2.connect] with the keyword parameters: a new session starts from the
    committed state. *)
Definition connect (params : list (string * string)) : M world nat :=
  λ w, match connect_error (srv w) params with
       | Some msg => (inl (Raise Psycopg2Error msg), w)
       | None =>
           let h := next_handle w in
           (inr h,
            log_event (EvConnect h)
              (set_session (committed w) None
                 (set_db ({[h]} ∪ live_conns w) (live_cursors w) (S h) w)))
       end.

(** [conn.cursor()] *)
Definition cursor_of (conn : nat) : M world nat :=
  λ w, if decide (conn ∈ live_conns w)
       then let c := next_handle w in
            (inr c,
             log_event (EvCursor c)
               (set_db (live_conns w) ({[c]} ∪ live_cursors w) (S c) w))
       else (inl (Raise Psycopg2Error "connection already closed"), w).

(** [cursor.execute(sql)] for a statement given as text. *)
Definition execute (cursor : nat) (sql : string) : M world unit :=
  λ w, if decide (cursor ∈ live_cursors w)
       then match run_sql (srv w) sql (session w) with
            | inl msg => (inl (Raise Psycopg2Error msg), log_event (EvExecute sql) w)
            | inr (t, r) => (inr tt, set_session t r (log_event (EvExecute sql) w))
            end
       else (inl (Raise Psycopg2Error "cursor already closed"), w).

(** [cursor.fetchone()]: [None] when there is no row. *)
Definition fetchone (cursor : nat) : M world (option (list sqlval)) :=
  λ w, if decide (cursor ∈ live_cursors w)
       then (inr (fetched w), log_event EvFetchone w)
       else (inl (Raise Psycopg2Error "cursor already closed"), w).

(** [row[i]] on what [fetchone] returned. *)
Definition subscript (r : option (list sqlval)) (i : nat) : result sqlval :=
  match r with
  | None => inl (Raise TypeError "'NoneType' object is not subscriptable")
  | Some l =>
      match l !! i with
      | Some v => inr v
      | None => inl (Raise IndexError "tuple index out of range")
      end
  end.

(** [conn.commit()] *)
Definition commit (conn : nat) : M world unit :=
  λ w, if decide (conn ∈ live_conns w)
       then (inr tt, log_event EvCommit (set_committed (session w) w))
       else (inl (Raise Psycopg2Error "connection already closed"), w).

(** [cursor.close()]: never fails; closing twice is allowed. *)
Definition close_cursor (cursor : nat) : M world unit :=
  λ w, (inr tt,
        log_event (EvCloseCursor cursor)
          (set_db (live_conns w) (live_cursors w ∖ {[cursor]}) (next_handle w) w)).

(** [conn.close()]: never fails; what was not committed is dropped. *)
Definition close_conn (conn : nat) : M world unit :=
  λ w, (inr tt,
        log_event (EvCloseConn conn)
          (set_session (committed w) None
             (set_db (live_conns w ∖ {[conn]}) (live_cursors w) (next_handle w) w))).

(** *** The upsert statement of [insert_pbc_data] *)

(** [ON CONFLICT (id) DO UPDATE SET futime = EXCLUDED.futime, ...]: the
    existing row keeps its key and takes each listed column from the
    proposed row. *)
Definition do_update (old excluded : pbc_patient) : pbc_patient :=
  {| id := id old;
     futime := futime excluded;
     status := status excluded;
     drug := drug excluded;
     age := age excluded;
     sex := sex excluded;
     ascites := ascites excluded;
     hepato := hepato excluded;
     spiders := spiders excluded;
     edema := edema excluded;
     bili := bili excluded;
     chol := chol excluded;
     albumin := albumin excluded;
     copper := copper excluded;
     alk_phos := alk_phos excluded;
     sgot := sgot excluded;
     trig := trig excluded;
     platelet := platelet excluded;
     protime := protime excluded;
     stage := stage excluded |}.

(** One proposed row: inserted when its key is free, merged by
    [do_update] on conflict. *)
Definition upsert (t : table) (r : pbc_patient) : table :=
  match t !! id r with
  | None => <[id r := r]> t
  | Some old => <[id r := do_update old r]> t
  end.

(** The 20 values of one tuple, in the order of the column list of the
    INSERT; the key must be an integer. *)
Definition patient_of_values (vs : list sqlval) : option pbc_patient :=
  match vs with
  | [SqlNum k; v1; v2; v3; v4; v5; v6; v7; v8; v9; v10; v11; v12; v13; v14;
     v15; v16; v17; v18; v19] =>
      if is_integer k
      then Some (mkPatient (Qnum k) v1 v2 v3 v4 v5 v6 v7 v8 v9 v10 v11 v12
                   v13 v14 v15 v16 v17 v18 v19)
      else None
  | _ => None
  end.

(** One INSERT ... ON CONFLICT statement with several proposed rows.
    PostgreSQL refuses a statement that proposes the same key twice. *)
Definition insert_on_conflict (t : table) (rows : list pbc_patient)
  : string + table :=
  if decide (NoDup (id <$> rows))
  then inr (foldl upsert t rows)
  else inl "ON CONFLICT DO UPDATE command cannot affect row a second time"%string.

Fixpoint patients_of_values (rows : list (list sqlval))
  : option (list pbc_patient) :=
  match rows with
  | [] => Some []
  | r :: rows =>
      match patient_of_values r, patients_of_values rows with
      | Some p, Some ps => Some (p :: ps)
      | _, _ => None
      end
  end.

Definition page_size : nat := 100.

(** Pages of at most [page_size] rows, by recursion on a bound. *)
Fixpoint pages_aux {A} (fuel : nat) (l : list A) : list (list A) :=
  match fuel with
  | O => []
  | S fuel =>
      match l with
      | [] => []
      | _ => take page_size l :: pages_aux fuel (drop page_size l)
      end
  end.

Definition pages {A} (l : list A) : list (list A) := pages_aux (length l) l.

(** One page sent as one statement. *)
Definition execute_insert (cursor : nat) (page : list (list sqlval))
  : M world unit :=
  λ w, if decide (cursor ∈ live_cursors w)
       then
         let w' := log_event (EvInsert page) w in
         match patients_of_values page with
         | None => (inl (Raise Psycopg2Error "invalid input for pbc_patients"), w')
         | Some rows =>
             match insert_on_conflict (session w) rows with
             | inl msg => (inl (Raise Psycopg2Error msg), w')
             | inr t => (inr tt, set_session t None w')
             end
         end
       else (inl (Raise Psycopg2Error "cursor already closed"), w).

(** [execute_values(cursor, insert_sql, values)]: the rows are sent page
    by page. *)
Definition execute_values (cursor : nat) (values : list (list pyval))
  : M world unit :=
  for_each (pages values) (λ page, execute_insert cursor (map adapt <$> page)).

(** ** extract_pbc_to_postgres.py *)

(** [read_pbc_data(file_path)] *)
Definition read_pbc_data (file_path : string) : M world nat :=
  read_table file_path pbc_columns ["."%string].

Definition semicolon : ascii := ";"%char.

(** The list comprehension of [load_schema_from_file]. *)
Definition statements (schema_sql : string) : list string :=
  strip <$> filter (λ stmt, strip stmt ≠ EmptyString) (split_on semicolon schema_sql).

(** [load_schema_from_file(cursor, schema_file)] *)
Definition load_schema_from_file (cursor : nat) (schema_file : string)
  : M world unit :=
  let* schema_sql := read_file schema_file in
  for_each (statements schema_sql) (λ statement, execute cursor statement).

(** [tuple(row)] for a row of [df.values]: a missing cell is a float NaN. *)
Definition tuple_of_row (r : list cell) : list pyval :=
  (λ x : cell, match x with Some q => PyNum q | None => PyNaN end) <$> r.

(** [insert_pbc_data(cursor, df)] *)
Definition insert_pbc_data (cursor : nat) (df : nat) : M world unit :=
  let* f := deref df in
  let* clean := lift_result (fillna FillNone f) in
  let* df_clean := alloc clean in
  let* fc := deref df_clean in
  let values := tuple_of_row <$> frame_values fc in
  execute_values cursor values.

(** [series.value_counts().to_dict()]; the order of the entries in the
    printed dict is not modelled. *)
Definition value_counts (c : column) : list (Qc * Z) :=
  let vs := present c in
  (λ v, (v, Z.of_nat (length (filter (λ x, x = v) vs)))) <$> remove_dups vs.

(** The local variables of [main] that its cleanup block looks up. *)
Record main_state := mkMain {
  mw : world;
  v_conn : option nat;
  v_cursor : option nat
}.

Definition liftW {A} (m : M world A) : M main_state A :=
  λ s, match m (mw s) with
       | (r, w) => (r, mkMain w (v_conn s) (v_cursor s))
       end.

Definition bind_conn (h : nat) : M main_state unit :=
  modify (λ s, mkMain (mw s) (Some h) (v_cursor s)).

Definition bind_cursor (c : nat) : M main_state unit :=
  modify (λ s, mkMain (mw s) (v_conn s) (Some c)).

(** Reading a local variable: an unbound name is an error. *)
Definition read_local (name : string) (v : main_state → option nat)
  : M main_state nat :=
  λ s, match v s with
       | Some h => (inr h, s)
       | None => (inl (Raise UnboundLocalError name), s)
       end.

(** ['name' in locals()] *)
Definition in_locals (v : main_state → option nat) : M main_state bool :=
  λ s, (inr (bool_decide (is_Some (v s))), s).

(** [os.getenv(name, default)] *)
Definition getenv (name dflt : string) : M world string :=
  λ w, (inr (default dflt (env w !! name)), w).

Definition pbc_file : string := "pbc.dat.txt".
Definition schema_file : string := "pbc_schema.sql".

(** The statistics query of [main]; the line breaks and indentation of
    the source text are written as single spaces. *)
Definition stats_sql : string :=
  "SELECT COUNT(*) as total_patients, COUNT(CASE WHEN status = 2 THEN 1 END) as deaths, COUNT(CASE WHEN status = 1 THEN 1 END) as transplants, COUNT(CASE WHEN status = 0 THEN 1 END) as alive, ROUND(AVG(futime)) as avg_followup_days, ROUND(AVG(bili), 2) as avg_bilirubin FROM pbc_patients".

(** The [try] block of [main], first part: reading and describing the
    input.  Returns [df]. *)
Definition main_read (db_params : list (string * string)) : M main_state nat :=
  liftW (print [Lit "Reading PBC data from "; Lit pbc_file; Lit "..."]) >>
  let* df := liftW (read_pbc_data pbc_file) in
  let* f := liftW (deref df) in
  liftW (print [Lit "Loaded "; PInt (Z.of_nat (nrows f)); Lit " records with ";
                PInt (Z.of_nat (length (columns f))); Lit " columns"]) >>
  let* fu := liftW (getitem_ref df "futime") in
  let* fu' := liftW (getitem_ref df "futime") in
  liftW (print [Lit "Survival time range: "; PVal (col_min fu); Lit "-";
                PVal (col_max fu'); Lit " days"]) >>
  let* st := liftW (getitem_ref df "status") in
  liftW (print [Lit "Status distribution: "; PDict (value_counts st)]) >>
  liftW (print [Lit "Connecting to PostgreSQL at ";
                Lit (default EmptyString (assoc "host" db_params)); Lit ":";
                Lit (default EmptyString (assoc "port" db_params)); Lit "..."]) >>
  ret df.

(** The [try] block of [main], last part: everything after [conn] and
    [cursor] are bound. *)
Definition main_load (conn cursor df : nat) : M main_state unit :=
  liftW (print [Lit "Loading database schema from "; Lit schema_file; Lit "..."]) >>
  liftW (load_schema_from_file cursor schema_file) >>
  liftW (print [Lit "Inserting PBC data..."]) >>
  liftW (insert_pbc_data cursor df) >>
  liftW (commit conn) >>
  let* f' := liftW (deref df) in
  liftW (print [Lit "Successfully inserted "; PInt (Z.of_nat (nrows f'));
                Lit " records into pbc_patients table"]) >>
  liftW (execute cursor "SELECT COUNT(*) FROM pbc_patients") >>
  let* r := liftW (fetchone cursor) in
  let* count := lift_result (subscript r 0) in
  liftW (print [Lit "Total records in database: "; PSql count]) >>
  liftW (execute cursor stats_sql) >>
  let* stats := liftW (fetchone cursor) in
  let* s0 := lift_result (subscript stats 0) in
  let* s1 := lift_result (subscript stats 1) in
  let* s2 := lift_result (subscript stats 2) in
  let* s3 := lift_result (subscript stats 3) in
  liftW (print [Lit "Dataset summary: "; PSql s0; Lit " patients, "; PSql s1;
                Lit " deaths, "; PSql s2; Lit " transplants, "; PSql s3;
                Lit " alive"]) >>
  let* s4 := lift_result (subscript stats 4) in
  let* s5 := lift_result (subscript stats 5) in
  liftW (print [Lit "Average follow-up: "; PSql s4; Lit " days, Average bilirubin: ";
                PSql s5; Lit " mg/dl"]).

(** The [try] block of [main]. *)
Definition main_body (db_params : list (string * string)) : M main_state unit :=
  let* df := main_read db_params in
  let* conn := liftW (connect db_params) in
  bind_conn conn >>
  let* cursor := liftW (cursor_of conn) in
  bind_cursor cursor >>
  main_load conn cursor df.

(** The failure classes that [main] tells apart. *)
Inductive failure_class := MissingFile | DatabaseError | Unexpected.

Definition classify (e : exn) : failure_class :=
  match exn_type e with
  | FileNotFoundError => MissingFile
  | Psycopg2Error => DatabaseError
  | _ => Unexpected
  end.

(** The words that open the report of each class. *)
Definition report_prefix (c : failure_class) : string :=
  match c with
  | MissingFile => "Error: File not found - "
  | DatabaseError => "Database error: "
  | Unexpected => "Unexpected error: "
  end.

(** What each [except] clause prints. *)
Definition report (e : exn) : list line :=
  match classify e with
  | MissingFile =>
      [[Lit "Error: File not found - "; PExn e];
       [Lit "Make sure pbc.dat.txt and pbc_schema.sql are in the current directory"]]
  | DatabaseError =>
      [[Lit "Database error: "; PExn e];
       [Lit "Check PostgreSQL connection parameters and ensure database exists"]]
  | Unexpected =>
      [[Lit "Unexpected error: "; PExn e]]
  end.

(** The three [except] clauses, tried in order. *)
Definition main_handler (e : exn) : M main_state unit :=
  match exn_type e with
  | FileNotFoundError =>
      liftW (print [Lit "Error: File not found - "; PExn e]) >>
      liftW (print [Lit "Make sure pbc.dat.txt and pbc_schema.sql are in the current directory"])
  | Psycopg2Error =>
      liftW (print [Lit "Database error: "; PExn e]) >>
      liftW (print [Lit "Check PostgreSQL connection parameters and ensure database exists"])
  | _ =>
      liftW (print [Lit "Unexpected error: "; PExn e])
  end.

(** The [finally] block. *)
Definition main_cleanup : M main_state unit :=
  (let* b := in_locals v_cursor in
   if b then let* cursor := read_local "cursor" v_cursor in
             liftW (close_cursor cursor)
   else ret tt) >>
  (let* b := in_locals v_conn in
   if b then let* conn := read_local "conn" v_conn in
             liftW (close_conn conn)
   else ret tt).

Definition main_try (db_params : list (string * string)) : M main_state unit :=
  try_finally (try_except (main_body db_params) main_handler) main_cleanup.

(** A call of a function whose frame holds the tracked locals, all
    unbound at entry. *)
Definition call {A} (m : M main_state A) : M world A :=
  λ w, match m (mkMain w None None) with
       | (r, s) => (r, mw s)
       end.

(** The dictionary [db_params] under a given environment. *)
Definition db_params_of (e : gmap string string) : list (string * string) :=
  [("host", default "localhost" (e !! "POSTGRES_HOST"));
   ("port", default "5432" (e !! "POSTGRES_PORT"));
   ("database", default "liver_transplant" (e !! "POSTGRES_DB"));
   ("user", default "postgres" (e !! "POSTGRES_USER"));
   ("password", default "password" (e !! "POSTGRES_PASSWORD"))]%string.

(** [main()] *)
Definition main : M world unit :=
  let* host := getenv "POSTGRES_HOST" "localhost" in
  let* port := getenv "POSTGRES_PORT" "5432" in
  let* database := getenv "POSTGRES_DB" "liver_transplant" in
  let* user := getenv "POSTGRES_USER" "postgres" in
  let* password := getenv "POSTGRES_PASSWORD" "password" in
  let db_params :=
    [("host", host); ("port", port); ("database", database);
     ("user", user); ("password", password)]%string in
  call (main_try db_params).

(** ** Sample inputs *)

Definition sample_row_1 : string :=
  "1 400 2 1 21464 1 1 1 1 1.0 14.5 261 2.60 156 1718 137.95 172 190 12.2 4".

(** A record with two missing values ([drug] and [chol]). *)
Definition sample_row_2 : string :=
  "2 4500 0 . 20617 1 0 1 1 0.0 1.1 . 4.14 54 7394.8 113.52 88 221 10.6 3".

(** A server that grants the connection and accepts every statement. *)
Definition quiet_server : server :=
  mkServer (λ _, None) (λ _ t, inr (t, None)).

(** A fresh process: the given files, nothing printed, no object, an
    empty table, no handle. *)
Definition sample_world (files : gmap string string) : world :=
  mkWorld ∅ files [] ∅ quiet_server ∅ ∅ None ∅ ∅ 0 [].


(** A table whose [bili] column is 1, 2, missing, 4 and whose other
    columns are complete. *)
Definition frame_bili_gap : DataFrame :=
  mkFrame 4
    ((λ c, (c, if decide (c = "bili") then [num 1; num 2; NaN; num 4]
               else [num 0; num 0; num 1; num 1]))
       <$> ("futime" :: "death_event" :: feature_cols))%string.

(** The store holding [frame_bili_gap] as object 0. *)
Definition world_bili_gap : world :=
  set_heap (λ h, <[0%nat := frame_bili_gap]> h) (sample_world ∅).

(** Two proposed rows under the same identifier that differ in [futime]
    and [bili]. *)
Definition patient_first : pbc_patient :=
  mkPatient 7 (SqlNum (Q2Qc 400)) (SqlNum (Q2Qc 2)) SqlNull SqlNull SqlNull
    SqlNull SqlNull SqlNull SqlNull (SqlNum (Q2Qc (145 # 10))) SqlNull SqlNull
    SqlNull SqlNull SqlNull SqlNull SqlNull SqlNull SqlNull.

Definition patient_second : pbc_patient :=
  mkPatient 7 (SqlNum (Q2Qc 1200)) (SqlNum (Q2Qc 0)) SqlNull SqlNull SqlNull
    SqlNull SqlNull SqlNull SqlNull SqlNull SqlNull SqlNull
    SqlNull SqlNull SqlNull SqlNull SqlNull SqlNull SqlNull.

(** A schema text of two statements, with blank segments, and one whose
    function body holds a semicolon. *)
Definition sample_schema : string :=
  "CREATE TABLE pbc_patients (id INT PRIMARY KEY); ; CREATE INDEX i ON pbc_patients (id);".

Definition nested_schema : string :=
  "CREATE FUNCTION f() RETURNS int AS 'SELECT 1; SELECT 2' LANGUAGE sql;".


(** The frames that the converter reads from the sample records. *)
Definition sample_frame_1 : DataFrame :=
  match read_table_text pbc_columns ["."%string] sample_row_1 with
  | inr f => f
  | inl _ => mkFrame 0 []
  end.

Definition sample_frame_2 : DataFrame :=
  match read_table_text pbc_columns ["."%string] sample_row_2 with
  | inr f => f
  | inl _ => mkFrame 0 []
  end.

(** ** Notions used in the statements *)

(** [df[c][i]] *)
Definition cell_at (c : string) (df : DataFrame) (i : nat) : option cell :=
  assoc c (columns df) ≫= (λ col, col !! i).

Definition derived_columns : list string :=
  ["age_years"; "death_event"; "male"; "female"; "drug_treatment"]%string.

(** The five assignments that [convert_pbc_to_csv] makes on [df_ml], as
    a function of the frame it starts from. *)
Definition derive_ml (f : DataFrame) : result DataFrame :=
  match getitem "age" f with inl e => inl e | inr age =>
  match setitem "age_years" (div_scalar days_per_year age) f with inl e => inl e | inr f1 =>
  match getitem "status" f1 with inl e => inl e | inr status =>
  match setitem "death_event" (eq_scalar_int (Q2Qc 2) status) f1 with inl e => inl e | inr f2 =>
  match getitem "sex" f2 with inl e => inl e | inr sex =>
  match setitem "male" (eq_scalar_int (Q2Qc 0) sex) f2 with inl e => inl e | inr f3 =>
  match getitem "sex" f3 with inl e => inl e | inr sex' =>
  match setitem "female" (eq_scalar_int (Q2Qc 1) sex') f3 with inl e => inl e | inr f4 =>
  match getitem "drug" f4 with inl e => inl e | inr drug =>
  setitem "drug_treatment" (eq_scalar_int (Q2Qc 1) drug) f4
  end end end end end end end end end.

(** A 0/1 indicator. *)
Definition indicator (b : bool) : cell := if b then num 1 else num 0.

(** A computation that opens and closes no handle. *)
Definition handles_kept {A} (m : M world A) : Prop :=
  ∀ w, live_conns (m w).2 = live_conns w
       ∧ live_cursors (m w).2 = live_cursors w.

(** A block of [main] that opens and closes no handle and binds neither
    [conn] nor [cursor]. *)
Definition locals_kept {A} (m : M main_state A) : Prop :=
  ∀ s, live_conns (mw (m s).2) = live_conns (mw s)
       ∧ live_cursors (mw (m s).2) = live_cursors (mw s)
       ∧ v_conn (m s).2 = v_conn s
       ∧ v_cursor (m s).2 = v_cursor s.

(** The world after the [finally] block, by which locals are bound. *)
Definition after_cleanup (s : main_state) : world :=
  let w1 := match v_cursor s with
            | Some c => (close_cursor c (mw s)).2
            | None => mw s
            end in
  match v_conn s with
  | Some h => (close_conn h w1).2
  | None => w1
  end.

(** A run that fails before [conn] is bound: reading the input raises
    [e] and leaves the world [w1], or the input is read and the
    connection is refused with [e], leaving [w1]. *)
Definition fails_before_connect (w : world) (e : exn) (w1 : world) : Prop :=
  let p := db_params_of (env w) in
  let r := main_read p (mkMain w None None) in
  match r.1 with
  | inl e' => e' = e ∧ w1 = mw r.2
  | inr _ => connect p (mw r.2) = (inl e, w1)
  end.

(** The server accepts every statement. *)
Definition accepts_all (s : server) : Prop :=
  ∀ stmt t, ∃ t' r, run_sql s stmt t = inr (t', r).

(** A computation that leaves every existing DataFrame object as it is
    (it may create new ones). *)
Definition objects_kept {A} (m : M world A) : Prop :=
  ∀ w, heap w ⊆ heap (m w).2.

(** The median in the words of the spec: put the present values in
    order; for an odd count take the middle value, for an even count the
    average of the two middle values. *)
Definition is_median (xs : list Qc) (m : Qc) : Prop :=
  ∃ s, s ≡ₚ xs ∧ Sorted Qcle s ∧
       let n := length s in
       if Nat.odd n then s !! (n / 2)%nat = Some m
       else ∃ a b, s !! (n / 2 - 1)%nat = Some a ∧ s !! (n / 2)%nat = Some b
                   ∧ m = ((a + b) / Q2Qc 2)%Qc.

(** A character that is no digit. *)
Definition not_digit (c : ascii) : Prop := char_digit c = None.

(** A value that positional notation with at most [float_digits]
    fractional digits writes exactly. *)
Definition exact_decimal (q : Qc) : Prop :=
  (10 ^ Z.of_nat float_digits) mod Zpos (Qden q) = 0.

(** The characters of a numeral as the converter writes it. *)
Definition numeral_char (c : ascii) : bool :=
  match char_digit c with
  | Some _ => true
  | None => bool_decide (c = "-"%char) || bool_decide (c = "."%char)
  end.

Fixpoint all_chars (P : ascii → bool) (s : string) : bool :=
  match s with
  | EmptyString => true
  | String c s' => P c && all_chars P s'
  end.

(** A non-empty string of numeral characters. *)
Definition plain (s : string) : bool :=
  all_chars numeral_char s && negb (bool_decide (s = EmptyString)).

(** A cell that the CSV text carries exactly: missing, or a value with
    at most [float_digits] fractional digits. *)
Definition exact_cell (x : cell) : Prop :=
  match x with
  | Some q => exact_decimal q
  | None => True
  end.

(** A frame whose every cell is carried exactly. *)
Definition exact_frame (f : DataFrame) : Prop :=
  Forall (λ c : string * column, Forall exact_cell c.2) (columns f).

(** A label that needs no quoting in a CSV header. *)
Definition plain_label (s : string) : Prop :=
  contains ","%char s = false ∧ contains newline s = false.

(** A cell of a categorical column: a code (an integer) or missing. *)
Definition code_cell (x : cell) : Prop :=
  match x with
  | Some q => is_integer q = true
  | None => True
  end.

(** A frame whose categorical columns hold codes. *)
Definition categorical_ok (f : DataFrame) : Prop :=
  ∀ c col, c ∈ categorical_cols → assoc c (columns f) = Some col →
           Forall code_cell col.

(** The number of digits that a numeral has after its point. *)
Definition fraction_length (tok : string) : nat :=
  match split_on "."%char tok with
  | [_; f] => String.length f
  | _ => 0%nat
  end.

(** A text whose fields have at most [float_digits] digits after the
    point. *)
Definition short_fields (text : string) : Prop :=
  Forall (Forall (λ tok, (fraction_length tok <= float_digits)%nat))
    (words <$> split_on newline text).

(** ** Notions used in the further properties *)

(** Everything in the world except what is printed and the DataFrame
    objects: the environment, the files and the database side. *)
Definition outside (w : world) :=
  (env w, fs w, srv w, committed w, session w, fetched w,
   live_conns w, live_cursors w, next_handle w, db_trace w).

(** A computation whose only effects are printing and creating or
    updating DataFrame objects; [π] gives the world of the state. *)
Definition prints_only {S A} (π : S → world) (m : M S A) : Prop :=
  ∀ s, outside (π (m s).2) = outside (π s).

(** A driver call that stores rows or makes them permanent. *)
Definition is_write (e : db_event) : bool :=
  match e with
  | EvInsert _ | EvCommit => true
  | _ => false
  end.

(** A computation none of whose driver calls is a write. *)
Definition writes_nothing {S A} (π : S → world) (m : M S A) : Prop :=
  ∀ s, ∃ evs, db_trace (π (m s).2) = db_trace (π s) ++ evs
              ∧ Forall (λ e, is_write e = false) evs.

(** What a statement run through [execute] cannot change: everything
    except the session's view of the table, the row left to fetch and
    the trace. *)
Definition beyond_session (w : world) :=
  (env w, fs w, stdout w, heap w, srv w, committed w,
   live_conns w, live_cursors w, next_handle w).

(** What [df.fillna(None)] raises. *)
Definition fill_error : exn :=
  Raise ValueError "Must specify a fill 'value' or 'method'.".

(** A computation that ends in an exception from every state. *)
Definition always_raises {S A} (m : M S A) : Prop :=
  ∀ s, ∃ e, (m s).1 = inl e.

(** A fresh process that finds the data file and the schema file. *)
Definition world_with_inputs : world :=
  sample_world {[ pbc_file := sample_row_2; schema_file := sample_schema ]}.

(** A fresh process that finds the data file only. *)
Definition world_without_schema : world :=
  sample_world {[ pbc_file := sample_row_2 ]}.

(** A character of a text that holds no statement. *)
Definition blank_or_semicolon (c : ascii) : bool :=
  is_space c || bool_decide (c = semicolon).

(** A statement as [load_schema_from_file] sends it: not empty, with no
    white space at either end and no semicolon. *)
Definition clean_statement (s : string) : Prop :=
  s ≠ EmptyString ∧ strip s = s ∧ contains semicolon s = false.

(** The columns that [print_dataset_summary] reads, in the order in
    which it reads them. *)
Definition summary_cols : list string :=
  ["death_event"; "status"; "futime"; "age_years"]%string.





(** The value of the numeral that [render_float] writes for [q]: [q]
    itself when its expansion is short enough, [q] cut after
    [float_digits] fractional digits otherwise. *)
Definition carried (q : Qc) : Qc :=
  let k := default float_digits (scale_of q) in
  let p := 10 ^ Z.of_nat k in
  let v := Q2Qc (Z.abs (Qnum q) * p / Zpos (Qden q) # Z.to_pos p) in
  if decide (Qnum q < 0) then (- v)%Qc else v.

(** A cell after one passage through a CSV file. *)
Definition reread_cell (as_int : bool) (x : cell) : cell :=
  match x with
  | Some q => Some (if as_int then q else carried q)
  | None => None
  end.

(** A frame after one passage through a CSV file. *)
Definition reread_frame (f : DataFrame) : DataFrame :=
  mkFrame (nrows f)
    ((λ c : string * column, (c.1, reread_cell (int_column c.2) <$> c.2))
       <$> columns f).

(** The number of rows of a column that hold the code [k]. *)
Definition count_code (k : Z) (c : column) : Z :=
  Z.of_nat (length (filter (λ x : cell, x = num k) c)).

(** An ML-ready table of three patients, cut down to the columns that
    [print_dataset_summary] reads: one death, one transplant, one row
    with a missing status. *)
Definition frame_summary : DataFrame :=
  mkFrame 3
    [("futime", [num 400; num 4500; num 1012]);
     ("status", [num 2; num 1; NaN]);
     ("death_event", eq_scalar_int (Q2Qc 2) [num 2; num 1; NaN]);
     ("age_years", [num 58; num 56; num 70])]%string.

Definition world_summary : world :=
  set_heap (λ h, <[0%nat := frame_summary]> h) (sample_world ∅).

(** * Properties *)

(** ** The text primitives on small inputs *)

Example split_on_ex :
  split_on ";"%char "a;;b;" = ["a"; ""; "b"; ""]%string.
Proof. reflexivity. Qed.

Example render_float_ex :
  render_float (Q2Qc (260 # 100)) = "2.6"%string
  ∧ render_float (Q2Qc (-5 # 1)) = "-5.0"%string
  ∧ render_int (Q2Qc (21464 # 1)) = "21464"%string
  ∧ render_float (Q2Qc (13795 # 100)) = "137.95"%string
  ∧ render_float (Q2Qc (5 # 1000)) = "0.005"%string.
Proof. vm_compute. repeat split. Qed.

Example words_ex : words "  1  400 2 . " = ["1"; "400"; "2"; "."]%string.
Proof. reflexivity. Qed.

Example strip_ex : strip "  a b
 " = "a b"%string.
Proof. reflexivity. Qed.

Lemma filter_none {A} (P : A → Prop) `{∀ x, Decision (P x)} (l : list A) :
  (∀ x, x ∈ l → ¬ P x) → filter P l = [].
Proof.
  induction l as [|a l IH]; intros Hl; [done|].
  rewrite filter_cons_False by (apply Hl; by left).
  apply IH. intros x Hx. apply Hl. by right.
Qed.

(** ** The upsert statement *)

Section Upsert.
Implicit Types (t : table) (r : pbc_patient).

Lemma do_update_same_key old r : id old = id r → do_update old r = r.
Proof. destruct r, old; simpl; intros ->; reflexivity. Qed.

Lemma upsert_wf t r : wf_table t → wf_table (upsert t r).
Proof.
  intros Hwf k r'. unfold upsert.
  destruct (t !! id r) as [old|] eqn:Ht;
    rewrite lookup_insert; case_decide; subst; try (by apply Hwf).
  - intros [= <-]. simpl. by apply Hwf.
  - by intros [= <-].
Qed.

Lemma upsert_lookup_key t r : wf_table t → upsert t r !! id r = Some r.
Proof.
  intros Hwf. unfold upsert.
  destruct (t !! id r) as [old|] eqn:Ht; rewrite lookup_insert_eq; [|done].
  f_equal. apply do_update_same_key. by apply Hwf.
Qed.

Lemma upsert_lookup_other t r k : k ≠ id r → upsert t r !! k = t !! k.
Proof.
  intros Hk. unfold upsert.
  destruct (t !! id r); by rewrite lookup_insert_ne.
Qed.

Lemma foldl_upsert_wf rows t : wf_table t → wf_table (foldl upsert t rows).
Proof.
  revert t. induction rows as [|r rows IH]; intros t Hwf; [done|].
  simpl. apply IH. by apply upsert_wf.
Qed.

Lemma foldl_upsert_lookup_other rows t k :
  k ∉ id <$> rows → foldl upsert t rows !! k = t !! k.
Proof.
  revert t. induction rows as [|r rows IH]; intros t Hk; [done|].
  simpl in *. apply not_elem_of_cons in Hk as [Hk1 Hk2].
  rewrite IH by done. by apply upsert_lookup_other.
Qed.

Lemma foldl_upsert_lookup rows t r :
  wf_table t → NoDup (id <$> rows) → r ∈ rows →
  foldl upsert t rows !! id r = Some r.
Proof.
  revert t. induction rows as [|r' rows IH]; intros t Hwf Hnd Hin.
  - by apply elem_of_nil in Hin.
  - simpl in *. apply NoDup_cons in Hnd as [Hfresh Hnd].
    apply elem_of_cons in Hin as [->|Hin].
    + rewrite foldl_upsert_lookup_other by done.
      by apply upsert_lookup_key.
    + apply IH; [by apply upsert_wf|done|done].
Qed.

Lemma insert_on_conflict_wf t rows t' :
  wf_table t → insert_on_conflict t rows = inr t' → wf_table t'.
Proof.
  unfold insert_on_conflict. intros Hwf. case_decide; [|done].
  intros [= <-]. by apply foldl_upsert_wf.
Qed.

Lemma insert_on_conflict_lookup t rows t' r :
  wf_table t → insert_on_conflict t rows = inr t' → r ∈ rows →
  t' !! id r = Some r.
Proof.
  unfold insert_on_conflict. intros Hwf. case_decide; [|done].
  intros [= <-] Hin. by apply foldl_upsert_lookup.
Qed.

(** In a well-formed table, the rows that carry key [k] are the row
    stored under [k], once. *)
Lemma rows_with_key t k r :
  wf_table t → t !! k = Some r →
  filter (λ r', id r' = k) (table_rows t) = [r].
Proof.
  intros Hwf Hk. unfold table_rows.
  assert (Hfilter : ∀ l : list (Z * pbc_patient),
    NoDup l.*1 → (∀ k' r', (k', r') ∈ l → id r' = k') → (k, r) ∈ l →
    filter (λ r', id r' = k) l.*2 = [r]).
  { induction l as [|[k' r'] l IH]; intros Hnd Hid Hin.
    - by apply elem_of_nil in Hin.
    - simpl in *. apply NoDup_cons in Hnd as [Hfresh Hnd].
      assert (Hrest : ∀ k'' r'', (k'', r'') ∈ l → id r'' = k'').
      { intros k'' r'' H. apply Hid. by right. }
      apply elem_of_cons in Hin as [[= <- <-]|Hin].
      + rewrite filter_cons_True by (apply Hid; by left).
        f_equal. apply filter_none.
        intros r'' [[k'' r3] [-> Hr3]]%list_elem_of_fmap. simpl.
        rewrite (Hrest _ _ Hr3). intros ->. apply Hfresh.
        apply list_elem_of_fmap. by exists (k, r3).
      + rewrite filter_cons_False; [by apply IH|].
        rewrite (Hid k' r') by (by left). intros ->. apply Hfresh.
        apply list_elem_of_fmap. by exists (k, r). }
  apply Hfilter.
  - apply NoDup_fst_map_to_list.
  - intros k' r' H%elem_of_map_to_list. by apply Hwf.
  - by apply elem_of_map_to_list.
Qed.

End Upsert.

(** C6.  Two upsert statements, the first proposing [r1] and the second
    proposing [r2] under the same identifier, leave exactly one row for
    that identifier, and that row is [r2]: every non-key column holds the
    value of the second write. *)
Theorem upsert_twice_last_write_wins
    (t t1 t2 : table) (rows1 rows2 : list pbc_patient) (r1 r2 : pbc_patient) :
  wf_table t →
  r1 ∈ rows1 → r2 ∈ rows2 → id r1 = id r2 →
  insert_on_conflict t rows1 = inr t1 →
  insert_on_conflict t1 rows2 = inr t2 →
  t2 !! id r2 = Some r2
  ∧ filter (λ r, id r = id r2) (table_rows t2) = [r2]
  ∧ futime <$> t2 !! id r1 = Some (futime r2)
  ∧ wf_table t2.
Proof.
  intros Hwf H1 H2 Hid Hs1 Hs2.
  assert (Hwf1 : wf_table t1) by eauto using insert_on_conflict_wf.
  assert (Hwf2 : wf_table t2) by eauto using insert_on_conflict_wf.
  assert (Hl : t2 !! id r2 = Some r2) by eauto using insert_on_conflict_lookup.
  repeat split; [done| |by rewrite Hid, Hl|done].
  by apply rows_with_key.
Qed.

(** ** Handles and locals along the blocks of [main] *)

Section Kept.

Lemma handles_kept_ret {A} (a : A) : handles_kept (ret a).
Proof. by intros w. Qed.

Lemma handles_kept_lift_result {A} (r : result A) : handles_kept (lift_result r).
Proof. by intros w. Qed.

Lemma handles_kept_bind {A B} (m : M world A) (k : A → M world B) :
  handles_kept m → (∀ a, handles_kept (k a)) → handles_kept (bind m k).
Proof.
  intros Hm Hk w. unfold bind. specialize (Hm w).
  destruct (m w) as [[e|a] w1]; simpl in *; [done|].
  destruct (Hk a w1) as [-> ->]. done.
Qed.

Lemma handles_kept_for_each {A} (xs : list A) (body : A → M world unit) :
  (∀ x, handles_kept (body x)) → handles_kept (for_each xs body).
Proof.
  intros Hb. induction xs as [|x xs IH]; simpl.
  - apply handles_kept_ret.
  - apply handles_kept_bind; [apply Hb|intros _; apply IH].
Qed.

Ltac prim := intros w; cbv beta delta
  [print modify read_file write_file deref store alloc getenv execute
   fetchone commit execute_insert set_stdout set_fs set_heap log_event
   set_session set_committed];
  repeat case_match; simpl; done.

Lemma handles_kept_print l : handles_kept (print l).
Proof. prim. Qed.
Lemma handles_kept_read_file path : handles_kept (read_file path).
Proof. prim. Qed.
Lemma handles_kept_write_file path s : handles_kept (write_file path s).
Proof. prim. Qed.
Lemma handles_kept_deref l : handles_kept (deref l).
Proof. prim. Qed.
Lemma handles_kept_store l df : handles_kept (store l df).
Proof. prim. Qed.
Lemma handles_kept_alloc df : handles_kept (alloc df).
Proof. prim. Qed.
Lemma handles_kept_execute c sql : handles_kept (execute c sql).
Proof. prim. Qed.
Lemma handles_kept_fetchone c : handles_kept (fetchone c).
Proof. prim. Qed.
Lemma handles_kept_commit c : handles_kept (commit c).
Proof. prim. Qed.
Lemma handles_kept_execute_insert c page : handles_kept (execute_insert c page).
Proof. prim. Qed.

End Kept.

Create HintDb kept discriminated.

#[export] Hint Resolve handles_kept_ret handles_kept_lift_result
  handles_kept_print handles_kept_read_file handles_kept_write_file
  handles_kept_deref handles_kept_store handles_kept_alloc
  handles_kept_execute handles_kept_fetchone handles_kept_commit
  handles_kept_execute_insert : kept.

Ltac kept_steps :=
  repeat first
    [ apply handles_kept_bind; [|intros ?]
    | apply handles_kept_for_each; intros ?
    | solve [auto with kept] ].

Lemma handles_kept_getitem_ref l col : handles_kept (getitem_ref l col).
Proof. unfold getitem_ref. kept_steps. Qed.

Lemma handles_kept_read_table path labels na :
  handles_kept (read_table path labels na).
Proof. unfold read_table. kept_steps. Qed.

Lemma handles_kept_load_schema c f : handles_kept (load_schema_from_file c f).
Proof. unfold load_schema_from_file. kept_steps. Qed.

Lemma handles_kept_execute_values c vs : handles_kept (execute_values c vs).
Proof. unfold execute_values. kept_steps. Qed.

Lemma handles_kept_insert_pbc_data c df : handles_kept (insert_pbc_data c df).
Proof.
  pose proof handles_kept_execute_values.
  unfold insert_pbc_data. kept_steps.
Qed.

#[export] Hint Resolve handles_kept_getitem_ref handles_kept_read_table
  handles_kept_load_schema handles_kept_insert_pbc_data : kept.

Lemma locals_kept_ret {A} (a : A) : locals_kept (ret a).
Proof. by intros s. Qed.

Lemma locals_kept_lift_result {A} (r : result A) : locals_kept (lift_result r).
Proof. by intros s. Qed.

Lemma locals_kept_liftW {A} (m : M world A) : handles_kept m → locals_kept (liftW m).
Proof.
  intros Hm s. unfold liftW. specialize (Hm (mw s)).
  destruct (m (mw s)) as [r w]. simpl in *. tauto.
Qed.

Lemma locals_kept_bind {A B} (m : M main_state A) (k : A → M main_state B) :
  locals_kept m → (∀ a, locals_kept (k a)) → locals_kept (bind m k).
Proof.
  intros Hm Hk s. unfold bind. specialize (Hm s).
  destruct (m s) as [[e|a] s1]; simpl in *; [done|].
  destruct (Hk a s1) as (-> & -> & -> & ->). done.
Qed.

Ltac locals_steps :=
  repeat first
    [ apply locals_kept_bind; [|intros ?]
    | apply locals_kept_ret
    | apply locals_kept_lift_result
    | apply locals_kept_liftW; solve [auto with kept] ].

Lemma main_read_kept p : locals_kept (main_read p).
Proof. unfold main_read, read_pbc_data. locals_steps. Qed.

Lemma main_load_kept conn cursor df : locals_kept (main_load conn cursor df).
Proof. unfold main_load. locals_steps. Qed.

(** ** [main]: handlers, cleanup, and the whole run *)

Lemma main_unfold (w : world) :
  main w = call (main_try (db_params_of (env w))) w.
Proof. reflexivity. Qed.

Lemma main_handler_spec (e : exn) (s : main_state) :
  main_handler e s
  = (inr tt, mkMain (set_stdout (λ out, out ++ report e) (mw s))
               (v_conn s) (v_cursor s)).
Proof.
  destruct e as [c msg].
  destruct c; cbv [main_handler report classify exn_type liftW print modify
                   bind set_stdout mw v_conn v_cursor stdout env fs heap srv
                   committed session fetched live_conns live_cursors
                   next_handle db_trace];
    rewrite <- ?app_assoc; reflexivity.
Qed.

Lemma main_cleanup_spec (s : main_state) :
  main_cleanup s = (inr tt, mkMain (after_cleanup s) (v_conn s) (v_cursor s)).
Proof.
  destruct s as [w [h|] [c|]]; reflexivity.
Qed.

Lemma main_try_spec (p : list (string * string)) (s : main_state) :
  main_try p s
  = (inr tt,
     let b := main_body p s in
     let s1 := match b.1 with
               | inl e => mkMain (set_stdout (λ out, out ++ report e) (mw b.2))
                            (v_conn b.2) (v_cursor b.2)
               | inr _ => b.2
               end in
     mkMain (after_cleanup s1) (v_conn s1) (v_cursor s1)).
Proof.
  unfold main_try, try_finally, try_except.
  destruct (main_body p s) as [[e|[]] s1]; simpl.
  - rewrite main_handler_spec, main_cleanup_spec. reflexivity.
  - rewrite main_cleanup_spec. reflexivity.
Qed.

(** Every handle that is live after the [try] block and was not live
    before is the one bound to [conn], respectively [cursor]. *)
Lemma main_body_handles (p : list (string * string)) (s : main_state) :
  let s1 := (main_body p s).2 in
  live_conns (mw s1) ⊆ live_conns (mw s) ∪ from_option singleton ∅ (v_conn s1)
  ∧ live_cursors (mw s1) ⊆ live_cursors (mw s) ∪ from_option singleton ∅ (v_cursor s1).
Proof.
  intros s1. subst s1.
  destruct (main_body p s) as [r s1] eqn:Hb. simpl.
  unfold main_body, bind in Hb.
  pose proof (main_read_kept p s) as (Hc & Hk & Hvc & Hvk).
  destruct (main_read p s) as [[e|df] sa]; simpl in *.
  { injection Hb as Hr Hs; subst r s1. simpl. rewrite Hc, Hk. set_solver. }
  unfold liftW at 1 in Hb. unfold connect in Hb.
  destruct (connect_error (srv (mw sa)) p) as [msg|]; simpl in Hb.
  { injection Hb as Hr Hs; subst r s1. simpl. rewrite Hc, Hk. set_solver. }
  unfold liftW at 1 in Hb. unfold cursor_of in Hb. simpl in Hb.
  case_decide; simpl in Hb.
  2:{ injection Hb as Hr Hs; subst r s1. simpl. rewrite Hc, Hk. set_solver. }
  match type of Hb with
  | main_load ?a ?b ?c ?st = _ =>
      pose proof (main_load_kept a b c st) as (Hc' & Hk' & Hvc' & Hvk');
      rewrite Hb in Hc', Hk', Hvc', Hvk'
  end.
  simpl in *. rewrite Hc', Hk', Hvc', Hvk', Hc, Hk. simpl. set_solver.
Qed.

Lemma after_cleanup_handles (s : main_state) :
  live_conns (after_cleanup s) = live_conns (mw s) ∖ from_option singleton ∅ (v_conn s)
  ∧ live_cursors (after_cleanup s)
    = live_cursors (mw s) ∖ from_option singleton ∅ (v_cursor s).
Proof.
  destruct s as [w [h|] [c|]]; simpl; unfold after_cleanup; simpl;
    split; set_solver.
Qed.

Lemma after_cleanup_stdout (s : main_state) :
  stdout (after_cleanup s) = stdout (mw s).
Proof. destruct s as [w [h|] [c|]]; reflexivity. Qed.

(** C7.  Every run of [main] returns normally, whatever the files, the
    environment and the server do; the lines printed after the [try]
    block are the report of the exception it raised, which opens with
    words that tell the three classes apart; and no connection or cursor
    opened by the run is live when [main] returns. *)
Theorem main_reports_and_releases (w : world) :
  let b := main_body (db_params_of (env w)) (mkMain w None None) in
  ∃ w',
    main w = (inr tt, w')
    ∧ live_conns w' ⊆ live_conns w
    ∧ live_cursors w' ⊆ live_cursors w
    ∧ stdout w'
      = stdout (mw b.2) ++ match b.1 with inl e => report e | inr _ => [] end
    ∧ (∀ e, ∃ rest,
         report e = [Lit (report_prefix (classify e)); PExn e] :: rest)
    ∧ (∀ c1 c2, report_prefix c1 = report_prefix c2 → c1 = c2).
Proof.
  intros b. eexists. split; [|split; [|split; [|split; [|split]]]].
  - rewrite main_unfold. unfold call. rewrite main_try_spec. reflexivity.
  - simpl. fold b.
    pose proof (main_body_handles (db_params_of (env w)) (mkMain w None None))
      as [Hc _]. fold b in Hc. simpl in Hc.
    destruct b as [[e|[]] s1]; simpl in *;
      rewrite (proj1 (after_cleanup_handles _)); simpl; set_solver.
  - simpl. fold b.
    pose proof (main_body_handles (db_params_of (env w)) (mkMain w None None))
      as [_ Hk]. fold b in Hk. simpl in Hk.
    destruct b as [[e|[]] s1]; simpl in *;
      rewrite (proj2 (after_cleanup_handles _)); simpl; set_solver.
  - simpl. fold b. destruct b as [[e|[]] s1]; simpl;
      rewrite after_cleanup_stdout; simpl; [done|by rewrite app_nil_r].
  - intros [c msg]. destruct c; eexists; reflexivity.
  - intros [] []; simpl; intros H; try reflexivity; discriminate H.
Qed.

Lemma missing_file_fails_before_connect (w : world) :
  fs w !! pbc_file = None →
  fails_before_connect w (Raise FileNotFoundError pbc_file)
    (set_stdout
       (λ out, out ++ [[Lit "Reading PBC data from "; Lit pbc_file; Lit "..."]]) w).
Proof.
  intros Hfs. unfold fails_before_connect.
  cbv [main_read read_pbc_data read_table read_file liftW print modify bind mw
       set_stdout fs].
  cbv [fs] in Hfs. destruct w; simpl in *. rewrite Hfs. simpl. done.
Qed.

(** C10.  When the run fails before [conn] is bound, the cleanup block
    closes nothing and raises nothing: [main] returns normally and the
    final world is the world at the failure with the report of that
    failure printed, so the trace of driver calls shows no close and no
    other call.  A missing input file is such a run. *)
Theorem cleanup_skips_unbound_handles (w : world) (e : exn) (w1 : world) :
  fails_before_connect w e w1 →
  main w = (inr tt, set_stdout (λ out, out ++ report e) w1)
  ∧ db_trace (main w).2 = db_trace w1
  ∧ (fs w !! pbc_file = None →
     e = Raise FileNotFoundError pbc_file
     ∧ db_trace (main w).2 = db_trace w
     ∧ stdout (main w).2
       = stdout w ++ [Lit "Reading PBC data from "; Lit pbc_file; Lit "..."]
                   :: report (Raise FileNotFoundError pbc_file)).
Proof.
  intros Hf.
  assert (Hmain : main w = (inr tt, set_stdout (λ out, out ++ report e) w1)).
  { assert (Hbody : main_body (db_params_of (env w)) (mkMain w None None)
                     = (inl e, mkMain w1 None None)).
    { unfold fails_before_connect in Hf. unfold main_body, bind.
      pose proof (main_read_kept (db_params_of (env w)) (mkMain w None None))
        as (_ & _ & Hvc & Hvk).
      destruct (main_read (db_params_of (env w)) (mkMain w None None))
        as [[e'|df] [wa vc vk]]; simpl in *; subst vc vk.
      - by destruct Hf as [-> ->].
      - unfold liftW at 1. simpl. by rewrite Hf. }
    rewrite main_unfold. unfold call. rewrite main_try_spec, Hbody.
    reflexivity. }
  split; [done|]. split; [by rewrite Hmain|].
  intros Hfs.
  pose proof (missing_file_fails_before_connect w Hfs) as Hm.
  unfold fails_before_connect in Hf, Hm.
  assert (e = Raise FileNotFoundError pbc_file
          ∧ w1 = set_stdout
                   (λ out, out ++ [[Lit "Reading PBC data from "; Lit pbc_file;
                                    Lit "..."]]) w) as [-> Hw].
  { destruct (main_read (db_params_of (env w)) (mkMain w None None)).1.
    - destruct Hf as [-> ->], Hm as [-> Hw]. done.
    - rewrite Hf in Hm. by injection Hm as -> ->. }
  split; [done|].
  rewrite Hmain, Hw. simpl. split; [done|]. by rewrite <- app_assoc.
Qed.

(** ** [insert_pbc_data] *)

(** Whatever the frame, [df.fillna(None)] raises before any row is built
    or sent. *)
Lemma insert_pbc_data_raises (cursor df : nat) (w : world) (f : DataFrame) :
  heap w !! df = Some f →
  insert_pbc_data cursor df w
  = (inl (Raise ValueError "Must specify a fill 'value' or 'method'."), w).
Proof.
  intros Hdf. unfold insert_pbc_data, bind, deref. rewrite Hdf. reflexivity.
Qed.

(** [tuple(row)] on a numeric frame never holds [None]: a missing cell
    stays a float NaN unless something has replaced it. *)
Lemma tuple_of_row_no_None (r : list cell) : PyNone ∉ tuple_of_row r.
Proof.
  unfold tuple_of_row. intros ([x|] & Hx & _)%list_elem_of_fmap; discriminate Hx.
Qed.

(** C1.  The loader on an input record with missing values: with the
    file read, the connection and the cursor open, [insert_pbc_data]
    raises ValueError at [df.fillna(None)]; no row tuple is built and no
    INSERT reaches the server.  The tuple of the record as read holds
    float NaN, not [None], at the missing fields. *)
Theorem insert_pbc_data_fails_on_missing_values :
  let w := sample_world {[ pbc_file := sample_row_2 ]} in
  let run :=
    (let* df := read_pbc_data pbc_file in
     let* conn := connect [] in
     let* cursor := cursor_of conn in
     insert_pbc_data cursor df) w in
  run.1 = inl (Raise ValueError "Must specify a fill 'value' or 'method'.")
  ∧ db_trace run.2 = [EvConnect 0; EvCursor 1]
  ∧ session run.2 = ∅
  ∧ tuple_of_row (row_values sample_frame_2 0) !! 3%nat = Some PyNaN
  ∧ PyNone ∉ tuple_of_row (row_values sample_frame_2 0).
Proof.
  split; [by vm_compute|]. split; [by vm_compute|]. split; [by vm_compute|].
  split; [by vm_compute|]. apply tuple_of_row_no_None.
Qed.

(** ** Splitting the schema text *)

Section Split.
Variable sep : ascii.

Lemma split_on_nonempty (s : string) : split_on sep s ≠ [].
Proof.
  destruct s as [|c s]; simpl; [done|].
  case_decide; [done|]. by destruct (split_on sep s).
Qed.

(** A separator anywhere in the text ends one segment and starts the
    next. *)
Lemma split_on_app_sep (a b : string) :
  split_on sep (a +:+ String sep b) = split_on sep a ++ split_on sep b.
Proof.
  induction a as [|c a IH]; simpl.
  - by rewrite decide_True.
  - case_decide; [by rewrite IH|].
    rewrite IH. pose proof (split_on_nonempty a).
    by destruct (split_on sep a).
Qed.


Lemma split_on_no_sep (s : string) :
  Forall (λ seg, contains sep seg = false) (split_on sep s).
Proof.
  induction s as [|c s IH]; simpl.
  - by constructor.
  - case_decide.
    + by constructor.
    + destruct (split_on sep s) as [|seg rest].
      * constructor; [|done]. simpl. by rewrite bool_decide_eq_false_2.
      * apply Forall_cons in IH as [Hseg Hrest].
        constructor; [|done]. simpl. by rewrite bool_decide_eq_false_2.
Qed.

Lemma contains_lstrip (s : string) :
  contains sep s = false → contains sep (lstrip s) = false.
Proof.
  induction s as [|c s IH]; simpl; [done|].
  intros [Hc Hs]%orb_false_iff. destruct (is_space c); [by apply IH|].
  simpl. by rewrite Hc, Hs.
Qed.

Lemma contains_rstrip (s : string) :
  contains sep s = false → contains sep (rstrip s) = false.
Proof.
  induction s as [|c s IH]; simpl; [done|].
  intros [Hc Hs]%orb_false_iff. specialize (IH Hs).
  destruct (rstrip s) as [|c' r].
  - destruct (is_space c); simpl; [done|]. by rewrite Hc.
  - simpl in *. by rewrite Hc, IH.
Qed.

Lemma contains_strip (s : string) :
  contains sep s = false → contains sep (strip s) = false.
Proof. intros H. by apply contains_rstrip, contains_lstrip. Qed.

End Split.

Lemma statements_app (a b : string) :
  statements (a +:+ String semicolon b) = statements a ++ statements b.
Proof.
  unfold statements. by rewrite split_on_app_sep, filter_app, fmap_app.
Qed.

Lemma statements_sound (schema_sql : string) :
  Forall (λ stmt, stmt ≠ EmptyString ∧ contains semicolon stmt = false)
    (statements schema_sql).
Proof.
  unfold statements. apply Forall_fmap, Forall_forall.
  intros seg [Hne Hin]%list_elem_of_filter. simpl. split; [done|].
  apply contains_strip.
  pose proof (split_on_no_sep semicolon schema_sql) as Hall.
  rewrite Forall_forall in Hall. by apply Hall.
Qed.

Lemma for_each_execute_trace (cursor : nat) (stmts : list string) (w : world) :
  cursor ∈ live_cursors w →
  let r := for_each stmts (execute cursor) w in
  ∃ k, (k ≤ length stmts)%nat
       ∧ db_trace r.2 = db_trace w ++ (EvExecute <$> take k stmts)
       ∧ (r.1 = inr tt → k = length stmts)
       ∧ (accepts_all (srv w) → r.1 = inr tt).
Proof.
  revert w. induction stmts as [|x stmts IH]; intros w Hc; simpl.
  - exists 0%nat. simpl. rewrite app_nil_r. done.
  - unfold bind.
    assert (Hex : execute cursor x w
                  = match run_sql (srv w) x (session w) with
                    | inl msg =>
                        (inl (Raise Psycopg2Error msg), log_event (EvExecute x) w)
                    | inr (t, r) =>
                        (inr tt, set_session t r (log_event (EvExecute x) w))
                    end).
    { unfold execute. by rewrite decide_True. }
    rewrite Hex. clear Hex.
    destruct (run_sql (srv w) x (session w)) as [msg|[t r0]] eqn:Hrun.
    + exists 1%nat. simpl. repeat split; [lia|done|].
      intros Hok. destruct (Hok x (session w)) as (? & ? & Hx). congruence.
    + destruct (IH (set_session t r0 (log_event (EvExecute x) w)) Hc)
        as (k & Hk & Htr & Hdone & Hok).
      exists (S k).
      destruct (for_each stmts (execute cursor)
                  (set_session t r0 (log_event (EvExecute x) w)))
        as [[e|[]] w2]; simpl in *.
      * split; [lia|]. split; [by rewrite Htr, <- app_assoc|].
        split; [done|auto].
      * split; [lia|]. split; [by rewrite Htr, <- app_assoc|].
        split; [|auto]. intros _. f_equal. by apply Hdone.
Qed.


(** ** Existing objects under the functions of load_pbc_data.py *)

Section Objects.

Lemma objects_kept_ret {A} (a : A) : objects_kept (ret a).
Proof. by intros w. Qed.

Lemma objects_kept_lift_result {A} (r : result A) : objects_kept (lift_result r).
Proof. by intros w. Qed.

Lemma objects_kept_bind {A B} (m : M world A) (k : A → M world B) :
  objects_kept m → (∀ a, objects_kept (k a)) → objects_kept (bind m k).
Proof.
  intros Hm Hk w. unfold bind. specialize (Hm w).
  destruct (m w) as [[e|a] w1]; simpl in *; [done|].
  etrans; [exact Hm|apply Hk].
Qed.

Lemma objects_kept_print l : objects_kept (print l).
Proof. by intros w. Qed.

Lemma objects_kept_deref l : objects_kept (deref l).
Proof. intros w. unfold deref. by destruct (heap w !! l). Qed.

Lemma objects_kept_alloc df : objects_kept (alloc df).
Proof.
  intros w. unfold alloc. simpl. apply insert_subseteq.
  apply not_elem_of_dom, is_fresh.
Qed.

End Objects.

Ltac objects_steps :=
  repeat first
    [ apply objects_kept_bind; [|intros ?]
    | apply objects_kept_ret
    | apply objects_kept_lift_result
    | apply objects_kept_print
    | apply objects_kept_deref
    | apply objects_kept_alloc ].

Lemma objects_kept_get_survival_data df : objects_kept (get_survival_data df).
Proof.
  unfold get_survival_data, getitem_ref, copy. objects_steps.
Qed.

Lemma objects_kept_print_dataset_summary df :
  objects_kept (print_dataset_summary df).
Proof. unfold print_dataset_summary, getitem_ref. objects_steps. Qed.

(** C9.  [get_survival_data], [get_feature_descriptions] and
    [print_dataset_summary] leave the DataFrame they are given, and every
    other existing DataFrame object, unchanged: the first only creates
    new objects, the second touches nothing, the third only prints. *)
Theorem survival_functions_do_not_mutate (df : nat) (f : DataFrame) (w : world) :
  heap w !! df = Some f →
  heap (get_survival_data df w).2 !! df = Some f
  ∧ heap w ⊆ heap (get_survival_data df w).2
  ∧ stdout (get_survival_data df w).2 = stdout w
  ∧ (get_feature_descriptions w).2 = w
  ∧ heap (print_dataset_summary df w).2 = heap w.
Proof.
  intros Hdf.
  pose proof (objects_kept_get_survival_data df w) as Hsub.
  split; [by eapply lookup_weaken|]. split; [done|].
  split; [|split; [done|]].
  - unfold get_survival_data, getitem_ref, copy, bind, deref, alloc,
      lift_result, ret.
    repeat (case_match; simpl in *; simplify_eq; try done).
  - unfold print_dataset_summary, getitem_ref, bind, deref, print, modify,
      lift_result.
    repeat (case_match; simpl in *; simplify_eq; try done).
Qed.

(** ** [get_survival_data]: shape and imputation *)

Lemma assoc_Some_names {A} (k : string) (l : list (string * A)) :
  k ∈ l.*1 → is_Some (assoc k l).
Proof.
  induction l as [|[k' v] l IH]; simpl.
  - by intros ?%elem_of_nil.
  - intros [->|Hin]%elem_of_cons; case_decide; try done; try (by eexists).
    by apply IH.
Qed.

Lemma assoc_fmap_snd {A B} (h : string → A → B) (l : list (string * A)) (k : string) :
  assoc k ((λ x : string * A, (x.1, h x.1 x.2)) <$> l) = h k <$> assoc k l.
Proof.
  induction l as [|[k' v] l IH]; simpl; [done|].
  case_decide; [by subst|done].
Qed.

Lemma assoc_None_names {A} (k : string) (l : list (string * A)) :
  k ∉ l.*1 → assoc k l = None.
Proof.
  induction l as [|[k' v] l IH]; simpl; [done|].
  intros [Hne Hin]%not_elem_of_cons. by rewrite decide_False, IH.
Qed.

Lemma assoc_elem_of {A} (k : string) (v : A) (l : list (string * A)) :
  assoc k l = Some v → (k, v) ∈ l.
Proof.
  induction l as [|[k' v'] l IH]; simpl; [done|].
  case_decide; [intros [= ->]; subst; by left|]. intros H'. right. by apply IH.
Qed.

Lemma select_columns_ok (cols : list string) (l : list (string * column)) :
  (∀ c, c ∈ cols → c ∈ l.*1) →
  ∃ r, select_columns cols l = inr r
       ∧ r.*1 = cols
       ∧ ∀ c, c ∈ cols → assoc c r = assoc c l.
Proof.
  induction cols as [|c cols IH]; intros Hall; simpl.
  - exists []. repeat split. by intros c ?%elem_of_nil.
  - destruct (assoc_Some_names c l) as [v Hv]; [apply Hall; by left|].
    destruct IH as (r & -> & Hn & Hr); [intros; apply Hall; by right|].
    rewrite Hv. exists ((c, v) :: r). simpl. split; [done|]. split; [by f_equal|].
    intros c' Hc'. case_decide; [by subst|].
    apply Hr. by apply elem_of_cons in Hc' as [->|].
Qed.

Lemma select_columns_missing (cols : list string) (l : list (string * column)) :
  (∃ c, c ∈ cols ∧ c ∉ l.*1) →
  ∃ c, c ∈ cols ∧ (c ∉ l.*1) ∧ select_columns cols l = inl (Raise KeyError c).
Proof.
  induction cols as [|c cols IH]; intros (c0 & Hin & Hnot); simpl.
  - by apply elem_of_nil in Hin.
  - destruct (assoc c l) as [v|] eqn:Hv.
    + destruct IH as (c1 & Hin1 & Hnot1 & ->).
      { apply elem_of_cons in Hin as [->|Hin]; [|by eauto].
        by rewrite assoc_None_names in Hv. }
      exists c1. repeat split; [by right|done].
    + exists c. repeat split; [by left|].
      intros Hc. apply assoc_Some_names in Hc as [? Hc]. congruence.
Qed.


(** The frame that [X.fillna(X.median())] builds from [X]. *)
Lemma fillna_median_columns (fx : DataFrame) :
  ∃ filled, fillna (FillSeries (frame_median fx)) fx = inr filled
    ∧ nrows filled = nrows fx
    ∧ names filled = names fx
    ∧ (∀ c col, assoc c (columns fx) = Some col →
         assoc c (columns filled)
         = Some (match median col with
                 | Some v => fill_cell v <$> col
                 | None => col
                 end)).
Proof.
  eexists. split; [reflexivity|]. simpl. split; [done|].
  set (h := λ (k : string) (col : column),
              match assoc k (frame_median fx) with
              | Some (Some v) => fill_cell v <$> col
              | _ => col
              end).
  assert (Hmap : ∀ l : list (string * column),
    (λ c : string * column,
       match assoc c.1 (frame_median fx) with
       | Some (Some v) => (c.1, fill_cell v <$> c.2)
       | _ => c
       end) <$> l
    = (λ x : string * column, (x.1, h x.1 x.2)) <$> l).
  { intros l. apply list_fmap_ext. intros i [c col] _. unfold h. simpl.
    by repeat case_match. }
  unfold names. simpl. rewrite Hmap. split.
  - rewrite <- list_fmap_compose. by apply list_fmap_ext.
  - intros c col Hc. rewrite assoc_fmap_snd, Hc. simpl. f_equal.
    unfold h, frame_median.
    rewrite (assoc_fmap_snd (λ _ col, median col)), Hc. simpl.
    by destruct (median col).
Qed.

Lemma median_sorted_Some (s : list Qc) :
  s ≠ [] →
  ∃ m, median_sorted s = Some m
       ∧ let n := length s in
         if Nat.odd n then s !! (n / 2)%nat = Some m
         else ∃ a b, s !! (n / 2 - 1)%nat = Some a ∧ s !! (n / 2)%nat = Some b
                     ∧ m = ((a + b) / Q2Qc 2)%Qc.
Proof.
  intros Hne. unfold median_sorted.
  assert (Hlen : (0 < length s)%nat) by (destruct s; simpl; [done|lia]).
  rewrite decide_False by lia. cbv zeta.
  assert (Hhalf : (length s / 2 < length s)%nat)
    by (apply Nat.div_lt; lia).
  destruct (lookup_lt_is_Some_2 s (length s / 2)%nat Hhalf) as [b Hb].
  destruct (Nat.odd (length s)) eqn:Hodd.
  - exists b. by rewrite Hb.
  - assert (Hprev : (length s / 2 - 1 < length s)%nat) by lia.
    destruct (lookup_lt_is_Some_2 s _ Hprev) as [a Ha].
    rewrite Ha, Hb. eexists. split; [done|]. by exists a, b.
Qed.

(** The value [Series.median()] returns is the median in the words of
    the spec. *)
Lemma median_is_median (c : column) :
  present c ≠ [] → ∃ m, median c = Some m ∧ is_median (present c) m.
Proof.
  intros Hne. unfold median.
  pose proof (merge_sort_Permutation Qcle (present c)) as Hperm.
  destruct (median_sorted_Some (merge_sort Qcle (present c))) as (m & Hm & Hshape).
  { intros Hnil. rewrite Hnil in Hperm. by apply Permutation_nil_l in Hperm. }
  exists m. split; [done|].
  exists (merge_sort Qcle (present c)). split; [done|]. split; [|done].
  apply (Sorted_merge_sort Qcle _).
Qed.

Lemma median_None (c : column) : present c = [] → median c = None.
Proof. intros H. unfold median. by rewrite H. Qed.

Lemma get_survival_data_run (df : nat) (w : world) (f sel : DataFrame)
    (T E : column) :
  heap w !! df = Some f →
  getitem "futime" f = inr T →
  getitem "death_event" f = inr E →
  getitem_list feature_cols f = inr sel →
  ∃ X w' filled,
    get_survival_data df w = (inr (T, E, X), w')
    ∧ heap w' !! X = Some filled
    ∧ fillna (FillSeries (frame_median sel)) sel = inr filled.
Proof.
  intros Hdf HT HE Hsel.
  unfold get_survival_data, getitem_ref, copy, bind, deref, lift_result, alloc.
  repeat (first [rewrite Hdf | rewrite HT | rewrite HE | rewrite Hsel
                | rewrite lookup_insert_eq]; simpl).
  eexists _, _, _. split; [reflexivity|]. simpl.
  by rewrite lookup_insert_eq.
Qed.


Lemma getitem_ok (c : string) (f : DataFrame) :
  wf_frame f → c ∈ names f →
  ∃ col, getitem c f = inr col ∧ length col = nrows f.
Proof.
  intros [_ Hlen] Hc. unfold getitem.
  destruct (assoc_Some_names c (columns f) Hc) as [col Hcol].
  rewrite Hcol. exists col. split; [done|].
  rewrite Forall_forall in Hlen.
  by apply (Hlen (c, col)), assoc_elem_of.
Qed.





(** C4.  In the frame that [get_survival_data] returns, every feature
    column keeps its present entries, and each missing entry holds the
    median of the present values of that column of the table: the middle
    value of the ordered present values for an odd count, the average of
    the two middle values for an even count.  A column with no present
    value has no median and stays missing.  With [bili] equal to
    1, 2, missing, 4 the missing entry becomes 2. *)
Theorem get_survival_data_imputes_median
    (df : nat) (w w' : world) (f : DataFrame) (T E : column) (X : nat) :
  heap w !! df = Some f →
  get_survival_data df w = (inr (T, E, X), w') →
  (∃ fx, heap w' !! X = Some fx
     ∧ ∀ c col, c ∈ feature_cols → assoc c (columns f) = Some col →
         ∃ col', assoc c (columns fx) = Some col'
           ∧ length col' = length col
           ∧ (∀ i v, col !! i = Some (Some v) → col' !! i = Some (Some v))
           ∧ (∀ i, col !! i = Some None → col' !! i = Some (median col))
           ∧ (present col ≠ [] →
              ∃ m, median col = Some m ∧ is_median (present col) m)
           ∧ (present col = [] → median col = None))
  ∧ median [num 1; num 2; NaN; num 4] = num 2.
Proof.
  intros Hdf Hrun. split; [|by apply (f_equal Some), Qc_is_canon].
  assert (∃ sel, getitem "futime" f = inr T ∧ getitem "death_event" f = inr E
                 ∧ getitem_list feature_cols f = inr sel) as (sel & HT & HE & Hsel).
  { revert Hrun.
    unfold get_survival_data, getitem_ref, copy, bind, deref, lift_result.
    repeat (rewrite Hdf; simpl).
    destruct (getitem "futime" f) as [?|T']; [done|].
    repeat (rewrite Hdf; simpl).
    destruct (getitem "death_event" f) as [?|E']; [done|].
    repeat (rewrite Hdf; simpl).
    destruct (getitem_list feature_cols f) as [?|sel]; [done|]. simpl.
    repeat (rewrite lookup_insert_eq; simpl).
    intros [= <- <- _ _]. by exists sel. }
  destruct (get_survival_data_run df w f sel T E Hdf HT HE Hsel)
    as (X' & w'' & fx & Hrun' & HX & Hfill).
  rewrite Hrun in Hrun'. injection Hrun' as <- <-.
  exists fx. split; [done|].
  intros c col Hc Hcol.
  destruct (fillna_median_columns sel) as (fx' & Hfill' & _ & _ & Hcols).
  rewrite Hfill in Hfill'. injection Hfill' as <-.
  assert (Hselc : assoc c (columns sel) = Some col).
  { unfold getitem_list in Hsel.
    destruct (select_columns feature_cols (columns f)) as [?|r] eqn:Hr; [done|].
    injection Hsel as <-. simpl.
    assert (Hall : ∀ c', c' ∈ feature_cols → c' ∈ (columns f).*1).
    { intros c' Hc'. destruct (decide (c' ∈ (columns f).*1)) as [|Hn]; [done|].
      destruct (select_columns_missing feature_cols (columns f)) as (? & _ & _ & Hbad).
      { by exists c'. }
      congruence. }
    destruct (select_columns_ok feature_cols (columns f) Hall) as (r' & Hr' & _ & Hassoc).
    rewrite Hr in Hr'. injection Hr' as <-. by rewrite Hassoc. }
  rewrite (Hcols c col Hselc). eexists. split; [reflexivity|].
  destruct (median col) as [m|] eqn:Hmed.
  - rewrite length_fmap. split; [done|]. split; [|split; [|split]].
    + intros i v Hi. by rewrite list_lookup_fmap, Hi.
    + intros i Hi. by rewrite list_lookup_fmap, Hi.
    + intros Hne. destruct (median_is_median col Hne) as (m' & Hm' & Hspec).
      rewrite Hmed in Hm'. injection Hm' as <-. by exists m.
    + intros Hnil. by rewrite median_None in Hmed.
  - split; [done|]. split; [done|]. split; [done|]. split; [|done].
    intros Hne. destruct (median_is_median col Hne) as (m' & Hm' & _).
    congruence.
Qed.

(** ** The statements at sample inputs *)

Lemma wf_table_empty : wf_table ∅.
Proof. intros k r H. by rewrite lookup_empty in H. Qed.

Lemma upsert_twice_last_write_wins_witness :
  upsert (upsert ∅ patient_first) patient_second !! id patient_second
  = Some patient_second
  ∧ filter (λ r, id r = id patient_second)
      (table_rows (upsert (upsert ∅ patient_first) patient_second))
    = [patient_second]
  ∧ futime <$> upsert (upsert ∅ patient_first) patient_second !! id patient_first
    = Some (futime patient_second)
  ∧ wf_table (upsert (upsert ∅ patient_first) patient_second).
Proof.
  apply (upsert_twice_last_write_wins ∅ (upsert ∅ patient_first) _
           [patient_first] [patient_second] patient_first patient_second).
  - exact wf_table_empty.
  - by left.
  - by left.
  - reflexivity.
  - reflexivity.
  - reflexivity.
Defined.

Example nested_statement_is_cut :
  statements nested_schema
  = ["CREATE FUNCTION f() RETURNS int AS 'SELECT 1";
     "SELECT 2' LANGUAGE sql"]%string.
Proof. reflexivity. Qed.


Lemma survival_functions_do_not_mutate_witness :
  heap (get_survival_data 0 world_bili_gap).2 !! 0%nat = Some frame_bili_gap
  ∧ heap world_bili_gap ⊆ heap (get_survival_data 0 world_bili_gap).2
  ∧ stdout (get_survival_data 0 world_bili_gap).2 = stdout world_bili_gap
  ∧ (get_feature_descriptions world_bili_gap).2 = world_bili_gap
  ∧ heap (print_dataset_summary 0 world_bili_gap).2 = heap world_bili_gap.
Proof.
  apply (survival_functions_do_not_mutate 0 frame_bili_gap world_bili_gap).
  reflexivity.
Defined.

Lemma cleanup_skips_unbound_handles_witness :
  main (sample_world ∅)
  = (inr tt,
     set_stdout (λ out, out ++ report (Raise FileNotFoundError pbc_file))
       (set_stdout
          (λ out, out ++ [[Lit "Reading PBC data from "; Lit pbc_file; Lit "..."]])
          (sample_world ∅)))
  ∧ db_trace (main (sample_world ∅)).2
    = db_trace
        (set_stdout
           (λ out, out ++ [[Lit "Reading PBC data from "; Lit pbc_file; Lit "..."]])
           (sample_world ∅))
  ∧ (fs (sample_world ∅) !! pbc_file = None →
     Raise FileNotFoundError pbc_file = Raise FileNotFoundError pbc_file
     ∧ db_trace (main (sample_world ∅)).2 = db_trace (sample_world ∅)
     ∧ stdout (main (sample_world ∅)).2
       = stdout (sample_world ∅)
         ++ [Lit "Reading PBC data from "; Lit pbc_file; Lit "..."]
            :: report (Raise FileNotFoundError pbc_file)).
Proof.
  apply (cleanup_skips_unbound_handles (sample_world ∅)
           (Raise FileNotFoundError pbc_file)).
  unfold fails_before_connect. simpl. split; reflexivity.
Defined.



Lemma get_survival_data_imputes_median_witness :
  (∃ fx, heap (get_survival_data 0 world_bili_gap).2 !! 3%nat = Some fx
     ∧ ∀ c col, c ∈ feature_cols → assoc c (columns frame_bili_gap) = Some col →
         ∃ col', assoc c (columns fx) = Some col'
           ∧ length col' = length col
           ∧ (∀ i v, col !! i = Some (Some v) → col' !! i = Some (Some v))
           ∧ (∀ i, col !! i = Some None → col' !! i = Some (median col))
           ∧ (present col ≠ [] →
              ∃ m, median col = Some m ∧ is_median (present col) m)
           ∧ (present col = [] → median col = None))
  ∧ median [num 1; num 2; NaN; num 4] = num 2.
Proof.
  apply (get_survival_data_imputes_median 0 world_bili_gap
           (get_survival_data 0 world_bili_gap).2 frame_bili_gap
           [num 0; num 0; num 1; num 1] [num 0; num 0; num 1; num 1] 3).
  - reflexivity.
  - vm_compute. reflexivity.
Defined.

(** The imputed table for [frame_bili_gap]: the gap in [bili] holds 2. *)
Example bili_gap_imputed :
  ∃ fx, heap (get_survival_data 0 world_bili_gap).2 !! 3%nat = Some fx
        ∧ assoc "bili" (columns fx) = Some [num 1; num 2; num 2; num 4].
Proof.
  eexists. split; [vm_compute; reflexivity|].
  vm_compute. do 5 f_equal; apply Qc_is_canon; reflexivity.
Qed.

(** ** The converter *)

#[local] Arguments getitem : simpl never.
#[local] Arguments setitem : simpl never.
#[local] Arguments to_csv_text : simpl never.
#[local] Arguments read_table_text : simpl never.
#[local] Arguments read_csv_text : simpl never.
#[local] Arguments isnull_sum : simpl never.

(** A run of the converter on a readable input: [df] and [df_ml] are two
    objects, the first as read, the second with the derived columns; both
    files are written. *)
Lemma convert_run (w : world) (text : string) (f f_ml : DataFrame) :
  fs w !! "pbc.dat.txt"%string = Some text →
  read_table_text pbc_columns ["."%string] text = inr f →
  derive_ml f = inr f_ml →
  ∃ w',
    convert_pbc_to_csv w = (inr (fresh (dom (heap w))), w')
    ∧ heap w'
      = <[fresh (dom (<[fresh (dom (heap w)) := f]> (heap w))) := f_ml]>
          (<[fresh (dom (heap w)) := f]> (heap w))
    ∧ fs w'
      = <["pbc_ml_ready.csv"%string := to_csv_text f_ml]>
          (<["pbc_data.csv"%string := to_csv_text f]> (fs w)).
Proof.
  intros Hfs Hread Hml. unfold derive_ml in Hml.
  destruct (getitem "age" f) as [|age] eqn:H1; [done|].
  destruct (setitem "age_years" _ f) as [|f1] eqn:H2; [done|].
  destruct (getitem "status" f1) as [|st] eqn:H3; [done|].
  destruct (setitem "death_event" _ f1) as [|f2] eqn:H4; [done|].
  destruct (getitem "sex" f2) as [|sx] eqn:H5; [done|].
  destruct (setitem "male" _ f2) as [|f3] eqn:H6; [done|].
  destruct (getitem "sex" f3) as [|sx'] eqn:H7; [done|].
  destruct (setitem "female" _ f3) as [|f4] eqn:H8; [done|].
  destruct (getitem "drug" f4) as [|dr] eqn:H9; [done|].
  unfold convert_pbc_to_csv, read_table, read_file, to_csv, write_file, copy,
    getitem_ref, setitem_ref, store, deref, alloc, print, modify, lift_result,
    bind, ret.
  simpl.
  repeat (first [ rewrite Hfs | rewrite Hread | rewrite lookup_insert_eq
                | rewrite insert_insert_eq
                | rewrite H1 | rewrite H2 | rewrite H3 | rewrite H4
                | rewrite H5 | rewrite H6 | rewrite H7 | rewrite H8
                | rewrite H9 | rewrite Hml ]; simpl).
  eexists. split; [reflexivity|]. simpl.
  split; [by rewrite !insert_insert_eq|reflexivity].
Qed.

Lemma assoc_assoc_set_eq {A} (k : string) (v : A) (l : list (string * A)) :
  assoc k (assoc_set k v l) = Some v.
Proof.
  induction l as [|[k' v'] l IH]; simpl.
  - by rewrite decide_True.
  - case_decide; simpl; [by rewrite decide_True|by rewrite decide_False].
Qed.

Lemma assoc_assoc_set_ne {A} (k k' : string) (v : A) (l : list (string * A)) :
  k ≠ k' → assoc k' (assoc_set k v l) = assoc k' l.
Proof.
  intros Hne. induction l as [|[k0 v0] l IH]; simpl.
  - by rewrite decide_False.
  - case_decide; simpl; [subst; by rewrite !decide_False|].
    case_decide; [done|apply IH].
Qed.

Lemma names_assoc_set_new {A} (k : string) (v : A) (l : list (string * A)) :
  k ∉ l.*1 → (assoc_set k v l).*1 = l.*1 ++ [k].
Proof.
  induction l as [|[k' v'] l IH]; simpl; [done|].
  intros [Hne Hin]%not_elem_of_cons.
  rewrite decide_False by done. simpl. f_equal. by apply IH.
Qed.

Lemma names_assoc_set_snoc {A} (k : string) (v : A) (l : list (string * A))
    (ns : list string) :
  l.*1 = ns → k ∉ ns → (assoc_set k v l).*1 = ns ++ [k].
Proof. intros <- Hk. by apply names_assoc_set_new. Qed.

Lemma frame_of_records_names (labels : list string) (rs : list (list cell)) :
  names (frame_of_records labels rs) = labels.
Proof.
  unfold names, frame_of_records. simpl.
  rewrite <- list_fmap_compose.
  assert (H : ∀ (g : nat → nat) l,
    (fst ∘ (λ p : nat * string, (p.2, column_of rs p.1)))
      <$> imap (λ i x, (g i, x)) l = l).
  { intros g l. revert g. induction l as [|x l IH]; intros g; simpl; [done|].
    f_equal. apply (IH (g ∘ S)). }
  apply (H (λ i, i)).
Qed.

Lemma frame_of_records_lengths (labels : list string) (rs : list (list cell)) :
  Forall (λ c, length c.2 = nrows (frame_of_records labels rs))
    (columns (frame_of_records labels rs)).
Proof.
  unfold frame_of_records. simpl. apply Forall_fmap, Forall_forall.
  intros [j x] _. simpl. unfold column_of. by rewrite length_fmap.
Qed.

Lemma read_table_text_wf (labels na : list string) (text : string) (f : DataFrame) :
  NoDup labels →
  read_table_text labels na text = inr f →
  wf_frame f ∧ names f = labels.
Proof.
  intros Hnd. unfold read_table_text. case_decide; [done|].
  destruct (parse_records _ _ _) as [|rs]; [done|]. intros [= <-].
  split; [split|].
  - by rewrite frame_of_records_names.
  - apply frame_of_records_lengths.
  - apply frame_of_records_names.
Qed.

Lemma getitem_assoc (k : string) (f : DataFrame) (c : column) :
  assoc k (columns f) = Some c → getitem k f = inr c.
Proof. intros H. unfold getitem. by rewrite H. Qed.

Lemma setitem_ok (k : string) (c : column) (f : DataFrame) :
  length c = nrows f →
  setitem k c f = inr (mkFrame (nrows f) (assoc_set k c (columns f))).
Proof. intros H. unfold setitem. by rewrite decide_True. Qed.

Lemma wf_column_length (k : string) (f : DataFrame) (c : column) :
  wf_frame f → assoc k (columns f) = Some c → length c = nrows f.
Proof.
  intros [_ Hlen] Hc. rewrite Forall_forall in Hlen.
  by apply (Hlen (k, c)), assoc_elem_of.
Qed.

Lemma NoDup_pbc_columns : NoDup pbc_columns.
Proof. by apply (bool_decide_unpack _). Qed.

(** The frame with the derived columns, column by column. *)
Lemma derive_ml_spec (f : DataFrame) :
  wf_frame f → names f = pbc_columns →
  ∃ age st sx dr,
    assoc "age" (columns f) = Some age
    ∧ assoc "status" (columns f) = Some st
    ∧ assoc "sex" (columns f) = Some sx
    ∧ assoc "drug" (columns f) = Some dr
    ∧ derive_ml f
      = inr (mkFrame (nrows f)
               (assoc_set "drug_treatment" (eq_scalar_int (Q2Qc 1) dr)
               (assoc_set "female" (eq_scalar_int (Q2Qc 1) sx)
               (assoc_set "male" (eq_scalar_int (Q2Qc 0) sx)
               (assoc_set "death_event" (eq_scalar_int (Q2Qc 2) st)
               (assoc_set "age_years" (div_scalar days_per_year age)
                  (columns f))))))).
Proof.
  intros Hwf Hnames.
  assert (Hin : ∀ c, c ∈ pbc_columns → is_Some (assoc c (columns f))).
  { intros c Hc. apply assoc_Some_names. by rewrite <- Hnames in Hc. }
  destruct (Hin "age"%string) as [age Hage]; [by apply (bool_decide_unpack _)|].
  destruct (Hin "status"%string) as [st Hst]; [by apply (bool_decide_unpack _)|].
  destruct (Hin "sex"%string) as [sx Hsx]; [by apply (bool_decide_unpack _)|].
  destruct (Hin "drug"%string) as [dr Hdr]; [by apply (bool_decide_unpack _)|].
  exists age, st, sx, dr. repeat split; try done.
  pose proof (wf_column_length _ _ _ Hwf Hage) as Lage.
  pose proof (wf_column_length _ _ _ Hwf Hst) as Lst.
  pose proof (wf_column_length _ _ _ Hwf Hsx) as Lsx.
  pose proof (wf_column_length _ _ _ Hwf Hdr) as Ldr.
  unfold derive_ml.
  rewrite (getitem_assoc _ _ _ Hage).
  rewrite setitem_ok by (unfold div_scalar; by rewrite length_fmap).
  erewrite getitem_assoc
    by (simpl; rewrite assoc_assoc_set_ne by done; exact Hst).
  rewrite setitem_ok by (unfold eq_scalar_int; by rewrite length_fmap).
  erewrite getitem_assoc
    by (simpl; rewrite !assoc_assoc_set_ne by done; exact Hsx).
  rewrite setitem_ok by (unfold eq_scalar_int; by rewrite length_fmap).
  erewrite getitem_assoc
    by (simpl; rewrite !assoc_assoc_set_ne by done; exact Hsx).
  rewrite setitem_ok by (unfold eq_scalar_int; by rewrite length_fmap).
  erewrite getitem_assoc
    by (simpl; rewrite !assoc_assoc_set_ne by done; exact Hdr).
  rewrite setitem_ok by (unfold eq_scalar_int; by rewrite length_fmap).
  reflexivity.
Qed.

Lemma eq_scalar_int_lookup (k : Z) (c : column) (i : nat) (x : cell) :
  c !! i = Some x →
  eq_scalar_int (Q2Qc (inject_Z k)) c !! i
  = Some (indicator (bool_decide (x = num k))).
Proof.
  intros Hx. unfold eq_scalar_int. rewrite list_lookup_fmap, Hx. simpl.
  f_equal. destruct x as [q|]; [|done].
  unfold num. case_decide as Hq.
  - subst. by rewrite bool_decide_eq_true_2.
  - rewrite bool_decide_eq_false_2; [done|]. intros [= ->]. by apply Hq.
Qed.

Lemma cell_at_assoc (k : string) (f : DataFrame) (c : column) (i : nat) :
  assoc k (columns f) = Some c → cell_at k f i = c !! i.
Proof. intros H. unfold cell_at. by rewrite H. Qed.

(** C2.  For every input table that reads, the converter returns [df]
    unchanged and builds [df_ml] with the five derived columns appended;
    in every row, [age_years] is [age / 365.25] (missing when [age] is
    missing), [death_event] is 1 exactly when [status] is 2, [male] is 1
    exactly when [sex] is 0, [female] is 1 exactly when [sex] is 1 and
    [drug_treatment] is 1 exactly when [drug] is 1, and 0 otherwise.
    The sample record gives death_event=1, male=0, female=1 and an
    age_years that rounds to 58.77. *)
Theorem convert_derived_columns (w : world) (text : string) (f : DataFrame) :
  fs w !! "pbc.dat.txt"%string = Some text →
  read_table_text pbc_columns ["."%string] text = inr f →
  (∃ df df_ml f_ml w',
     convert_pbc_to_csv w = (inr df, w')
     ∧ heap w' !! df = Some f
     ∧ heap w' !! df_ml = Some f_ml
     ∧ fs w' !! "pbc_ml_ready.csv"%string = Some (to_csv_text f_ml)
     ∧ names f_ml = pbc_columns ++ derived_columns
     ∧ nrows f_ml = nrows f
     ∧ ∀ i, (i < nrows f)%nat →
         ∃ a st sx dr,
           cell_at "age" f i = Some a
           ∧ cell_at "status" f i = Some st
           ∧ cell_at "sex" f i = Some sx
           ∧ cell_at "drug" f i = Some dr
           ∧ cell_at "age_years" f_ml i
             = Some ((λ q, (q / Q2Qc 365.25%Q)%Qc) <$> a)
           ∧ cell_at "death_event" f_ml i
             = Some (indicator (bool_decide (st = num 2)))
           ∧ cell_at "male" f_ml i = Some (indicator (bool_decide (sx = num 0)))
           ∧ cell_at "female" f_ml i = Some (indicator (bool_decide (sx = num 1)))
           ∧ cell_at "drug_treatment" f_ml i
             = Some (indicator (bool_decide (dr = num 1))))
  ∧ (∃ f_ml y,
       heap (convert_pbc_to_csv
               (sample_world {[ "pbc.dat.txt"%string := sample_row_1 ]})).2
         !! 1%nat = Some f_ml
       ∧ cell_at "death_event" f_ml 0 = Some (num 1)
       ∧ cell_at "male" f_ml 0 = Some (num 0)
       ∧ cell_at "female" f_ml 0 = Some (num 1)
       ∧ cell_at "age_years" f_ml 0 = Some (Some y)
       ∧ (Q2Qc 58.765%Q <= y)%Qc ∧ (y < Q2Qc 58.775%Q)%Qc).
Proof.
  intros Hfs Hread. split.
  - destruct (read_table_text_wf _ _ _ _ NoDup_pbc_columns Hread) as [Hwf Hnames].
    destruct (derive_ml_spec f Hwf Hnames)
      as (age & st & sx & dr & Hage & Hst & Hsx & Hdr & Hml).
    destruct (convert_run w text f _ Hfs Hread Hml) as (w' & Hrun & Hheap & Hfiles).
    eexists _, _, _, w'. split; [exact Hrun|].
    split.
    { rewrite Hheap. rewrite lookup_insert_ne; [by rewrite lookup_insert_eq|].
      intros Heq. pose proof (is_fresh (dom (<[fresh (dom (heap w)):=f]> (heap w)))) as Hfr.
      rewrite Heq in Hfr. apply Hfr. rewrite dom_insert. set_solver. }
    split; [by rewrite Hheap, lookup_insert_eq|].
    split; [by rewrite Hfiles, lookup_insert_eq|].
    split.
    { unfold names in *. cbn [columns].
      change (pbc_columns ++ derived_columns)
        with (((((pbc_columns ++ ["age_years"%string]) ++ ["death_event"%string])
                  ++ ["male"%string]) ++ ["female"%string])
                ++ ["drug_treatment"%string]).
      repeat (apply names_assoc_set_snoc; [|by apply (bool_decide_unpack _)]).
      exact Hnames. }
    split; [done|].
    intros i Hi.
    pose proof (wf_column_length _ _ _ Hwf Hage) as Lage.
    pose proof (wf_column_length _ _ _ Hwf Hst) as Lst.
    pose proof (wf_column_length _ _ _ Hwf Hsx) as Lsx.
    pose proof (wf_column_length _ _ _ Hwf Hdr) as Ldr.
    destruct (lookup_lt_is_Some_2 age i) as [a Ha]; [lia|].
    destruct (lookup_lt_is_Some_2 st i) as [s Hs]; [lia|].
    destruct (lookup_lt_is_Some_2 sx i) as [x Hx]; [lia|].
    destruct (lookup_lt_is_Some_2 dr i) as [d Hd]; [lia|].
    exists a, s, x, d.
    rewrite (cell_at_assoc _ _ _ _ Hage), (cell_at_assoc _ _ _ _ Hst),
      (cell_at_assoc _ _ _ _ Hsx), (cell_at_assoc _ _ _ _ Hdr).
    repeat split; try done.
    + erewrite cell_at_assoc
        by (simpl; rewrite !assoc_assoc_set_ne by done; apply assoc_assoc_set_eq).
      unfold div_scalar. by rewrite list_lookup_fmap, Ha.
    + erewrite cell_at_assoc
        by (simpl; rewrite !assoc_assoc_set_ne by done; apply assoc_assoc_set_eq).
      by apply (eq_scalar_int_lookup 2).
    + erewrite cell_at_assoc
        by (simpl; rewrite !assoc_assoc_set_ne by done; apply assoc_assoc_set_eq).
      by apply (eq_scalar_int_lookup 0).
    + erewrite cell_at_assoc
        by (simpl; rewrite !assoc_assoc_set_ne by done; apply assoc_assoc_set_eq).
      by apply (eq_scalar_int_lookup 1).
    + erewrite cell_at_assoc by (simpl; apply assoc_assoc_set_eq).
      by apply (eq_scalar_int_lookup 1).
  - eexists _, _. split; [vm_compute; reflexivity|].
    split; [by vm_compute|]. split; [by vm_compute|]. split; [by vm_compute|].
    split; [vm_compute; reflexivity|]. split; by vm_compute.
Qed.

(** ** Numerals: writing and reading back *)

Lemma append_cons (x : ascii) (a b : string) :
  String x a +:+ b = String x (a +:+ b).
Proof. reflexivity. Qed.

Lemma append_nil_l (b : string) : EmptyString +:+ b = b.
Proof. reflexivity. Qed.

Lemma append_assoc (a b c : string) : (a +:+ b) +:+ c = a +:+ (b +:+ c).
Proof.
  induction a as [|x a IH]; [done|]. rewrite !append_cons. by f_equal.
Qed.

Lemma append_nil_r (a : string) : a +:+ EmptyString = a.
Proof. induction a as [|x a IH]; [done|]. rewrite append_cons. by f_equal. Qed.

Lemma append_length (a b : string) :
  String.length (a +:+ b) = (String.length a + String.length b)%nat.
Proof.
  induction a as [|x a IH]; [done|]. rewrite append_cons. simpl. by f_equal.
Qed.

Lemma digit_cases (d : Z) :
  0 <= d < 10 →
  d = 0 ∨ d = 1 ∨ d = 2 ∨ d = 3 ∨ d = 4 ∨ d = 5 ∨ d = 6 ∨ d = 7 ∨ d = 8 ∨ d = 9.
Proof. lia. Qed.

Lemma char_digit_digit_char (d : Z) :
  0 <= d < 10 → char_digit (digit_char d) = Some d.
Proof.
  intros Hd. destruct (digit_cases d Hd) as [->|[->|[->|[->|[->|[->|[->|[->|[->| ->]]]]]]]]];
    reflexivity.
Qed.

Lemma digit_char_not (c : ascii) (d : Z) :
  not_digit c → 0 <= d < 10 → digit_char d ≠ c.
Proof.
  intros Hc Hd <-. unfold not_digit in Hc.
  by rewrite char_digit_digit_char in Hc.
Qed.

Lemma mod10_digit (n : Z) : 0 <= n mod 10 < 10.
Proof. apply Z.mod_pos_bound. lia. Qed.

Lemma fixed_digits_app (k : nat) (n : Z) (rest : string) :
  fixed_digits k n rest = fixed_digits k n EmptyString +:+ rest.
Proof.
  revert n rest. induction k as [|k IH]; intros n rest; simpl; [done|].
  rewrite IH. rewrite (IH _ (String _ EmptyString)).
  by rewrite append_assoc.
Qed.

Lemma fixed_digits_length (k : nat) (n : Z) :
  String.length (fixed_digits k n EmptyString) = k.
Proof.
  revert n. induction k as [|k IH]; intros n; simpl; [done|].
  rewrite fixed_digits_app, append_length, IH. simpl. lia.
Qed.

Lemma contains_app (c : ascii) (a b : string) :
  contains c (a +:+ b) = contains c a || contains c b.
Proof.
  induction a as [|x a IH]; [done|]. rewrite append_cons. simpl.
  by rewrite IH, orb_assoc.
Qed.

Lemma fixed_digits_contains (c : ascii) (k : nat) (n : Z) :
  not_digit c → contains c (fixed_digits k n EmptyString) = false.
Proof.
  intros Hc. revert n. induction k as [|k IH]; intros n; simpl; [done|].
  rewrite fixed_digits_app, contains_app, IH. simpl.
  rewrite bool_decide_eq_false_2; [done|].
  apply digit_char_not; [done|apply mod10_digit].
Qed.

Lemma parse_digits_app (a b : string) (acc : Z) :
  parse_digits (a +:+ b) acc
  = match parse_digits a acc with
    | Some v => parse_digits b v
    | None => None
    end.
Proof.
  revert acc. induction a as [|x a IH]; intros acc; [done|].
  rewrite append_cons. simpl.
  destruct (char_digit x); [apply IH|done].
Qed.

Lemma parse_fixed_digits (k : nat) (n acc : Z) :
  0 <= n →
  parse_digits (fixed_digits k n EmptyString) acc
  = Some (acc * 10 ^ Z.of_nat k + n mod 10 ^ Z.of_nat k).
Proof.
  revert n acc. induction k as [|k IH]; intros n acc Hn.
  - simpl. rewrite Z.mod_1_r. f_equal. lia.
  - simpl fixed_digits. rewrite fixed_digits_app, parse_digits_app.
    rewrite IH by (apply Z.div_pos; lia). simpl.
    rewrite char_digit_digit_char by apply mod10_digit. f_equal.
    rewrite Nat2Z.inj_succ, Z.pow_succ_r by lia.
    rewrite (Z.rem_mul_r n 10 (10 ^ Z.of_nat k)) by lia. lia.
Qed.

Lemma int_digits_aux_fixed (fuel : nat) (n : Z) (rest : string) :
  0 <= n < 2 ^ Z.of_nat fuel → (0 < fuel)%nat →
  ∃ k, (0 < k)%nat ∧ n < 10 ^ Z.of_nat k
       ∧ int_digits_aux fuel n rest = fixed_digits k n rest.
Proof.
  revert n rest. induction fuel as [|fuel IH]; intros n rest Hn Hf; [lia|].
  simpl. case_decide as Hq.
  - exists 1%nat. split; [lia|]. split; [|done].
    assert (n < 10); [|lia].
    destruct (Z_lt_le_dec n 10) as [|Hge]; [done|].
    assert (1 <= n / 10) by (apply Z.div_le_lower_bound; lia). lia.
  - assert (Hdiv : 0 <= n / 10 < 2 ^ Z.of_nat fuel).
    { split; [apply Z.div_pos; lia|].
      rewrite Nat2Z.inj_succ, Z.pow_succ_r in Hn by lia.
      apply Z.div_lt_upper_bound; lia. }
    assert (Hfuel : (0 < fuel)%nat).
    { destruct fuel; [|lia]. simpl in Hdiv. lia. }
    destruct (IH (n / 10) (String (digit_char (n mod 10)) rest) Hdiv Hfuel)
      as (k & Hk & Hlt & ->).
    exists (S k). split; [lia|]. split; [|done].
    rewrite Nat2Z.inj_succ, Z.pow_succ_r by lia.
    pose proof (Z.div_mod n 10). pose proof (mod10_digit n). lia.
Qed.

Lemma int_digits_fixed (n : Z) (rest : string) :
  0 <= n →
  ∃ k, (0 < k)%nat ∧ n < 10 ^ Z.of_nat k
       ∧ int_digits n rest = fixed_digits k n EmptyString +:+ rest.
Proof.
  intros Hn. unfold int_digits.
  destruct (int_digits_aux_fixed (S (Z.to_nat (Z.log2 n))) n rest)
    as (k & Hk & Hlt & ->); [|lia|].
  - split; [done|].
    rewrite Nat2Z.inj_succ, Z2Nat.id by apply Z.log2_nonneg.
    destruct (decide (n = 0)) as [->|]; [done|].
    apply Z.log2_spec. lia.
  - exists k. split; [done|]. split; [done|]. apply fixed_digits_app.
Qed.

Lemma split_on_clean (sep : ascii) (s : string) :
  contains sep s = false → split_on sep s = [s].
Proof.
  induction s as [|c s IH]; simpl; [done|].
  intros [Hc Hs]%orb_false_iff. apply bool_decide_eq_false in Hc.
  rewrite decide_False by done. by rewrite IH.
Qed.

Lemma all_chars_app (P : ascii → bool) (a b : string) :
  all_chars P (a +:+ b) = all_chars P a && all_chars P b.
Proof.
  induction a as [|x a IH]; [done|]. rewrite append_cons. simpl.
  by rewrite IH, andb_assoc.
Qed.

Lemma numeral_char_digit (d : Z) : 0 <= d < 10 → numeral_char (digit_char d) = true.
Proof.
  intros Hd. unfold numeral_char. by rewrite char_digit_digit_char.
Qed.

Lemma fixed_digits_all_chars (k : nat) (n : Z) :
  all_chars numeral_char (fixed_digits k n EmptyString) = true.
Proof.
  revert n. induction k as [|k IH]; intros n; simpl; [done|].
  rewrite fixed_digits_app, all_chars_app, IH. simpl.
  by rewrite numeral_char_digit by apply mod10_digit.
Qed.

Lemma fixed_digits_nonempty (k : nat) (n : Z) :
  (0 < k)%nat → fixed_digits k n EmptyString ≠ EmptyString.
Proof.
  intros Hk Heq. pose proof (fixed_digits_length k n) as Hl.
  rewrite Heq in Hl. simpl in Hl. lia.
Qed.

Lemma fixed_digits_head (k : nat) (n : Z) :
  (0 < k)%nat →
  ∃ d rest, 0 <= d < 10 ∧ fixed_digits k n EmptyString = String (digit_char d) rest.
Proof.
  revert n. induction k as [|k IH]; intros n Hk; [lia|].
  simpl. rewrite fixed_digits_app.
  destruct k as [|k].
  - exists (n mod 10), EmptyString. split; [apply mod10_digit|done].
  - destruct (IH (n / 10)) as (d & rest & Hd & ->); [lia|].
    exists d, (rest +:+ String (digit_char (n mod 10)) EmptyString). by split.
Qed.

Lemma parse_number_digit_head (d : Z) (rest : string) :
  0 <= d < 10 →
  parse_number (String (digit_char d) rest)
  = parse_unsigned (String (digit_char d) rest).
Proof.
  intros Hd. destruct (digit_cases d Hd) as [->|[->|[->|[->|[->|[->|[->|[->|[->| ->]]]]]]]]];
    reflexivity.
Qed.

Lemma Q2Qc_eq (a b : Q) : a == b → Q2Qc a = Q2Qc b.
Proof. intros H. apply Qc_is_canon. simpl. by rewrite !Qred_correct. Qed.

Lemma Q2Qc_this (q : Qc) : Q2Qc (this q) = q.
Proof. apply Qc_is_canon. simpl. apply Qred_correct. Qed.

(** Reading back the digits written for [m / 10^k]. *)
Lemma parse_unsigned_rendered (k : nat) (m : Z) :
  0 <= m →
  parse_unsigned
    (int_digits (m / 10 ^ Z.of_nat k)
       (String "."%char
          (if decide (k = 0%nat) then "0"%string
           else fixed_digits k (m mod 10 ^ Z.of_nat k) EmptyString)))
  = Some (Q2Qc (m # Z.to_pos (10 ^ Z.of_nat k))).
Proof.
  intros Hm.
  assert (Hp : 0 < 10 ^ Z.of_nat k) by (apply Z.pow_pos_nonneg; lia).
  assert (Hi : 0 <= m / 10 ^ Z.of_nat k) by (apply Z.div_pos; lia).
  destruct (int_digits_fixed (m / 10 ^ Z.of_nat k)
              (String "."%char
                 (if decide (k = 0%nat) then "0"%string
                  else fixed_digits k (m mod 10 ^ Z.of_nat k) EmptyString)) Hi)
    as (ki & Hki & Hlt & ->).
  unfold parse_unsigned. rewrite split_on_app_sep.
  rewrite (split_on_clean _ (fixed_digits ki _ _))
    by (by apply fixed_digits_contains).
  assert (Hne := fixed_digits_nonempty ki (m / 10 ^ Z.of_nat k) Hki).
  case_decide as Hk0.
  - subst k. simpl (split_on _ "0"). simpl app. cbv beta iota.
    rewrite decide_False by (intros [? _]; done).
    rewrite parse_fixed_digits by done. simpl (parse_digits "0" 0).
    rewrite Z.mod_small by lia. f_equal. apply Q2Qc_eq.
    unfold Qeq. simpl. rewrite Z.div_1_r. lia.
  - rewrite (split_on_clean _ (fixed_digits k _ _))
      by (by apply fixed_digits_contains).
    simpl app. cbv beta iota.
    rewrite decide_False by (intros [? _]; done).
    rewrite !parse_fixed_digits by (try done; apply Z.mod_pos_bound; lia).
    rewrite fixed_digits_length. f_equal. apply Q2Qc_eq.
    rewrite (Z.mod_small (m / _)) by lia.
    rewrite Z.mod_mod by lia.
    unfold Qeq. simpl.
    pose proof (Z.div_mod m (10 ^ Z.of_nat k)). nia.
Qed.

Lemma scale_of_exact (q : Qc) :
  exact_decimal q →
  ∃ k, scale_of q = Some k ∧ (10 ^ Z.of_nat k) mod Zpos (Qden q) = 0.
Proof.
  intros Hq. unfold scale_of.
  destruct (List.find _ _) as [k|] eqn:Hfind.
  - exists k. split; [done|].
    apply List.find_some in Hfind as [_ Hk]. by apply bool_decide_eq_true in Hk.
  - exfalso.
    pose proof (List.find_none _ _ Hfind float_digits) as Hnone.
    rewrite bool_decide_eq_false in Hnone. apply Hnone; [|exact Hq].
    apply in_seq. unfold float_digits. lia.
Qed.

Lemma int_digits_head (n : Z) (rest : string) :
  0 <= n →
  ∃ d r, 0 <= d < 10 ∧ int_digits n rest = String (digit_char d) r.
Proof.
  intros Hn. destruct (int_digits_fixed n rest Hn) as (k & Hk & _ & ->).
  destruct (fixed_digits_head k n Hk) as (d & r & Hd & ->).
  exists d, (r +:+ rest). by split.
Qed.

Lemma parse_number_unsigned (s : string) :
  (∃ d r, 0 <= d < 10 ∧ s = String (digit_char d) r) →
  parse_number s = parse_unsigned s.
Proof. intros (d & r & Hd & ->). by apply parse_number_digit_head. Qed.

(** The digits written are those of the absolute value. *)
Lemma scaled_abs (q : Qc) (k : nat) :
  (10 ^ Z.of_nat k) mod Zpos (Qden q) = 0 →
  Q2Qc (Z.abs (Qnum q) * 10 ^ Z.of_nat k / Zpos (Qden q)
        # Z.to_pos (10 ^ Z.of_nat k))
  = Q2Qc (Z.abs (Qnum q) # Qden q).
Proof.
  intros Hk. apply Q2Qc_eq. unfold Qeq. simpl.
  assert (Hp : 0 < 10 ^ Z.of_nat k) by (apply Z.pow_pos_nonneg; lia).
  rewrite Z2Pos.id by done.
  assert (Hmod : (Z.abs (Qnum q) * 10 ^ Z.of_nat k) mod Zpos (Qden q) = 0).
  { rewrite <- Z.mul_mod_idemp_r by lia. rewrite Hk, Z.mul_0_r. done. }
  apply Z.div_exact in Hmod; [|lia]. lia.
Qed.

Lemma abs_nonneg_value (q : Qc) :
  ¬ Qnum q < 0 → Q2Qc (Z.abs (Qnum q) # Qden q) = q.
Proof.
  intros Hs. transitivity (Q2Qc (this q)); [|apply Q2Qc_this].
  apply Q2Qc_eq. destruct (this q) as [n d]. simpl in *. unfold Qeq. simpl. lia.
Qed.

Lemma abs_neg_value (q : Qc) :
  Qnum q < 0 → (- Q2Qc (Z.abs (Qnum q) # Qden q))%Qc = q.
Proof.
  intros Hs. apply Qc_is_canon. simpl. rewrite !Qred_correct.
  destruct (this q) as [n d]. simpl in *. unfold Qeq. simpl. lia.
Qed.

(** What [render_float] writes for a value with a short enough
    expansion reads back as that value. *)
Lemma parse_render_float (q : Qc) :
  exact_decimal q → parse_number (render_float q) = Some q.
Proof.
  intros Hq. destruct (scale_of_exact q Hq) as (k & Hscale & Hk).
  unfold render_float. rewrite Hscale. simpl default.
  assert (Hm : 0 <= Z.abs (Qnum q) * 10 ^ Z.of_nat k / Zpos (Qden q)).
  { apply Z.div_pos; [|lia].
    assert (0 < 10 ^ Z.of_nat k) by (apply Z.pow_pos_nonneg; lia). lia. }
  pose proof (parse_unsigned_rendered k _ Hm) as Hparse.
  rewrite scaled_abs in Hparse by done.
  unfold sign_of. destruct (decide (Qnum q < 0)) as [Hs|Hs].
  - simpl parse_number. rewrite Hparse. simpl. f_equal. by apply abs_neg_value.
  - rewrite parse_number_unsigned.
    + rewrite Hparse. f_equal. by apply abs_nonneg_value.
    + apply int_digits_head. apply Z.div_pos; [done|].
      apply Z.pow_pos_nonneg; lia.
Qed.

Lemma is_integer_den (q : Qc) : is_integer q = true → Qden q = 1%positive.
Proof. unfold is_integer. by intros ?%bool_decide_eq_true. Qed.

(** What [render_int] writes for an integer reads back as that integer. *)
Lemma parse_render_int (q : Qc) :
  is_integer q = true → parse_number (render_int q) = Some q.
Proof.
  intros Hq%is_integer_den. unfold render_int. rewrite Hq, Z.div_1_r.
  assert (Hn : 0 <= Z.abs (Qnum q)) by lia.
  assert (Hparse : parse_unsigned (int_digits (Z.abs (Qnum q)) EmptyString)
                   = Some (Q2Qc (Z.abs (Qnum q) # Qden q))).
  { destruct (int_digits_fixed _ EmptyString Hn) as (k & Hk & Hlt & ->).
    rewrite append_nil_r. unfold parse_unsigned.
    rewrite split_on_clean by (by apply fixed_digits_contains).
    rewrite decide_False by (by apply fixed_digits_nonempty).
    rewrite parse_fixed_digits by done. simpl. f_equal.
    rewrite Z.mod_small by lia. rewrite Hq. reflexivity. }
  unfold sign_of. destruct (decide (Qnum q < 0)) as [Hs|Hs].
  - simpl parse_number. rewrite Hparse. simpl. f_equal. by apply abs_neg_value.
  - rewrite parse_number_unsigned by (by apply int_digits_head).
    rewrite Hparse. f_equal. by apply abs_nonneg_value.
Qed.

Lemma int_digits_all_chars (n : Z) (rest : string) :
  0 <= n →
  all_chars numeral_char (int_digits n rest) = all_chars numeral_char rest
  ∧ int_digits n rest ≠ EmptyString.
Proof.
  intros Hn. destruct (int_digits_fixed n rest Hn) as (k & Hk & _ & ->).
  split.
  - by rewrite all_chars_app, fixed_digits_all_chars.
  - destruct (fixed_digits_head k n Hk) as (d & r & _ & ->). done.
Qed.

Lemma sign_of_plain (q : Qc) (body : string) :
  all_chars numeral_char body = true → body ≠ EmptyString →
  plain (sign_of q body) = true.
Proof.
  intros Hall Hne. unfold plain, sign_of. case_decide; simpl.
  - by rewrite Hall.
  - rewrite Hall. simpl. by rewrite bool_decide_eq_false_2.
Qed.

Lemma render_float_plain (q : Qc) : plain (render_float q) = true.
Proof.
  unfold render_float.
  set (k := default float_digits (scale_of q)).
  assert (Hp : 0 < 10 ^ Z.of_nat k) by (apply Z.pow_pos_nonneg; lia).
  assert (Hi : 0 <= Z.abs (Qnum q) * 10 ^ Z.of_nat k / Zpos (Qden q) / 10 ^ Z.of_nat k).
  { apply Z.div_pos; [|done]. apply Z.div_pos; lia. }
  destruct (int_digits_all_chars _
              (String "."%char
                 (if decide (k = 0%nat) then "0"%string
                  else fixed_digits k
                         ((Z.abs (Qnum q) * 10 ^ Z.of_nat k / Zpos (Qden q))
                            mod 10 ^ Z.of_nat k) EmptyString)) Hi)
    as [Hall Hne].
  apply sign_of_plain; [|done]. rewrite Hall. simpl.
  destruct (decide (k = 0%nat)); [done|apply fixed_digits_all_chars].
Qed.

Lemma render_int_plain (q : Qc) : plain (render_int q) = true.
Proof.
  unfold render_int.
  assert (Hi : 0 <= Z.abs (Qnum q) / Zpos (Qden q)) by (apply Z.div_pos; lia).
  destruct (int_digits_all_chars _ EmptyString Hi) as [Hall Hne].
  by apply sign_of_plain.
Qed.

Lemma plain_not_na (s : string) : plain s = true → s ∉ default_na.
Proof.
  intros Hs Hin.
  assert (Hna : Forall (λ t, plain t = false) default_na).
  { by apply (bool_decide_unpack _). }
  rewrite Forall_forall in Hna. specialize (Hna s Hin). congruence.
Qed.

Lemma plain_contains (c : ascii) (s : string) :
  numeral_char c = false → plain s = true → contains c s = false.
Proof.
  intros Hc [Hall _]%andb_true_iff.
  induction s as [|x s IH]; simpl in *; [done|].
  apply andb_true_iff in Hall as [Hx Hall].
  rewrite IH by done. rewrite bool_decide_eq_false_2; [done|].
  intros ->. congruence.
Qed.

Lemma render_cell_plain (b : bool) (q : Qc) : plain (render_cell b (Some q)) = true.
Proof. destruct b; simpl; [apply render_int_plain|apply render_float_plain]. Qed.

(** A rendered cell holds no comma and no line feed. *)
Lemma render_cell_clean (b : bool) (x : cell) :
  contains ","%char (render_cell b x) = false
  ∧ contains newline (render_cell b x) = false.
Proof.
  destruct x as [q|]; [|done].
  split; apply plain_contains; try apply render_cell_plain; reflexivity.
Qed.

(** A cell written by [to_csv] reads back as the same cell: the missing
    value through the empty field, a number through its numeral. *)
Lemma parse_cell_render (c : column) (x : cell) :
  x ∈ c → exact_cell x →
  parse_cell default_na (render_cell (int_column c) x) = inr x.
Proof.
  intros Hin Hx. unfold parse_cell. destruct x as [q|].
  - rewrite decide_False by apply plain_not_na, render_cell_plain.
    simpl. destruct (int_column c) eqn:Hint.
    + rewrite parse_render_int; [done|].
      unfold int_column in Hint. rewrite forallb_forall in Hint.
      apply (Hint (Some q)). by apply list_elem_of_In.
    + by rewrite parse_render_float.
  - reflexivity.
Qed.

(** ** Lines and fields *)

Lemma split_join (sep : ascii) (parts : list string) :
  parts ≠ [] →
  Forall (λ p, contains sep p = false) parts →
  split_on sep (join (String sep EmptyString) parts) = parts.
Proof.
  induction parts as [|p parts IH]; intros Hne Hall; [done|].
  apply Forall_cons in Hall as [Hp Hall].
  destruct parts as [|p' parts].
  - simpl. by apply split_on_clean.
  - change (join (String sep EmptyString) (p :: p' :: parts))
      with (p +:+ String sep EmptyString +:+ join (String sep EmptyString) (p' :: parts)).
    rewrite append_cons, append_nil_l, split_on_app_sep.
    rewrite split_on_clean by done. rewrite IH by done. done.
Qed.

Lemma contains_cons (c x : ascii) (s : string) :
  contains c (String x s) = bool_decide (x = c) || contains c s.
Proof. reflexivity. Qed.

Lemma contains_join (c sep : ascii) (parts : list string) :
  c ≠ sep →
  Forall (λ p, contains c p = false) parts →
  contains c (join (String sep EmptyString) parts) = false.
Proof.
  intros Hc. induction parts as [|p parts IH]; intros Hall; [done|].
  apply Forall_cons in Hall as [Hp Hall].
  destruct parts as [|p' parts]; [done|].
  change (join (String sep EmptyString) (p :: p' :: parts))
    with (p +:+ String sep EmptyString +:+ join (String sep EmptyString) (p' :: parts)).
  rewrite contains_app, Hp, append_cons, append_nil_l, contains_cons.
  rewrite IH by done. by rewrite bool_decide_eq_false_2 by done.
Qed.

Lemma join_nonempty (sep : ascii) (parts : list string) :
  (2 <= length parts)%nat → join (String sep EmptyString) parts ≠ EmptyString.
Proof.
  destruct parts as [|p [|p' parts]]; simpl; [lia|lia|]. intros _.
  change (p +:+ String sep EmptyString +:+ join (String sep EmptyString) (p' :: parts)
          ≠ EmptyString).
  rewrite append_cons, append_nil_l. by destruct p.
Qed.

Lemma parse_cells_render (cols : list (string * column)) (i : nat) :
  Forall (λ c : string * column,
            ∃ x, c.2 !! i = Some x ∧ exact_cell x) cols →
  parse_cells default_na
    ((λ c : string * column,
        render_cell (int_column c.2) (default NaN (c.2 !! i))) <$> cols)
  = inr ((λ c : string * column, default NaN (c.2 !! i)) <$> cols).
Proof.
  induction cols as [|c cols IH]; intros Hall; [done|].
  apply Forall_cons in Hall as [(x & Hx & Hex) Hall].
  rewrite !fmap_cons. unfold parse_cells; fold parse_cells.
  rewrite Hx. simpl default.
  rewrite parse_cell_render; [|by eapply list_elem_of_lookup_2|done].
  by rewrite IH.
Qed.

Lemma parse_record_render (f : DataFrame) (i : nat) :
  wf_frame f → exact_frame f → (i < nrows f)%nat → columns f ≠ [] →
  parse_record default_na (length (names f))
    (split_on ","%char (render_row f i))
  = inr (row_values f i).
Proof.
  intros [_ Hlen] Hex Hi Hne. unfold render_row.
  rewrite split_join.
  - unfold parse_record. rewrite length_fmap. unfold names. rewrite length_fmap.
    rewrite decide_False by lia.
    rewrite parse_cells_render.
    + unfold row_values. rewrite length_fmap, Nat.sub_diag. simpl.
      by rewrite app_nil_r.
    + unfold exact_frame in Hex.
      rewrite Forall_forall in Hlen, Hex. apply Forall_forall. intros c Hc.
      destruct (lookup_lt_is_Some_2 c.2 i) as [x Hx]; [rewrite (Hlen c Hc); lia|].
      exists x. split; [done|].
      specialize (Hex c Hc). simpl in Hex. rewrite Forall_forall in Hex.
      apply Hex. by eapply list_elem_of_lookup_2.
  - by destruct (columns f).
  - apply Forall_fmap, Forall_forall. intros c _. simpl. apply render_cell_clean.
Qed.

Lemma parse_records_render (f : DataFrame) (idx : list nat) :
  wf_frame f → exact_frame f → columns f ≠ [] →
  Forall (λ i, (i < nrows f)%nat) idx →
  parse_records default_na (length (names f))
    (split_on ","%char <$> (render_row f <$> idx))
  = inr (row_values f <$> idx).
Proof.
  intros Hwf Hex Hne. induction idx as [|i idx IH]; intros Hall; [done|].
  apply Forall_cons in Hall as [Hi Hall]. rewrite !fmap_cons.
  unfold parse_records; fold parse_records.
  rewrite parse_record_render by done. by rewrite IH.
Qed.

(** Putting the rows of a frame back into columns gives the frame. *)
Lemma frame_of_records_values (f : DataFrame) :
  wf_frame f → frame_of_records (names f) (frame_values f) = f.
Proof.
  intros [_ Hlen]. destruct f as [n cols]. unfold frame_of_records, frame_values,
    names. simpl in *. rewrite length_fmap, length_seq. f_equal.
  apply list_eq. intros j.
  rewrite list_lookup_fmap, list_lookup_imap, list_lookup_fmap.
  destruct (cols !! j) as [[name col]|] eqn:Hj; simpl; [|done].
  f_equal. f_equal. unfold column_of, row_values. simpl.
  rewrite <- list_fmap_compose.
  rewrite Forall_forall in Hlen.
  assert (Hcol : length col = n).
  { apply (Hlen (name, col)). by eapply list_elem_of_lookup_2. }
  apply list_eq. intros i. rewrite list_lookup_fmap.
  destruct (decide (i < n)%nat) as [Hi|Hi].
  - rewrite lookup_seq_lt by done. simpl.
    rewrite list_lookup_fmap, Hj. simpl.
    destruct (lookup_lt_is_Some_2 col i) as [x Hx]; [lia|]. by rewrite Hx.
  - rewrite lookup_seq_ge by lia. simpl. symmetry.
    apply lookup_ge_None. lia.
Qed.

Lemma filter_all {A} (P : A → Prop) `{∀ x, Decision (P x)} (l : list A) :
  Forall P l → filter P l = l.
Proof.
  induction l as [|a l IH]; intros Hall; [done|].
  apply Forall_cons in Hall as [Ha Hall].
  rewrite filter_cons_True by done. by rewrite IH.
Qed.

Lemma render_row_clean (f : DataFrame) (i : nat) :
  (2 <= length (columns f))%nat →
  contains newline (render_row f i) = false ∧ render_row f i ≠ EmptyString.
Proof.
  intros Hn. unfold render_row. split.
  - apply contains_join; [done|].
    apply Forall_fmap, Forall_forall. intros c _. apply render_cell_clean.
  - apply join_nonempty. by rewrite length_fmap.
Qed.

(** The text that [to_csv] writes reads back as the frame written. *)
Lemma read_csv_text_to_csv_text (f : DataFrame) :
  wf_frame f → exact_frame f →
  (2 <= length (columns f))%nat →
  Forall plain_label (names f) →
  read_csv_text (to_csv_text f) = inr f.
Proof.
  intros Hwf Hex Hn Hlabels.
  assert (Hnames : (2 <= length (names f))%nat)
    by (unfold names; by rewrite length_fmap).
  assert (Hcols : columns f ≠ []) by (destruct (columns f); simpl in *; [lia|done]).
  assert (Hnamesne : names f ≠ []) by (destruct (names f); simpl in *; [lia|done]).
  set (header := join "," (names f)).
  set (rows := render_row f <$> seq 0 (nrows f)).
  assert (Hlines : split_on newline (to_csv_text f) = (header :: rows) ++ [EmptyString]).
  { unfold to_csv_text. fold header. fold rows.
    rewrite split_on_app_sep. f_equal. apply split_join; [done|].
    constructor.
    - apply contains_join; [done|].
      eapply Forall_impl; [exact Hlabels|]. by intros s [_ ?].
    - apply Forall_fmap, Forall_forall. intros i _. by apply render_row_clean. }
  unfold read_csv_text. rewrite Hlines.
  rewrite filter_app, filter_all.
  2:{ constructor; [by apply join_nonempty|].
      apply Forall_fmap, Forall_forall. intros i _. by apply render_row_clean. }
  simpl app.
  assert (Hheader : split_on ","%char header = names f).
  { apply split_join; [done|].
    eapply Forall_impl; [exact Hlabels|]. by intros s [? _]. }
  cbv beta iota. rewrite Hheader.
  change (filter (λ l : string, l ≠ EmptyString) [EmptyString]) with (@nil string).
  rewrite app_nil_r.
  unfold rows. rewrite parse_records_render; [|done|done|done|].
  - fold (frame_values f). by rewrite frame_of_records_values.
  - apply Forall_forall. intros i Hi%elem_of_seq. lia.
Qed.

(** ** [load_pbc_data] on a written file *)

Lemma assoc_set_same {A} (k : string) (v : A) (l : list (string * A)) :
  assoc k l = Some v → assoc_set k v l = l.
Proof.
  induction l as [|[k' v'] l IH]; simpl; [done|].
  case_decide; [by intros [= ->]; subst|]. intros H'. by rewrite IH.
Qed.

Lemma astype_Int64_codes (c : column) : Forall code_cell c → astype_Int64 c = inr c.
Proof.
  intros Hc. unfold astype_Int64.
  assert (H : forallb (λ x : cell, match x with
                                   | Some q => is_integer q
                                   | None => true
                                   end) c = true).
  { apply forallb_forall. intros x Hx%list_elem_of_In.
    rewrite Forall_forall in Hc. specialize (Hc x Hx). by destruct x. }
  by rewrite H.
Qed.

Lemma set_heap_insert_id (l : nat) (f : DataFrame) (w : world) :
  heap w !! l = Some f → set_heap (λ h, <[l := f]> h) w = w.
Proof.
  intros H. destruct w. unfold set_heap. simpl in *. f_equal. by apply insert_id.
Qed.

Lemma for_each_skip {S A} (xs : list A) (body : A → M S unit) (s : S) :
  (∀ x, body x s = (inr tt, s)) → for_each xs body s = (inr tt, s).
Proof.
  intros Hb. induction xs as [|x xs IH]; simpl; [done|].
  unfold bind. by rewrite Hb, IH.
Qed.

(** The categorical casts of [load_pbc_data] leave a table of codes as
    it is. *)
Lemma categorical_cast_skip (l : nat) (f : DataFrame) (col : string) (w : world) :
  heap w !! l = Some f → wf_frame f → categorical_ok f →
  col ∈ categorical_cols →
  (let* f' := deref l in
   if decide (col ∈ names f')
   then let* c := getitem_ref l col in
        let* c' := lift_result (astype_Int64 c) in
        setitem_ref l col c'
   else ret tt) w = (inr tt, w).
Proof.
  intros Hl Hwf Hcat Hcol.
  unfold bind, deref. rewrite Hl. simpl.
  case_decide as Hin; [|done].
  destruct (assoc_Some_names col (columns f) Hin) as [c Hc].
  unfold getitem_ref, setitem_ref, bind, deref, lift_result, store, modify.
  rewrite Hl. simpl. rewrite (getitem_assoc _ _ _ Hc). simpl.
  rewrite astype_Int64_codes by (by eapply Hcat). simpl.
  rewrite Hl. simpl.
  rewrite setitem_ok by (by eapply wf_column_length). simpl.
  rewrite (assoc_set_same _ _ _ Hc).
  replace (mkFrame (nrows f) (columns f)) with f by (by destruct f).
  by rewrite set_heap_insert_id.
Qed.

Lemma bind_run {S A B} (m : M S A) (k : A → M S B) (s s' : S) (a : A) :
  m s = (inr a, s') → bind m k s = k a s'.
Proof. intros H. unfold bind. by rewrite H. Qed.

Lemma read_csv_run (w : world) (path text : string) (f : DataFrame) :
  fs w !! path = Some text →
  read_csv_text text = inr f →
  read_csv path w
  = (inr (fresh (dom (heap w))),
     set_heap (λ h, <[fresh (dom (heap w)) := f]> h) w).
Proof.
  intros Hfs Hread. unfold read_csv, read_file, alloc, lift_result, bind.
  by rewrite Hfs, Hread.
Qed.

Lemma load_pbc_data_run (w : world) (path text : string) (f : DataFrame) :
  fs w !! path = Some text →
  read_csv_text text = inr f →
  wf_frame f → categorical_ok f →
  load_pbc_data path w
  = (inr (fresh (dom (heap w))),
     set_heap (λ h, <[fresh (dom (heap w)) := f]> h) w).
Proof.
  intros Hfs Hread Hwf Hcat.
  unfold load_pbc_data.
  rewrite (bind_run _ _ _ _ _ (read_csv_run w path text f Hfs Hread)).
  set (w1 := set_heap _ w).
  assert (Hl : heap w1 !! fresh (dom (heap w)) = Some f)
    by (unfold w1; simpl; apply lookup_insert_eq).
  assert (Hloop : ∀ cols, Forall (λ c, c ∈ categorical_cols) cols →
    for_each cols (λ col,
      let* f' := deref (fresh (dom (heap w))) in
      if decide (col ∈ names f')
      then let* c := getitem_ref (fresh (dom (heap w))) col in
           let* c' := lift_result (astype_Int64 c) in
           setitem_ref (fresh (dom (heap w))) col c'
      else ret tt) w1 = (inr tt, w1)).
  { induction cols as [|c cols IH]; intros Hall; [done|].
    apply Forall_cons in Hall as [Hc Hall].
    change (for_each (c :: cols) ?b) with (bind (b c) (λ _, for_each cols b)).
    rewrite (bind_run _ _ _ _ _ (categorical_cast_skip _ f c w1 Hl Hwf Hcat Hc)).
    by apply IH. }
  rewrite (bind_run _ _ _ _ _ (Hloop categorical_cols
             ltac:(apply Forall_forall; by intros c Hc))).
  reflexivity.
Qed.

Lemma plain_label_pbc_columns : Forall plain_label pbc_columns.
Proof. repeat constructor. Qed.

Lemma fresh_insert_ne (h : gmap nat DataFrame) (l : nat) (f : DataFrame) :
  fresh (dom (<[l := f]> h)) ≠ l.
Proof.
  intros Heq. pose proof (is_fresh (dom (<[l := f]> h))) as Hfr.
  rewrite Heq in Hfr. apply Hfr. rewrite dom_insert. set_solver.
Qed.

Lemma fresh_ne_lookup (h : gmap nat DataFrame) (l : nat) (f : DataFrame) :
  h !! l = Some f → fresh (dom h) ≠ l.
Proof.
  intros Hl Heq. pose proof (is_fresh (dom h)) as Hfr.
  rewrite Heq in Hfr. apply Hfr. by apply elem_of_dom.
Qed.



Lemma sample_frame_1_read :
  read_table_text pbc_columns ["."%string] sample_row_1 = inr sample_frame_1.
Proof. vm_compute. reflexivity. Qed.

Lemma sample_frame_2_read :
  read_table_text pbc_columns ["."%string] sample_row_2 = inr sample_frame_2.
Proof. vm_compute. reflexivity. Qed.

Lemma sample_frame_2_categorical : categorical_ok sample_frame_2.
Proof.
  intros c col Hc Hcol.
  repeat (apply elem_of_cons in Hc as [->|Hc]);
    try (by apply elem_of_nil in Hc);
    vm_compute in Hcol; try discriminate Hcol;
    injection Hcol as <-; repeat constructor.
Qed.

(** The missing fields of the second sample record are missing cells of
    the frame read. *)
Example sample_frame_2_missing :
  cell_at "drug" sample_frame_2 0 = Some NaN
  ∧ cell_at "chol" sample_frame_2 0 = Some NaN.
Proof. by vm_compute. Qed.



Lemma convert_derived_columns_witness :
  (∃ df df_ml f_ml w',
     convert_pbc_to_csv
       (sample_world {[ "pbc.dat.txt"%string := sample_row_1 ]}) = (inr df, w')
     ∧ heap w' !! df = Some sample_frame_1
     ∧ heap w' !! df_ml = Some f_ml
     ∧ fs w' !! "pbc_ml_ready.csv"%string = Some (to_csv_text f_ml)
     ∧ names f_ml = pbc_columns ++ derived_columns
     ∧ nrows f_ml = nrows sample_frame_1
     ∧ ∀ i, (i < nrows sample_frame_1)%nat →
         ∃ a st sx dr,
           cell_at "age" sample_frame_1 i = Some a
           ∧ cell_at "status" sample_frame_1 i = Some st
           ∧ cell_at "sex" sample_frame_1 i = Some sx
           ∧ cell_at "drug" sample_frame_1 i = Some dr
           ∧ cell_at "age_years" f_ml i
             = Some ((λ q, (q / Q2Qc 365.25%Q)%Qc) <$> a)
           ∧ cell_at "death_event" f_ml i
             = Some (indicator (bool_decide (st = num 2)))
           ∧ cell_at "male" f_ml i = Some (indicator (bool_decide (sx = num 0)))
           ∧ cell_at "female" f_ml i = Some (indicator (bool_decide (sx = num 1)))
           ∧ cell_at "drug_treatment" f_ml i
             = Some (indicator (bool_decide (dr = num 1))))
  ∧ (∃ f_ml y,
       heap (convert_pbc_to_csv
               (sample_world {[ "pbc.dat.txt"%string := sample_row_1 ]})).2
         !! 1%nat = Some f_ml
       ∧ cell_at "death_event" f_ml 0 = Some (num 1)
       ∧ cell_at "male" f_ml 0 = Some (num 0)
       ∧ cell_at "female" f_ml 0 = Some (num 1)
       ∧ cell_at "age_years" f_ml 0 = Some (Some y)
       ∧ (Q2Qc 58.765%Q <= y)%Qc ∧ (y < Q2Qc 58.775%Q)%Qc).
Proof.
  apply (convert_derived_columns
           (sample_world {[ "pbc.dat.txt"%string := sample_row_1 ]})
           sample_row_1 sample_frame_1).
  - reflexivity.
  - exact sample_frame_1_read.
Defined.

(** ** Values read from short numerals are carried exactly *)

Lemma Qden_Qred_divides (a : Z) (b : positive) :
  (Zpos (Qden (Qred (a # b))) | Zpos b).
Proof.
  unfold Qred.
  pose proof (Z.ggcd_correct_divisors a (Zpos b)) as Hdiv.
  pose proof (Z.ggcd_gcd a (Zpos b)) as Hg.
  destruct (Z.ggcd a (Zpos b)) as [g [aa bb]]. simpl in *.
  destruct Hdiv as [_ Hb].
  assert (0 <= g) by (rewrite Hg; apply Z.gcd_nonneg).
  assert (0 < bb).
  { destruct (Z_lt_le_dec 0 bb) as [|Hle]; [done|].
    assert (g * bb <= 0) by (by apply Z.mul_nonneg_nonpos). lia. }
  rewrite Z2Pos.id by done. by exists g.
Qed.

Lemma exact_decimal_scaled (a : Z) (k : nat) :
  (k <= float_digits)%nat →
  exact_decimal (Q2Qc (a # Z.to_pos (10 ^ Z.of_nat k))).
Proof.
  intros Hk. unfold exact_decimal. simpl.
  assert (Hp : 0 < 10 ^ Z.of_nat k) by (apply Z.pow_pos_nonneg; lia).
  destruct (Qden_Qred_divides a (Z.to_pos (10 ^ Z.of_nat k))) as [g Hg].
  rewrite Z2Pos.id in Hg by done.
  generalize dependent (Zpos (Qden (Qred (a # Z.to_pos (10 ^ Z.of_nat k))))).
  intros d Hg.
  assert (d ≠ 0) by (intros ->; lia).
  apply Z.mod_divide; [done|].
  exists (10 ^ (Z.of_nat float_digits - Z.of_nat k) * g).
  replace (Z.of_nat float_digits)
    with ((Z.of_nat float_digits - Z.of_nat k) + Z.of_nat k) at 1 by lia.
  rewrite Z.pow_add_r by lia. rewrite Hg. ring.
Qed.

Lemma exact_decimal_integer (n : Z) : exact_decimal (Q2Qc (inject_Z n)).
Proof.
  pose proof (exact_decimal_scaled n 0) as H. simpl in H. apply H.
  unfold float_digits. lia.
Qed.

Lemma exact_decimal_opp (q : Qc) : exact_decimal q → exact_decimal (- q)%Qc.
Proof.
  unfold exact_decimal. destruct q as [x Hx]. simpl.
  rewrite Qred_opp, Hx. by destruct x.
Qed.

Lemma parse_unsigned_exact (s : string) (q : Qc) :
  parse_unsigned s = Some q →
  (fraction_length s <= float_digits)%nat →
  exact_decimal q.
Proof.
  unfold parse_unsigned, fraction_length.
  destruct (split_on "."%char s) as [|i [|f [|? ?]]]; [done| | |done].
  - case_decide; [done|]. destruct (parse_digits i 0); [|done].
    intros [= <-] _. apply exact_decimal_integer.
  - case_decide; [done|].
    destruct (parse_digits i 0); [|done]. destruct (parse_digits f 0); [|done].
    intros [= <-] Hlen. by apply exact_decimal_scaled.
Qed.

Lemma fraction_length_cons (c : ascii) (s : string) :
  c ≠ "."%char → fraction_length (String c s) = fraction_length s.
Proof.
  intros Hc. unfold fraction_length. simpl. rewrite decide_False by done.
  pose proof (split_on_nonempty "."%char s).
  by destruct (split_on "."%char s) as [|i [|f [|? ?]]].
Qed.

Lemma parse_number_exact (tok : string) (q : Qc) :
  parse_number tok = Some q →
  (fraction_length tok <= float_digits)%nat →
  exact_decimal q.
Proof.
  intros Hparse Hlen.
  destruct tok as [|c s]; [by eapply parse_unsigned_exact|].
  destruct (decide (c = "-"%char)) as [->|Hminus].
  { simpl in Hparse. rewrite fraction_length_cons in Hlen by done.
    destruct (parse_unsigned s) as [q'|] eqn:Hq; [|done].
    injection Hparse as <-. apply exact_decimal_opp.
    by eapply parse_unsigned_exact. }
  destruct (decide (c = "+"%char)) as [->|Hplus].
  { simpl in Hparse. rewrite fraction_length_cons in Hlen by done.
    by eapply parse_unsigned_exact. }
  assert (Heq : parse_number (String c s) = parse_unsigned (String c s)).
  { unfold parse_number.
    destruct c as [[] [] [] [] [] [] [] []]; try reflexivity; congruence. }
  rewrite Heq in Hparse. by eapply parse_unsigned_exact.
Qed.

Lemma parse_cells_exact (na toks : list string) (cs : list cell) :
  parse_cells na toks = inr cs →
  Forall (λ tok, (fraction_length tok <= float_digits)%nat) toks →
  Forall exact_cell cs.
Proof.
  revert cs. induction toks as [|t toks IH]; intros cs; simpl.
  - by intros [= <-] _.
  - unfold parse_cell. intros Hp Hall.
    apply Forall_cons in Hall as [Ht Hall].
    destruct (decide (t ∈ na)).
    + destruct (parse_cells na toks) as [|cs']; [done|].
      injection Hp as <-. constructor; [done|by apply IH].
    + destruct (parse_number t) as [q|] eqn:Hq; [|done].
      destruct (parse_cells na toks) as [|cs']; [done|].
      injection Hp as <-. constructor; [|by apply IH].
      by eapply parse_number_exact.
Qed.

Lemma parse_records_exact (na : list string) (n : nat)
    (rows : list (list string)) (rs : list (list cell)) :
  parse_records na n rows = inr rs →
  Forall (Forall (λ tok, (fraction_length tok <= float_digits)%nat)) rows →
  Forall (Forall exact_cell) rs.
Proof.
  revert rs. induction rows as [|r rows IH]; intros rs; simpl.
  - by intros [= <-] _.
  - intros Hp Hall. apply Forall_cons in Hall as [Hr Hall].
    unfold parse_record in Hp. case_decide; [done|].
    destruct (parse_cells na r) as [|cs] eqn:Hcs; [done|].
    destruct (parse_records na n rows) as [|rs']; [done|].
    injection Hp as <-. constructor; [|by apply IH].
    apply Forall_app. split; [by eapply parse_cells_exact|].
    by apply Forall_replicate.
Qed.

Lemma frame_of_records_exact (labels : list string) (rs : list (list cell)) :
  Forall (Forall exact_cell) rs → exact_frame (frame_of_records labels rs).
Proof.
  intros Hrs. unfold exact_frame, frame_of_records. simpl.
  apply Forall_fmap, Forall_forall. intros [j name] _. simpl.
  unfold column_of. apply Forall_fmap.
  eapply Forall_impl; [exact Hrs|]. intros r Hr. simpl.
  destruct (r !! j) as [x|] eqn:Hx; simpl; [|done].
  rewrite Forall_forall in Hr. apply Hr. by eapply list_elem_of_lookup_2.
Qed.

(** A table read from a text of short numerals is carried exactly. *)
Lemma read_table_text_exact (labels na : list string) (text : string)
    (f : DataFrame) :
  read_table_text labels na text = inr f →
  short_fields text →
  exact_frame f.
Proof.
  unfold read_table_text, short_fields. intros Hread Hshort.
  case_decide; [done|].
  destruct (parse_records _ _ _) as [|rs] eqn:Hrs; [done|].
  injection Hread as <-. apply frame_of_records_exact.
  eapply parse_records_exact; [exact Hrs|].
  apply Forall_forall. intros r [_ Hr]%list_elem_of_filter.
  rewrite Forall_forall in Hshort. by apply Hshort.
Qed.

(** C3.  A table of valid records (every field with at most
    [float_digits] digits after the point, every categorical field a
    code or missing) goes through the converter and back through
    [load_pbc_data] unchanged: the frame loaded from pbc_data.csv is the
    frame read from the text, labels, order, values and missing cells
    included.  The sentinel [.] is read as missing, a missing cell is
    written as the empty field, and the empty field is read as
    missing. *)
Theorem csv_round_trip (w : world) (text : string) (f : DataFrame) :
  fs w !! "pbc.dat.txt"%string = Some text →
  read_table_text pbc_columns ["."%string] text = inr f →
  short_fields text →
  categorical_ok f →
  (∃ df w1 df' w2,
     convert_pbc_to_csv w = (inr df, w1)
     ∧ fs w1 !! "pbc_data.csv"%string = Some (to_csv_text f)
     ∧ read_csv_text (to_csv_text f) = inr f
     ∧ load_pbc_data "pbc_data.csv" w1 = (inr df', w2)
     ∧ heap w2 !! df' = Some f
     ∧ heap w2 !! df = Some f)
  ∧ parse_cell ("."%string :: default_na) "." = inr NaN
  ∧ (∀ b, render_cell b NaN = EmptyString)
  ∧ parse_cell default_na EmptyString = inr NaN.
Proof.
  intros Hfs Hread Hshort Hcat. split; [|by repeat split].
  pose proof (read_table_text_exact _ _ _ _ Hread Hshort) as Hex.
  destruct (read_table_text_wf _ _ _ _ NoDup_pbc_columns Hread) as [Hwf Hnames].
  destruct (derive_ml_spec f Hwf Hnames) as (age & st & sx & dr & _ & _ & _ & _ & Hml).
  destruct (convert_run w text f _ Hfs Hread Hml) as (w1 & Hrun & Hheap & Hfiles).
  assert (Hcsv : fs w1 !! "pbc_data.csv"%string = Some (to_csv_text f)).
  { rewrite Hfiles. rewrite lookup_insert_ne by done. apply lookup_insert_eq. }
  assert (Hback : read_csv_text (to_csv_text f) = inr f).
  { apply read_csv_text_to_csv_text; [done|done| |].
    - assert (Hlen : length (names f) = 20%nat) by (by rewrite Hnames).
      unfold names in Hlen. rewrite length_fmap in Hlen. lia.
    - rewrite Hnames. apply plain_label_pbc_columns. }
  eexists _, w1, _, _. split; [exact Hrun|]. split; [exact Hcsv|].
  split; [exact Hback|].
  split; [exact (load_pbc_data_run w1 _ _ f Hcsv Hback Hwf Hcat)|].
  simpl. split; [apply lookup_insert_eq|].
  assert (Hdf : heap w1 !! fresh (dom (heap w)) = Some f).
  { rewrite Hheap. rewrite lookup_insert_ne by apply fresh_insert_ne.
    apply lookup_insert_eq. }
  rewrite lookup_insert_ne; [done|]. by eapply fresh_ne_lookup.
Qed.

Lemma sample_row_2_short : short_fields sample_row_2.
Proof. unfold short_fields. by apply (bool_decide_unpack _). Qed.

Lemma csv_round_trip_witness :
  (∃ df w1 df' w2,
     convert_pbc_to_csv
       (sample_world {[ "pbc.dat.txt"%string := sample_row_2 ]}) = (inr df, w1)
     ∧ fs w1 !! "pbc_data.csv"%string = Some (to_csv_text sample_frame_2)
     ∧ read_csv_text (to_csv_text sample_frame_2) = inr sample_frame_2
     ∧ load_pbc_data "pbc_data.csv" w1 = (inr df', w2)
     ∧ heap w2 !! df' = Some sample_frame_2
     ∧ heap w2 !! df = Some sample_frame_2)
  ∧ parse_cell ("."%string :: default_na) "." = inr NaN
  ∧ (∀ b, render_cell b NaN = EmptyString)
  ∧ parse_cell default_na EmptyString = inr NaN.
Proof.
  apply (csv_round_trip
           (sample_world {[ "pbc.dat.txt"%string := sample_row_2 ]})
           sample_row_2 sample_frame_2).
  - reflexivity.
  - exact sample_frame_2_read.
  - exact sample_row_2_short.
  - exact sample_frame_2_categorical.
Defined.

(** * Further properties *)

(** ** What [main] sends to the database *)

Section Quiet.
Context {S : Type} (π : S → world).

Lemma prints_only_ret {A} (a : A) : prints_only π (ret a).
Proof. by intros s. Qed.

Lemma prints_only_lift_result {A} (r : result A) : prints_only π (lift_result r).
Proof. by intros s. Qed.

Lemma prints_only_bind {A B} (m : M S A) (k : A → M S B) :
  prints_only π m → (∀ a, prints_only π (k a)) → prints_only π (bind m k).
Proof.
  intros Hm Hk s. unfold bind. specialize (Hm s).
  destruct (m s) as [[e|a] s1]; simpl in *; [done|].
  by rewrite Hk.
Qed.

Lemma writes_nothing_prints_only {A} (m : M S A) :
  prints_only π m → writes_nothing π m.
Proof.
  intros Hm s. exists []. split; [|done].
  specialize (Hm s). unfold outside in Hm. rewrite app_nil_r. congruence.
Qed.

Lemma writes_nothing_bind {A B} (m : M S A) (k : A → M S B) :
  writes_nothing π m → (∀ a, writes_nothing π (k a)) → writes_nothing π (bind m k).
Proof.
  intros Hm Hk s. unfold bind. destruct (Hm s) as (evs & Ht & Hw).
  destruct (m s) as [[e|a] s1]; simpl in *; [by exists evs|].
  destruct (Hk a s1) as (evs' & Ht' & Hw').
  exists (evs ++ evs'). rewrite Ht', Ht, app_assoc. split; [done|].
  by apply Forall_app.
Qed.

(** What follows a step that always raises is never run. *)
Lemma writes_nothing_bind_raises {A B} (m : M S A) (k : A → M S B) :
  writes_nothing π m → (∀ s, ∃ e, (m s).1 = inl e) →
  writes_nothing π (bind m k).
Proof.
  intros Hm Hr s. unfold bind. destruct (Hm s) as (evs & Ht & Hw).
  destruct (Hr s) as [e He].
  destruct (m s) as [[e'|a] s1]; simpl in *; [by exists evs|done].
Qed.

Lemma writes_nothing_for_each {A} (xs : list A) (body : A → M S unit) :
  (∀ x, writes_nothing π (body x)) → writes_nothing π (for_each xs body).
Proof.
  intros Hb. induction xs as [|x xs IH]; simpl.
  - apply writes_nothing_prints_only, prints_only_ret.
  - apply writes_nothing_bind; [apply Hb|intros _; apply IH].
Qed.

End Quiet.

Lemma prints_only_liftW {A} (m : M world A) :
  prints_only (λ w, w) m → prints_only mw (liftW m).
Proof.
  intros Hm s. unfold liftW. specialize (Hm (mw s)).
  by destruct (m (mw s)) as [r w].
Qed.

Lemma writes_nothing_liftW {A} (m : M world A) :
  writes_nothing (λ w, w) m → writes_nothing mw (liftW m).
Proof.
  intros Hm s. unfold liftW. specialize (Hm (mw s)).
  by destruct (m (mw s)) as [r w].
Qed.

Ltac prim_out := intros w; cbv beta delta
  [print modify read_file write_file deref store alloc getenv
   set_stdout set_fs set_heap];
  repeat case_match; simpl; done.

Lemma prints_only_print l : prints_only (λ w, w) (print l).
Proof. prim_out. Qed.
Lemma prints_only_read_file path : prints_only (λ w, w) (read_file path).
Proof. prim_out. Qed.
Lemma prints_only_deref l : prints_only (λ w, w) (deref l).
Proof. prim_out. Qed.
Lemma prints_only_alloc df : prints_only (λ w, w) (alloc df).
Proof. prim_out. Qed.
Lemma prints_only_store l df : prints_only (λ w, w) (store l df).
Proof. prim_out. Qed.

Create HintDb quiet discriminated.

#[export] Hint Resolve prints_only_ret prints_only_lift_result
  prints_only_print prints_only_read_file prints_only_deref
  prints_only_alloc prints_only_store : quiet.

Ltac quiet_steps :=
  repeat first
    [ apply prints_only_bind; [|intros ?]
    | apply prints_only_liftW
    | solve [auto with quiet] ].

Lemma prints_only_getitem_ref l col : prints_only (λ w, w) (getitem_ref l col).
Proof. unfold getitem_ref. quiet_steps. Qed.

Lemma prints_only_read_table path labels na :
  prints_only (λ w, w) (read_table path labels na).
Proof. unfold read_table. quiet_steps. Qed.

#[export] Hint Resolve prints_only_getitem_ref prints_only_read_table : quiet.

Lemma main_read_prints_only p : prints_only mw (main_read p).
Proof. unfold main_read, read_pbc_data. quiet_steps. Qed.
(** ** What [main] never sends *)

Ltac prim_db := intros w; cbv beta delta
  [execute connect cursor_of set_session set_db log_event];
  repeat case_match; simpl;
  first [ by exists []; rewrite app_nil_r
        | by eexists [_]; split; [reflexivity|repeat constructor] ].

Lemma writes_nothing_execute c sql : writes_nothing (λ w, w) (execute c sql).
Proof. prim_db. Qed.
Lemma writes_nothing_connect p : writes_nothing (λ w, w) (connect p).
Proof. prim_db. Qed.
Lemma writes_nothing_cursor_of h : writes_nothing (λ w, w) (cursor_of h).
Proof. prim_db. Qed.

Lemma writes_nothing_load_schema c path :
  writes_nothing (λ w, w) (load_schema_from_file c path).
Proof.
  unfold load_schema_from_file. apply writes_nothing_bind.
  - apply writes_nothing_prints_only, prints_only_read_file.
  - intros sql. apply writes_nothing_for_each. intros stmt.
    apply writes_nothing_execute.
Qed.

(** [insert_pbc_data] stops at its first line, whatever it is given. *)
Lemma insert_pbc_data_stops (cursor df : nat) (w : world) :
  ∃ e, insert_pbc_data cursor df w = (inl e, w).
Proof.
  unfold insert_pbc_data, bind, deref.
  destruct (heap w !! df); eexists; reflexivity.
Qed.

Lemma writes_nothing_main_load conn cursor df :
  writes_nothing mw (main_load conn cursor df).
Proof.
  unfold main_load.
  apply writes_nothing_bind;
    [apply writes_nothing_liftW, writes_nothing_prints_only, prints_only_print|intros _].
  apply writes_nothing_bind;
    [apply writes_nothing_liftW, writes_nothing_load_schema|intros _].
  apply writes_nothing_bind;
    [apply writes_nothing_liftW, writes_nothing_prints_only, prints_only_print|intros _].
  apply writes_nothing_bind_raises.
  - intros s. exists []. rewrite app_nil_r. split; [|done].
    unfold liftW. destruct (insert_pbc_data_stops cursor df (mw s)) as [e ->].
    reflexivity.
  - intros s. unfold liftW.
    destruct (insert_pbc_data_stops cursor df (mw s)) as [e ->]. by exists e.
Qed.

Lemma writes_nothing_main_body p : writes_nothing mw (main_body p).
Proof.
  unfold main_body.
  apply writes_nothing_bind;
    [apply writes_nothing_prints_only, main_read_prints_only|intros df].
  apply writes_nothing_bind;
    [apply writes_nothing_liftW, writes_nothing_connect|intros conn].
  apply writes_nothing_bind;
    [apply writes_nothing_prints_only; by intros s|intros _].
  apply writes_nothing_bind;
    [apply writes_nothing_liftW, writes_nothing_cursor_of|intros cursor].
  apply writes_nothing_bind;
    [apply writes_nothing_prints_only; by intros s|intros _].
  apply writes_nothing_main_load.
Qed.

Lemma after_cleanup_trace (s : main_state) :
  db_trace (after_cleanup s)
  = db_trace (mw s)
    ++ from_option (λ c, [EvCloseCursor c]) [] (v_cursor s)
    ++ from_option (λ h, [EvCloseConn h]) [] (v_conn s).
Proof.
  destruct s as [w [h|] [c|]]; simpl; unfold after_cleanup; simpl;
    rewrite <- ?app_assoc, ?app_nil_r; reflexivity.
Qed.

(** X1.  No run of [main] reaches a write: whatever the files, the
    environment and the server do, the driver calls that [main] adds to
    the trace hold neither an INSERT nor a [commit], because
    [insert_pbc_data] stops before both. *)
Theorem main_never_writes (w : world) :
  ∃ evs, db_trace (main w).2 = db_trace w ++ evs
         ∧ (EvCommit ∉ evs)
         ∧ ∀ rows, EvInsert rows ∉ evs.
Proof.
  rewrite main_unfold. unfold call. rewrite main_try_spec. simpl.
  destruct (writes_nothing_main_body (db_params_of (env w)) (mkMain w None None))
    as (evs & Ht & Hw). simpl in Ht.
  set (b := main_body (db_params_of (env w)) (mkMain w None None)) in *.
  set (s1 := match b.1 with
             | inl e => mkMain (set_stdout (λ out, out ++ report e) (mw b.2))
                          (v_conn b.2) (v_cursor b.2)
             | inr _ => b.2
             end).
  assert (Hs1 : db_trace (mw s1) = db_trace w ++ evs).
  { subst s1. by destruct b.1. }
  exists (evs ++ from_option (λ c, [EvCloseCursor c]) [] (v_cursor s1)
              ++ from_option (λ h, [EvCloseConn h]) [] (v_conn s1)).
  rewrite after_cleanup_trace, Hs1, <- app_assoc.
  split; [done|].
  assert (Hall : Forall (λ e, is_write e = false)
                   (evs ++ from_option (λ c, [EvCloseCursor c]) [] (v_cursor s1)
                        ++ from_option (λ h, [EvCloseConn h]) [] (v_conn s1))).
  { rewrite !Forall_app. split; [done|].
    destruct (v_cursor s1), (v_conn s1); simpl; repeat constructor. }
  rewrite Forall_forall in Hall.
  split; [|intros rows]; intros Hin; by apply Hall in Hin.
Qed.
Lemma execute_beyond_session (c : nat) (sql : string) (w : world) :
  beyond_session (execute c sql w).2 = beyond_session w.
Proof. unfold execute. repeat case_match; reflexivity. Qed.

Lemma for_each_execute_beyond_session (c : nat) (stmts : list string) (w : world) :
  beyond_session (for_each stmts (execute c) w).2 = beyond_session w.
Proof.
  revert w. induction stmts as [|stmt stmts IH]; intros w; simpl; [done|].
  unfold bind. pose proof (execute_beyond_session c stmt w) as He.
  destruct (execute c stmt w) as [[e|[]] w1]; simpl in *; [done|].
  by rewrite IH.
Qed.

Lemma load_schema_beyond_session (c : nat) (path : string) (w : world) :
  beyond_session (load_schema_from_file c path w).2 = beyond_session w.
Proof.
  unfold load_schema_from_file, bind, read_file.
  destruct (fs w !! path); simpl; [|done].
  apply for_each_execute_beyond_session.
Qed.

(** The calls of [load_schema_from_file], whether or not the file is
    there. *)
Lemma load_schema_trace (c : nat) (path : string) (w : world) :
  c ∈ live_cursors w →
  let r := load_schema_from_file c path w in
  let stmts := statements (default EmptyString (fs w !! path)) in
  ∃ k, db_trace r.2 = db_trace w ++ (EvExecute <$> take k stmts)
       ∧ (r.1 = inr tt → k = length stmts)
       ∧ (is_Some (fs w !! path) → accepts_all (srv w) → r.1 = inr tt).
Proof.
  intros Hc. unfold load_schema_from_file, bind, read_file.
  destruct (fs w !! path) as [sql|]; simpl.
  - destruct (for_each_execute_trace c (statements sql) w Hc) as (k & _ & Ht & Hk & Ha).
    exists k. auto.
  - exists 0%nat. rewrite app_nil_r. split; [done|]. split; [done|].
    by intros [? ?].
Qed.

Lemma for_each_execute_error (c : nat) (stmts : list string) (w : world) (e : exn) :
  (for_each stmts (execute c) w).1 = inl e → exn_type e = Psycopg2Error.
Proof.
  revert w. induction stmts as [|stmt stmts IH]; intros w; simpl; [done|].
  unfold bind. destruct (execute c stmt w) as [[e'|[]] w1] eqn:He; simpl.
  - intros [= ->]. unfold execute in He.
    repeat case_match; by simplify_eq.
  - apply IH.
Qed.

Lemma load_schema_missing (c : nat) (path : string) (w : world) :
  fs w !! path = None →
  (load_schema_from_file c path w).1 = inl (Raise FileNotFoundError path).
Proof.
  intros Hn. unfold load_schema_from_file, bind, read_file. by rewrite Hn.
Qed.

(** How [load_schema_from_file] can fail: the file is not there, or the
    driver raises. *)
Lemma load_schema_error (c : nat) (path : string) (w : world) (e : exn) :
  (load_schema_from_file c path w).1 = inl e →
  match fs w !! path with
  | None => e = Raise FileNotFoundError path
  | Some _ => exn_type e = Psycopg2Error
  end.
Proof.
  unfold load_schema_from_file, bind, read_file.
  destruct (fs w !! path) as [sql|]; simpl.
  - apply for_each_execute_error.
  - by intros [= <-].
Qed.

(** The first block of [main] on a readable input. *)
Lemma main_read_ok (p : list (string * string)) (w : world) (text : string)
    (f : DataFrame) :
  fs w !! pbc_file = Some text →
  read_table_text pbc_columns ["."%string] text = inr f →
  ∃ df w1,
    main_read p (mkMain w None None) = (inr df, mkMain w1 None None)
    ∧ outside w1 = outside w
    ∧ heap w1 !! df = Some f.
Proof.
  intros Hfs Hread.
  destruct (read_table_text_wf _ _ _ _ NoDup_pbc_columns Hread) as [Hwf Hn].
  assert (Hfu : ∃ c, getitem "futime" f = inr c).
  { destruct (assoc_Some_names "futime" (columns f)) as [c Hc].
    - fold (names f). rewrite Hn. set_solver.
    - exists c. by apply getitem_assoc. }
  assert (Hst : ∃ c, getitem "status" f = inr c).
  { destruct (assoc_Some_names "status" (columns f)) as [c Hc].
    - fold (names f). rewrite Hn. set_solver.
    - exists c. by apply getitem_assoc. }
  destruct Hfu as [fu Hfu], Hst as [st Hst].
  unfold main_read, read_pbc_data, read_table, read_file, getitem_ref, deref,
    alloc, print, modify, lift_result, liftW, bind, ret.
  simpl.
  repeat (first [ rewrite Hfs | rewrite Hread | rewrite lookup_insert_eq
                | rewrite Hfu | rewrite Hst ]; simpl).
  eexists _, _. split; [reflexivity|]. simpl.
  split; [reflexivity|]. by rewrite lookup_insert_eq.
Qed.
(** The last block of [main]: it always ends in an exception, that of
    [load_schema_from_file] or that of [insert_pbc_data]. *)
Lemma main_load_spec (conn cursor df : nat) (s : main_state) (f : DataFrame) :
  heap (mw s) !! df = Some f →
  let w0 := set_stdout
              (λ out, out ++ [[Lit "Loading database schema from ";
                               Lit schema_file; Lit "..."]]) (mw s) in
  let r := load_schema_from_file cursor schema_file w0 in
  main_load conn cursor df s
  = match r.1 with
    | inl e => (inl e, mkMain r.2 (v_conn s) (v_cursor s))
    | inr _ =>
        (inl fill_error,
         mkMain (set_stdout (λ out, out ++ [[Lit "Inserting PBC data..."]]) r.2)
           (v_conn s) (v_cursor s))
    end.
Proof.
  intros Hdf w0 r.
  pose proof (load_schema_beyond_session cursor schema_file w0) as Hb.
  fold r in Hb.
  unfold main_load.
  unfold bind at 1, liftW at 1, print at 1, modify. simpl.
  unfold bind at 1, liftW at 1. simpl.
  change (load_schema_from_file cursor schema_file _) with r.
  clearbody r. destruct r as [[e|[]] w1]; simpl in *; [done|].
  unfold bind at 1, liftW at 1, print at 1, modify. simpl.
  unfold bind at 1, liftW at 1. simpl.
  rewrite (insert_pbc_data_raises cursor df _ f); [done|].
  simpl. unfold beyond_session in Hb. simpl in Hb.
  injection Hb as _ _ _ -> _ _ _ _ _. done.
Qed.

Lemma main_body_connected (w : world) (text : string) (f : DataFrame) :
  fs w !! pbc_file = Some text →
  read_table_text pbc_columns ["."%string] text = inr f →
  connect_error (srv w) (db_params_of (env w)) = None →
  let h := next_handle w in
  ∃ e wF k,
    main_body (db_params_of (env w)) (mkMain w None None)
    = (inl e, mkMain wF (Some h) (Some (S h)))
    ∧ db_trace wF
      = db_trace w ++ [EvConnect h; EvCursor (S h)]
        ++ (EvExecute <$> take k (statements (default EmptyString (fs w !! schema_file))))
    ∧ live_conns wF = {[h]} ∪ live_conns w
    ∧ live_cursors wF = {[S h]} ∪ live_cursors w
    ∧ committed wF = committed w
    ∧ fs wF = fs w
    ∧ (fs w !! schema_file = None →
       e = Raise FileNotFoundError schema_file
       ∧ ∃ out, stdout wF
                = out ++ [[Lit "Loading database schema from ";
                           Lit schema_file; Lit "..."]])
    ∧ (is_Some (fs w !! schema_file) →
       exn_type e = Psycopg2Error ∨ e = fill_error)
    ∧ (is_Some (fs w !! schema_file) → accepts_all (srv w) →
       e = fill_error
       ∧ k = length (statements (default EmptyString (fs w !! schema_file)))
       ∧ ∃ out, stdout wF = out ++ [[Lit "Inserting PBC data..."]]).
Proof.
  intros Hfs Hread Hconn h. subst h.
  destruct (main_read_ok (db_params_of (env w)) w text f Hfs Hread)
    as (df & w1 & Hr & Hout & Hdf).
  unfold main_body. rewrite (bind_run _ _ _ _ _ Hr).
  destruct w1 as [env1 fs1 out1 heap1 srv1 com1 ses1 fet1 lc1 lk1 nh1 tr1].
  unfold outside in Hout. simpl in Hout, Hdf.
  injection Hout as -> -> -> -> -> -> -> -> -> ->.
  unfold liftW at 1, connect at 1, bind at 1. simpl. rewrite Hconn. simpl.
  unfold bind_conn, modify, bind at 1. simpl.
  unfold liftW at 1, cursor_of at 1, bind at 1. simpl.
  rewrite decide_True by set_solver. simpl.
  unfold bind_cursor, modify, bind at 1. simpl.
  match goal with
  | |- context [main_load _ _ _ {| mw := ?w2 |}] => set (w2' := w2)
  end.
  assert (Hw2 : beyond_session w2'
                = (env w, fs w, out1, heap1, srv w, committed w,
                   {[next_handle w]} ∪ live_conns w, {[S (next_handle w)]} ∪ live_cursors w, S (S (next_handle w))))
    by reflexivity.
  assert (Ht2 : db_trace w2' = db_trace w ++ [EvConnect (next_handle w); EvCursor (S (next_handle w))])
    by (simpl; by rewrite <- app_assoc).
  clearbody w2'.
  rewrite (main_load_spec _ _ df _ f);
    [|simpl; by injection Hw2 as _ _ _ -> _ _ _ _ _].
  cbv zeta. cbn [mw v_conn v_cursor].
  set (w0 := set_stdout _ w2').
  assert (Hw0 : beyond_session w0
                = (env w, fs w,
                   out1 ++ [[Lit "Loading database schema from ";
                             Lit schema_file; Lit "..."]],
                   heap1, srv w, committed w,
                   {[next_handle w]} ∪ live_conns w, {[S (next_handle w)]} ∪ live_cursors w, S (S (next_handle w)))).
  { unfold beyond_session in *. subst w0. simpl.
    injection Hw2 as -> -> -> -> -> -> -> -> ->. reflexivity. }
  assert (Ht0 : db_trace w0 = db_trace w ++ [EvConnect (next_handle w); EvCursor (S (next_handle w))])
    by exact Ht2.
  clearbody w0. clear Hw2 Ht2 w2'.
  pose proof (load_schema_beyond_session (S (next_handle w)) schema_file w0) as Hb.
  pose proof (load_schema_error (S (next_handle w)) schema_file w0) as He.
  pose proof (load_schema_missing (S (next_handle w)) schema_file w0) as Hm.
  unfold beyond_session in Hw0.
  injection Hw0 as Henv Hfs0 Hout Hheap Hsrv Hcom Hlc Hlk Hnh.
  destruct (load_schema_trace (S (next_handle w)) schema_file w0) as (k & Ht & Hk & Ha);
    [rewrite Hlk; set_solver|].
  rewrite Hfs0 in *. rewrite Hsrv in Ha. rewrite Ht0, <- app_assoc in Ht.
  unfold beyond_session in Hb.
  rewrite Henv, Hfs0, Hout, Hheap, Hsrv, Hcom, Hlc, Hlk, Hnh in Hb.
  destruct (load_schema_from_file (S (next_handle w)) schema_file w0) as [[e|[]] wF];
    simpl in Hb, He, Hm, Ht, Hk, Ha |- *;
    injection Hb as Henv' Hfs' Hout' Hheap' Hsrv' Hcom' Hlc' Hlk' Hnh'.
  - exists e, wF, k. specialize (He e eq_refl).
    split; [reflexivity|]. split; [exact Ht|].
    split; [done|]. split; [done|]. split; [done|]. split; [done|].
    split; [|split].
    + intros Hn. rewrite Hn in He. split; [done|]. by eexists.
    + intros [sql Hs]. rewrite Hs in He. by left.
    + intros Hs Hacc. by specialize (Ha Hs Hacc).
  - eexists fill_error, _, k. split; [reflexivity|]. simpl.
    split; [exact Ht|].
    split; [done|]. split; [done|]. split; [done|]. split; [done|].
    split; [|split].
    + intros Hn. by specialize (Hm Hn).
    + by right.
    + intros _ _. split; [done|]. split; [by apply Hk|]. by eexists.
Qed.

Lemma always_raises_bind_l {S A B} (m : M S A) (k : A → M S B) :
  always_raises m → always_raises (bind m k).
Proof.
  intros Hm s. unfold bind. destruct (Hm s) as [e He].
  destruct (m s) as [[e'|a] s1]; simpl in *; [by exists e'|done].
Qed.

Lemma always_raises_bind_r {S A B} (m : M S A) (k : A → M S B) :
  (∀ a, always_raises (k a)) → always_raises (bind m k).
Proof.
  intros Hk s. unfold bind.
  destruct (m s) as [[e'|a] s1]; simpl; [by exists e'|apply Hk].
Qed.

Lemma main_load_always_raises conn cursor df :
  always_raises (main_load conn cursor df).
Proof.
  unfold main_load.
  do 3 (apply always_raises_bind_r; intros _).
  apply always_raises_bind_l. intros s. unfold liftW.
  destruct (insert_pbc_data_stops cursor df (mw s)) as [e ->]. by exists e.
Qed.

Lemma main_body_always_raises p : always_raises (main_body p).
Proof.
  unfold main_body.
  do 5 (apply always_raises_bind_r; intros ?).
  apply main_load_always_raises.
Qed.

(** X2.  The [try] block of [main] never runs to its end: in every
    world it raises, so every run of [main] ends by printing the report
    of an exception. *)
Theorem main_always_reports_failure (w : world) :
  ∃ e s1,
    main_body (db_params_of (env w)) (mkMain w None None) = (inl e, s1)
    ∧ stdout (main w).2 = stdout (mw s1) ++ report e
    ∧ report e ≠ [].
Proof.
  destruct (main_body_always_raises (db_params_of (env w)) (mkMain w None None))
    as [e He].
  rewrite main_unfold. unfold call. rewrite main_try_spec. simpl.
  destruct (main_body (db_params_of (env w)) (mkMain w None None))
    as [r s1]; simpl in *. subst r.
  exists e, s1. split; [done|]. rewrite after_cleanup_stdout. simpl.
  split; [done|]. destruct e as [[] msg]; done.
Qed.


(** X4.  The best case: the input reads, the connection is granted, the
    schema file is there and the server accepts every statement.  Then
    [main] sends all the statements of the schema, announces the
    insertion, and ends with the report of an unexpected error, the
    ValueError of [df.fillna(None)]. *)
Theorem main_best_case_is_fill_error (w : world) (text sql : string) (f : DataFrame) :
  fs w !! pbc_file = Some text →
  read_table_text pbc_columns ["."%string] text = inr f →
  connect_error (srv w) (db_params_of (env w)) = None →
  fs w !! schema_file = Some sql →
  accepts_all (srv w) →
  let h := next_handle w in
  let w' := (main w).2 in
  db_trace w'
  = db_trace w ++ [EvConnect h; EvCursor (S h)]
    ++ (EvExecute <$> statements sql)
    ++ [EvCloseCursor (S h); EvCloseConn h]
  ∧ ∃ out, stdout w'
           = out ++ [[Lit "Inserting PBC data..."];
                     [Lit "Unexpected error: "; PExn fill_error]].
Proof.
  intros Hfs Hread Hconn Hsql Hacc h w'.
  destruct (main_body_connected w text f Hfs Hread Hconn)
    as (e & wF & k & Hb & Ht & _ & _ & _ & _ & _ & _ & Hbest).
  fold h in Hb, Ht.
  destruct (Hbest (mk_is_Some _ _ Hsql) Hacc) as (-> & -> & out & Hout).
  rewrite Hsql in Ht. simpl in Ht. rewrite firstn_all in Ht.
  assert (Hw' : w' = (close_conn h (close_cursor (S h)
                        (set_stdout (λ out, out ++ report fill_error) wF)).2).2).
  { subst w'. rewrite main_unfold. unfold call. rewrite main_try_spec, Hb.
    reflexivity. }
  rewrite Hw'. simpl. rewrite Ht, Hout. split.
  - by rewrite <- !app_assoc.
  - exists out. by rewrite <- app_assoc.
Qed.

(** X5.  A missing schema file is found only after the connection is
    open: [main] reports the file as not found, sends no statement, and
    still closes the cursor and the connection. *)
Theorem main_missing_schema_file (w : world) (text : string) (f : DataFrame) :
  fs w !! pbc_file = Some text →
  read_table_text pbc_columns ["."%string] text = inr f →
  connect_error (srv w) (db_params_of (env w)) = None →
  fs w !! schema_file = None →
  let h := next_handle w in
  let w' := (main w).2 in
  db_trace w'
  = db_trace w ++ [EvConnect h; EvCursor (S h); EvCloseCursor (S h); EvCloseConn h]
  ∧ ∃ out, stdout w'
           = out ++ [[Lit "Loading database schema from "; Lit schema_file; Lit "..."];
                     [Lit "Error: File not found - ";
                      PExn (Raise FileNotFoundError schema_file)];
                     [Lit "Make sure pbc.dat.txt and pbc_schema.sql are in the current directory"]].
Proof.
  intros Hfs Hread Hconn Hsql h w'.
  destruct (main_body_connected w text f Hfs Hread Hconn)
    as (e & wF & k & Hb & Ht & _ & _ & _ & _ & Hmiss & _).
  fold h in Hb, Ht.
  destruct (Hmiss Hsql) as (-> & out & Hout).
  rewrite Hsql in Ht.
  change (statements (default EmptyString None)) with (@nil string) in Ht.
  rewrite take_nil in Ht. simpl in Ht.
  assert (Hw' : w' = (close_conn h (close_cursor (S h)
                        (set_stdout
                           (λ out, out ++ report (Raise FileNotFoundError schema_file))
                           wF)).2).2).
  { subst w'. rewrite main_unfold. unfold call. rewrite main_try_spec, Hb.
    reflexivity. }
  rewrite Hw'. simpl. rewrite Ht, Hout. split.
  - by rewrite <- !app_assoc.
  - exists out. by rewrite <- app_assoc.
Qed.
Lemma quiet_server_accepts_all : accepts_all quiet_server.
Proof. intros stmt t. by eexists _, _. Qed.


Lemma main_best_case_is_fill_error_witness :
  let h := next_handle world_with_inputs in
  let w' := (main world_with_inputs).2 in
  db_trace w'
  = db_trace world_with_inputs ++ [EvConnect h; EvCursor (S h)]
    ++ (EvExecute <$> statements sample_schema)
    ++ [EvCloseCursor (S h); EvCloseConn h]
  ∧ ∃ out, stdout w'
           = out ++ [[Lit "Inserting PBC data..."];
                     [Lit "Unexpected error: "; PExn fill_error]].
Proof.
  apply (main_best_case_is_fill_error world_with_inputs sample_row_2
           sample_schema sample_frame_2).
  - reflexivity.
  - exact sample_frame_2_read.
  - reflexivity.
  - reflexivity.
  - exact quiet_server_accepts_all.
Defined.

Lemma main_missing_schema_file_witness :
  let h := next_handle world_without_schema in
  let w' := (main world_without_schema).2 in
  db_trace w'
  = db_trace world_without_schema
    ++ [EvConnect h; EvCursor (S h); EvCloseCursor (S h); EvCloseConn h]
  ∧ ∃ out, stdout w'
           = out ++ [[Lit "Loading database schema from "; Lit schema_file; Lit "..."];
                     [Lit "Error: File not found - ";
                      PExn (Raise FileNotFoundError schema_file)];
                     [Lit "Make sure pbc.dat.txt and pbc_schema.sql are in the current directory"]].
Proof.
  apply (main_missing_schema_file world_without_schema sample_row_2 sample_frame_2).
  - reflexivity.
  - exact sample_frame_2_read.
  - reflexivity.
  - reflexivity.
Defined.
(** ** Stripping, blank texts, and statements written back *)

(** What [lstrip] leaves is empty or opens with a character that is no space. *)
Lemma lstrip_head (s : string) :
  (lstrip s = EmptyString ∧ all_chars is_space s = true)
  ∨ (∃ c r, lstrip s = String c r ∧ is_space c = false
            ∧ all_chars is_space s = false).
Proof.
  induction s as [|c s IH]; simpl; [by left|].
  destruct (is_space c) eqn:Hc; simpl.
  - exact IH.
  - right. by exists c, s.
Qed.

Lemma rstrip_head (c : ascii) (r : string) :
  is_space c = false → ∃ r', rstrip (String c r) = String c r'.
Proof.
  intros Hc. simpl. destruct (rstrip r); rewrite ?Hc; by eexists.
Qed.

Lemma rstrip_idemp (s : string) : rstrip (rstrip s) = rstrip s.
Proof.
  induction s as [|c s IH]; simpl; [done|].
  destruct (rstrip s) as [|c' r] eqn:Hr.
  - destruct (is_space c) eqn:Hc; simpl; [done|]. by rewrite Hc.
  - change (rstrip (String c (String c' r))) with
      (match rstrip (String c' r) with
       | EmptyString => if is_space c then EmptyString else String c EmptyString
       | r0 => String c r0
       end).
    by rewrite IH.
Qed.

Lemma strip_empty_iff (s : string) :
  strip s = EmptyString ↔ all_chars is_space s = true.
Proof.
  unfold strip. destruct (lstrip_head s) as [[Hl Hs]|(c & r & Hl & Hc & Hs)];
    rewrite Hl, Hs.
  - done.
  - destruct (rstrip_head c r Hc) as [r' ->]. done.
Qed.

Lemma strip_idemp (s : string) : strip (strip s) = strip s.
Proof.
  unfold strip. destruct (lstrip_head s) as [[Hl Hs]|(c & r & Hl & Hc & Hs)];
    rewrite Hl.
  - done.
  - destruct (rstrip_head c r Hc) as [r' Hr]. rewrite Hr.
    simpl lstrip. rewrite Hc, <- Hr. apply rstrip_idemp.
Qed.

Lemma all_chars_split_on (sep : ascii) (s : string) :
  is_space sep = false →
  Forall (λ seg, all_chars is_space seg = true) (split_on sep s)
  ↔ all_chars (λ c, is_space c || bool_decide (c = sep)) s = true.
Proof.
  intros Hsep. induction s as [|c s IH]; simpl.
  - split; [done|]. intros _. by constructor.
  - case_decide as Hc.
    + subst c. rewrite bool_decide_eq_true_2, orb_true_r by done. simpl.
      rewrite Forall_cons. simpl. rewrite <- IH. tauto.
    + rewrite bool_decide_eq_false_2, orb_false_r by done.
      pose proof (split_on_nonempty sep s) as Hne.
      destruct (split_on sep s) as [|seg rest]; [done|].
      rewrite andb_true_iff, <- IH, !Forall_cons. simpl.
      rewrite andb_true_iff. tauto.
Qed.

Lemma statements_nil_iff (sql : string) :
  statements sql = [] ↔ all_chars blank_or_semicolon sql = true.
Proof.
  unfold statements, blank_or_semicolon.
  rewrite <- (all_chars_split_on semicolon sql) by reflexivity.
  split.
  - intros Hnil%fmap_nil_inv. apply Forall_forall. intros seg Hin.
    apply strip_empty_iff.
    destruct (decide (strip seg = EmptyString)) as [|Hne]; [done|].
    exfalso.
    exact (filter_nil_not_elem_of (λ stmt, strip stmt ≠ EmptyString) _ seg
             Hnil Hne Hin).
  - intros Hall. rewrite filter_none; [done|]. intros seg Hin Hne.
    rewrite Forall_forall in Hall. apply Hne, strip_empty_iff. by apply Hall.
Qed.

(** X6.  A schema file that holds only white space and semicolons (an
    empty file included) makes [load_schema_from_file] send nothing and
    return normally, leaving the world as it is, whatever the state of
    the cursor; these are the only texts that give no statement. *)
Theorem load_schema_blank_file
    (cursor : nat) (path sql : string) (w : world) :
  fs w !! path = Some sql →
  all_chars blank_or_semicolon sql = true →
  load_schema_from_file cursor path w = (inr tt, w)
  ∧ (∀ text, statements text = [] ↔ all_chars blank_or_semicolon text = true).
Proof.
  intros Hfs Hblank. split; [|apply statements_nil_iff].
  unfold load_schema_from_file, bind, read_file. rewrite Hfs.
  apply statements_nil_iff in Hblank. by rewrite Hblank.
Qed.

Lemma statements_clean (s : string) : clean_statement s → statements s = [s].
Proof.
  intros (Hne & Hstrip & Hsemi). unfold statements.
  rewrite split_on_clean by done.
  rewrite filter_cons_True by (by rewrite Hstrip).
  simpl. by rewrite Hstrip.
Qed.

Lemma statements_are_clean (sql : string) :
  Forall clean_statement (statements sql).
Proof.
  pose proof (statements_sound sql) as Hs.
  unfold statements in *. rewrite Forall_fmap in *.
  eapply Forall_impl; [exact Hs|]. intros seg [Hne Hsemi]. simpl in *.
  split; [done|]. split; [apply strip_idemp|done].
Qed.

Lemma statements_join (stmts : list string) :
  Forall clean_statement stmts →
  statements (join (String semicolon EmptyString) stmts) = stmts.
Proof.
  induction stmts as [|s stmts IH]; intros Hall; [reflexivity|].
  apply Forall_cons in Hall as [Hs Hall].
  destruct stmts as [|s' stmts].
  - simpl. by apply statements_clean.
  - change (join (String semicolon EmptyString) (s :: s' :: stmts))
      with (s +:+ String semicolon EmptyString
              +:+ join (String semicolon EmptyString) (s' :: stmts)).
    rewrite append_cons, append_nil_l.
    rewrite statements_app, IH by done. by rewrite statements_clean.
Qed.

(** X7.  Statements written one after the other with a semicolon between
    them are read back as themselves, as long as each is not empty, has
    no white space at either end and holds no semicolon; what
    [load_schema_from_file] cuts out of any text is of this form, so
    cutting, rejoining and cutting again changes nothing. *)
Theorem statements_round_trip (stmts : list string) :
  Forall clean_statement stmts →
  statements (join (String semicolon EmptyString) stmts) = stmts
  ∧ ∀ sql, Forall clean_statement (statements sql)
           ∧ statements (join (String semicolon EmptyString) (statements sql))
             = statements sql.
Proof.
  intros Hall. split; [by apply statements_join|].
  intros sql. split; [apply statements_are_clean|].
  apply statements_join, statements_are_clean.
Qed.

Lemma statements_round_trip_witness :
  statements (join (String semicolon EmptyString)
                ["CREATE TABLE t (id INT)"; "CREATE INDEX i ON t (id)"]%string)
  = ["CREATE TABLE t (id INT)"; "CREATE INDEX i ON t (id)"]%string
  ∧ ∀ sql, Forall clean_statement (statements sql)
           ∧ statements (join (String semicolon EmptyString) (statements sql))
             = statements sql.
Proof.
  apply (statements_round_trip
           ["CREATE TABLE t (id INT)"; "CREATE INDEX i ON t (id)"]%string).
  repeat constructor; by vm_compute.
Defined.

Lemma load_schema_blank_file_witness :
  load_schema_from_file 0 schema_file
    (sample_world {[ schema_file := String newline " ; ;" ]})
  = (inr tt, sample_world {[ schema_file := String newline " ; ;" ]})
  ∧ (∀ text, statements text = [] ↔ all_chars blank_or_semicolon text = true).
Proof.
  apply (load_schema_blank_file 0 schema_file (String newline " ; ;")
           (sample_world {[ schema_file := String newline " ; ;" ]})).
  - reflexivity.
  - reflexivity.
Defined.
(** ** The upsert statement: other rows, and running it again *)

Lemma upsert_dom (t : table) (r : pbc_patient) :
  dom (upsert t r) = {[id r]} ∪ dom t.
Proof.
  unfold upsert. destruct (t !! id r); by rewrite dom_insert_L.
Qed.

Lemma foldl_upsert_dom (rows : list pbc_patient) (t : table) :
  dom (foldl upsert t rows) = dom t ∪ list_to_set (id <$> rows).
Proof.
  revert t. induction rows as [|r rows IH]; intros t; simpl.
  - set_solver.
  - rewrite IH, upsert_dom. set_solver.
Qed.

(** X8.  One upsert statement touches only the rows it names: a row
    whose identifier is not among the proposed ones is left as it was,
    no row is removed, and the identifiers of the table afterwards are
    the old ones together with the proposed ones. *)
Theorem insert_on_conflict_keeps_other_rows
    (t t' : table) (rows : list pbc_patient) :
  insert_on_conflict t rows = inr t' →
  (∀ k, k ∉ id <$> rows → t' !! k = t !! k)
  ∧ dom t' = dom t ∪ list_to_set (id <$> rows)
  ∧ dom t ⊆ dom t'.
Proof.
  unfold insert_on_conflict. case_decide; [|done]. intros [= <-].
  split; [intros k Hk; by apply foldl_upsert_lookup_other|].
  rewrite foldl_upsert_dom. split; [done|set_solver].
Qed.

Lemma foldl_upsert_stored (rows : list pbc_patient) (t : table) :
  wf_table t → (∀ r, r ∈ rows → t !! id r = Some r) →
  foldl upsert t rows = t.
Proof.
  intros Hwf. induction rows as [|r rows IH]; intros Hall; [done|].
  simpl. assert (Hr : upsert t r = t).
  { unfold upsert. rewrite (Hall r) by (by left).
    rewrite do_update_same_key by done. apply insert_id. apply Hall. by left. }
  rewrite Hr. apply IH. intros r' Hin. apply Hall. by right.
Qed.

(** X9.  The upsert statement can be run again: on the table it
    produced, the same statement with the same rows succeeds and
    changes nothing. *)
Theorem insert_on_conflict_idempotent
    (t t' : table) (rows : list pbc_patient) :
  wf_table t →
  insert_on_conflict t rows = inr t' →
  insert_on_conflict t' rows = inr t'.
Proof.
  intros Hwf Hins.
  assert (Hwf' : wf_table t') by eauto using insert_on_conflict_wf.
  assert (Hall : ∀ r, r ∈ rows → t' !! id r = Some r)
    by eauto using insert_on_conflict_lookup.
  unfold insert_on_conflict in *. case_decide; [|done].
  f_equal. by apply foldl_upsert_stored.
Qed.

Lemma insert_on_conflict_keeps_other_rows_witness :
  (∀ k, k ∉ id <$> [patient_second] →
        upsert (upsert ∅ patient_first) patient_second !! k
        = upsert ∅ patient_first !! k)
  ∧ dom (upsert (upsert ∅ patient_first) patient_second)
    = dom (upsert ∅ patient_first) ∪ list_to_set (id <$> [patient_second])
  ∧ dom (upsert ∅ patient_first)
    ⊆ dom (upsert (upsert ∅ patient_first) patient_second).
Proof.
  apply (insert_on_conflict_keeps_other_rows
           (upsert ∅ patient_first) _ [patient_second]).
  reflexivity.
Defined.

Lemma insert_on_conflict_idempotent_witness :
  insert_on_conflict (upsert ∅ patient_first) [patient_first]
  = inr (upsert ∅ patient_first).
Proof.
  apply (insert_on_conflict_idempotent ∅ _ [patient_first]).
  - exact wf_table_empty.
  - reflexivity.
Defined.
(** ** The converter and its files *)

Lemma convert_fails_on_read (w : world) (e : exn) :
  read_table "pbc.dat.txt" pbc_columns ["."%string]
    (set_stdout (λ out, out ++ [[Lit "Reading pbc.dat.txt..."]]) w)
  = (inl e, set_stdout (λ out, out ++ [[Lit "Reading pbc.dat.txt..."]]) w) →
  convert_pbc_to_csv w
  = (inl e, set_stdout (λ out, out ++ [[Lit "Reading pbc.dat.txt..."]]) w).
Proof.
  intros Hr. unfold convert_pbc_to_csv.
  rewrite (bind_run _ _ w
             (set_stdout (λ out, out ++ [[Lit "Reading pbc.dat.txt..."]]) w) tt)
    by reflexivity.
  unfold bind at 1. by rewrite Hr.
Qed.

(** The converter on any world: it fails exactly when the input does not
    read, and then it has only printed its first line. *)
Lemma convert_cases (w : world) :
  (∃ text f f_ml w',
     fs w !! "pbc.dat.txt"%string = Some text
     ∧ read_table_text pbc_columns ["."%string] text = inr f
     ∧ derive_ml f = inr f_ml
     ∧ convert_pbc_to_csv w = (inr (fresh (dom (heap w))), w')
     ∧ fs w' = <["pbc_ml_ready.csv"%string := to_csv_text f_ml]>
                 (<["pbc_data.csv"%string := to_csv_text f]> (fs w))
     ∧ heap w' !! fresh (dom (heap w)) = Some f)
  ∨ (∃ e,
       convert_pbc_to_csv w
       = (inl e, set_stdout (λ out, out ++ [[Lit "Reading pbc.dat.txt..."]]) w)
       ∧ match fs w !! "pbc.dat.txt"%string with
         | None => e = Raise FileNotFoundError "pbc.dat.txt"
         | Some text => read_table_text pbc_columns ["."%string] text = inl e
         end).
Proof.
  destruct (fs w !! "pbc.dat.txt"%string) as [text|] eqn:Hfs.
  - destruct (read_table_text pbc_columns ["."%string] text) as [e|f] eqn:Hread.
    + right. exists e. split; [|done]. apply convert_fails_on_read.
      unfold read_table, bind, read_file, lift_result. simpl.
      by rewrite Hfs, Hread.
    + left.
      destruct (read_table_text_wf _ _ _ _ NoDup_pbc_columns Hread) as [Hwf Hn].
      destruct (derive_ml_spec f Hwf Hn) as (? & ? & ? & ? & _ & _ & _ & _ & Hml).
      destruct (convert_run w text f _ Hfs Hread Hml) as (w' & Hrun & Hheap & Hfiles).
      eexists text, f, _, w'. repeat split; try done.
      rewrite Hheap, lookup_insert_ne by apply fresh_insert_ne.
      by rewrite lookup_insert_eq.
  - right. eexists. split; [|done]. apply convert_fails_on_read.
    unfold read_table, bind, read_file. simpl. by rewrite Hfs.
Qed.


(** X11.  Running the converter a second time changes no file: it reads
    the same input and rewrites both outputs with the same text. *)
Theorem convert_twice_same_files (w : world) :
  fs (convert_pbc_to_csv (convert_pbc_to_csv w).2).2
  = fs (convert_pbc_to_csv w).2.
Proof.
  destruct (convert_cases w)
    as [(text & f & f_ml & w1 & Hfs & Hread & Hml & -> & Hfiles & _)|(e & -> & He)];
    simpl.
  - assert (Hfs1 : fs w1 !! "pbc.dat.txt"%string = Some text).
    { rewrite Hfiles. by rewrite !lookup_insert_ne. }
    destruct (convert_run w1 text f f_ml Hfs1 Hread Hml) as (w2 & -> & _ & Hfiles2).
    simpl. rewrite Hfiles2, Hfiles.
    apply map_eq. intros path.
    destruct (decide (path = "pbc_ml_ready.csv"%string)) as [->|H1];
      [by rewrite !lookup_insert_eq|].
    rewrite !(lookup_insert_ne _ "pbc_ml_ready.csv"%string) by done.
    destruct (decide (path = "pbc_data.csv"%string)) as [->|H2];
      [by rewrite !lookup_insert_eq|].
    rewrite !(lookup_insert_ne _ "pbc_data.csv"%string) by done.
    by rewrite !lookup_insert_ne.
  - set (w1 := set_stdout _ w).
    destruct (convert_cases w1)
      as [(text & f & f_ml & w2 & Hfs & Hread & Hml & _)|(e' & -> & _)];
      [|done].
    exfalso. change (fs w1) with (fs w) in Hfs. rewrite Hfs in He. congruence.
Qed.
(** ** [get_survival_data]: what it needs and what it gives *)

(** A run of [get_survival_data] that returns, taken apart. *)
Lemma get_survival_data_inv
    (df : nat) (w w' : world) (f : DataFrame) (T E : column) (X : nat) :
  heap w !! df = Some f →
  get_survival_data df w = (inr (T, E, X), w') →
  ∃ sel fx,
    getitem "futime" f = inr T
    ∧ getitem "death_event" f = inr E
    ∧ getitem_list feature_cols f = inr sel
    ∧ heap w' !! X = Some fx
    ∧ fillna (FillSeries (frame_median sel)) sel = inr fx
    ∧ (∀ c, c ∈ feature_cols → assoc c (columns sel) = assoc c (columns f))
    ∧ (∀ c, c ∈ feature_cols → is_Some (assoc c (columns f))).
Proof.
  intros Hdf Hrun.
  assert (∃ sel, getitem "futime" f = inr T ∧ getitem "death_event" f = inr E
                 ∧ getitem_list feature_cols f = inr sel) as (sel & HT & HE & Hsel).
  { revert Hrun.
    unfold get_survival_data, getitem_ref, copy, bind, deref, lift_result.
    repeat (rewrite Hdf; simpl).
    destruct (getitem "futime" f) as [?|T']; [done|].
    repeat (rewrite Hdf; simpl).
    destruct (getitem "death_event" f) as [?|E']; [done|].
    repeat (rewrite Hdf; simpl).
    destruct (getitem_list feature_cols f) as [?|sel]; [done|]. simpl.
    repeat (rewrite lookup_insert_eq; simpl).
    intros [= <- <- _ _]. by exists sel. }
  destruct (get_survival_data_run df w f sel T E Hdf HT HE Hsel)
    as (X' & w'' & fx & Hrun' & HX & Hfill).
  rewrite Hrun in Hrun'. injection Hrun' as <- <-.
  exists sel, fx. repeat split; try done.
  - intros c Hc.
    unfold getitem_list in Hsel.
    destruct (select_columns feature_cols (columns f)) as [?|r] eqn:Hr; [done|].
    injection Hsel as <-. simpl.
    assert (Hall : ∀ c', c' ∈ feature_cols → c' ∈ (columns f).*1).
    { intros c' Hc'. destruct (decide (c' ∈ (columns f).*1)) as [|Hn]; [done|].
      destruct (select_columns_missing feature_cols (columns f)) as (? & _ & _ & Hbad).
      { by exists c'. }
      congruence. }
    destruct (select_columns_ok feature_cols (columns f) Hall) as (r' & Hr' & _ & Hassoc).
    rewrite Hr in Hr'. injection Hr' as <-. by apply Hassoc.
  - intros c Hc. apply assoc_Some_names.
    destruct (decide (c ∈ (columns f).*1)) as [|Hn]; [done|].
    destruct (select_columns_missing feature_cols (columns f)) as (? & _ & _ & Hbad).
    { by exists c. }
    unfold getitem_list in Hsel. by rewrite Hbad in Hsel.
Qed.

Lemma fill_cell_no_NaN (v : Qc) (c : column) : NaN ∉ fill_cell v <$> c.
Proof.
  intros ([q|] & Hx & _)%list_elem_of_fmap; discriminate Hx.
Qed.

(** X12.  What [get_survival_data] returns.  The duration and event
    vectors are the [futime] and [death_event] columns as stored,
    missing entries included: outcomes are not imputed.  In the feature
    matrix a missing entry survives in a column exactly when that column
    of the table has no value at all, so the matrix is complete as soon
    as every feature column holds one value. *)
Theorem get_survival_data_outputs
    (df : nat) (w w' : world) (f : DataFrame) (T E : column) (X : nat) :
  heap w !! df = Some f →
  get_survival_data df w = (inr (T, E, X), w') →
  assoc "futime" (columns f) = Some T
  ∧ assoc "death_event" (columns f) = Some E
  ∧ ∃ fx, heap w' !! X = Some fx
      ∧ (∀ c, c ∈ feature_cols →
           ∃ col col', assoc c (columns f) = Some col
             ∧ assoc c (columns fx) = Some col'
             ∧ (NaN ∈ col' ↔ NaN ∈ col ∧ present col = []))
      ∧ ((∀ c col, c ∈ feature_cols → assoc c (columns f) = Some col →
                   present col ≠ []) →
         ∀ c col', assoc c (columns fx) = Some col' → NaN ∉ col').
Proof.
  intros Hdf Hrun.
  destruct (get_survival_data_inv df w w' f T E X Hdf Hrun)
    as (sel & fx & HT & HE & Hsel & HX & Hfill & Hsame & Hhas).
  split.
  { unfold getitem in HT. destruct (assoc "futime" (columns f)); by simplify_eq. }
  split.
  { unfold getitem in HE. destruct (assoc "death_event" (columns f)); by simplify_eq. }
  exists fx. split; [done|].
  destruct (fillna_median_columns sel) as (fx' & Hfill' & _ & Hnames & Hcols).
  rewrite Hfill in Hfill'. injection Hfill' as <-.
  assert (Hper : ∀ c, c ∈ feature_cols →
            ∃ col col', assoc c (columns f) = Some col
              ∧ assoc c (columns fx) = Some col'
              ∧ (NaN ∈ col' ↔ NaN ∈ col ∧ present col = [])).
  { intros c Hc. destruct (Hhas c Hc) as [col Hcol].
    exists col. eexists. split; [done|].
    split; [apply Hcols; by rewrite Hsame|].
    destruct (median col) as [m|] eqn:Hm.
    - split; [by intros ?%fill_cell_no_NaN|].
      intros [_ Hnil]. apply median_None in Hnil. congruence.
    - split; [|by intros []]. intros Hin. split; [done|].
      destruct (decide (present col = [])) as [|Hne]; [done|].
      destruct (median_is_median col Hne) as (m & Hm' & _). congruence. }
  split; [exact Hper|].
  intros Hall c col' Hc'.
  assert (Hc : c ∈ feature_cols).
  { apply assoc_elem_of in Hc'.
    assert (c ∈ names fx) as Hin
      by (apply list_elem_of_fmap; by exists (c, col')).
    rewrite Hnames in Hin. unfold getitem_list in Hsel.
    destruct (select_columns feature_cols (columns f)) as [?|r] eqn:Hr; [done|].
    injection Hsel as <-.
    assert (Hall' : ∀ c', c' ∈ feature_cols → c' ∈ (columns f).*1).
    { intros c' Hc0. destruct (Hhas c' Hc0) as [col0 H0].
      apply assoc_elem_of in H0. apply list_elem_of_fmap. by exists (c', col0). }
    destruct (select_columns_ok feature_cols (columns f) Hall') as (r' & Hr' & Hn' & _).
    rewrite Hr in Hr'. injection Hr' as <-.
    unfold names in Hin. simpl in Hin. by rewrite Hn' in Hin. }
  destruct (Hper c Hc) as (col & col0 & Hcol & Hcol0 & Hiff).
  rewrite Hc' in Hcol0. injection Hcol0 as <-.
  intros [_ Hnil]%Hiff. by apply (Hall c col).
Qed.

Lemma get_survival_data_outputs_witness :
  assoc "futime" (columns frame_bili_gap) = Some [num 0; num 0; num 1; num 1]
  ∧ assoc "death_event" (columns frame_bili_gap) = Some [num 0; num 0; num 1; num 1]
  ∧ ∃ fx, heap (get_survival_data 0 world_bili_gap).2 !! 3%nat = Some fx
      ∧ (∀ c, c ∈ feature_cols →
           ∃ col col', assoc c (columns frame_bili_gap) = Some col
             ∧ assoc c (columns fx) = Some col'
             ∧ (NaN ∈ col' ↔ NaN ∈ col ∧ present col = []))
      ∧ ((∀ c col, c ∈ feature_cols → assoc c (columns frame_bili_gap) = Some col →
                   present col ≠ []) →
         ∀ c col', assoc c (columns fx) = Some col' → NaN ∉ col').
Proof.
  apply (get_survival_data_outputs 0 world_bili_gap
           (get_survival_data 0 world_bili_gap).2 frame_bili_gap
           [num 0; num 0; num 1; num 1] [num 0; num 0; num 1; num 1] 3).
  - reflexivity.
  - apply injective_projections; [by vm_compute|reflexivity].
Defined.
(** ** The table as read is not the ML-ready table *)

Lemma raw_frame_no_death_event (df : nat) (w : world) (f : DataFrame) :
  heap w !! df = Some f → wf_frame f → names f = pbc_columns →
  get_survival_data df w = (inl (Raise KeyError "death_event"), w)
  ∧ (print_dataset_summary df w).1 = inl (Raise KeyError "death_event").
Proof.
  intros Hdf Hwf Hn.
  destruct (getitem_ok "futime" f Hwf) as (T & HT & _).
  { rewrite Hn. by apply (bool_decide_unpack _). }
  assert (HE : getitem "death_event" f = inl (Raise KeyError "death_event")).
  { unfold getitem. rewrite assoc_None_names; [done|].
    fold (names f). rewrite Hn. by apply (bool_decide_unpack _). }
  split.
  - unfold get_survival_data, getitem_ref, bind, deref, lift_result.
    rewrite Hdf. simpl. rewrite HT. simpl. rewrite Hdf. simpl. by rewrite HE.
  - unfold print_dataset_summary, getitem_ref, bind, deref, lift_result, print,
      modify. cbn [fst snd heap set_stdout]. rewrite Hdf. cbn [heap set_stdout].
    rewrite Hdf. by rewrite HE.
Qed.

(** X13.  The DataFrame that [convert_pbc_to_csv] returns is the table
    as read, not the one with the derived columns: handed to
    [get_survival_data] or to [print_dataset_summary] it raises
    KeyError for [death_event], and [get_survival_data] leaves the world
    as it is. *)
Theorem converter_result_is_not_ml_ready
    (w : world) (text : string) (f : DataFrame) :
  fs w !! "pbc.dat.txt"%string = Some text →
  read_table_text pbc_columns ["."%string] text = inr f →
  ∃ df w',
    convert_pbc_to_csv w = (inr df, w')
    ∧ heap w' !! df = Some f
    ∧ get_survival_data df w' = (inl (Raise KeyError "death_event"), w')
    ∧ (print_dataset_summary df w').1 = inl (Raise KeyError "death_event").
Proof.
  intros Hfs Hread.
  destruct (read_table_text_wf _ _ _ _ NoDup_pbc_columns Hread) as [Hwf Hn].
  destruct (convert_cases w)
    as [(text' & f' & f_ml & w' & Hfs' & Hread' & Hml & Hrun & _ & Hheap)
       |(e & _ & He)].
  - rewrite Hfs in Hfs'. injection Hfs' as <-.
    rewrite Hread in Hread'. injection Hread' as <-.
    eexists _, w'. split; [exact Hrun|]. split; [exact Hheap|].
    by apply (raw_frame_no_death_event _ _ f).
  - rewrite Hfs in He. congruence.
Qed.

Lemma converter_result_is_not_ml_ready_witness :
  ∃ df w',
    convert_pbc_to_csv (sample_world {[ "pbc.dat.txt"%string := sample_row_2 ]})
    = (inr df, w')
    ∧ heap w' !! df = Some sample_frame_2
    ∧ get_survival_data df w' = (inl (Raise KeyError "death_event"), w')
    ∧ (print_dataset_summary df w').1 = inl (Raise KeyError "death_event").
Proof.
  apply (converter_result_is_not_ml_ready
           (sample_world {[ "pbc.dat.txt"%string := sample_row_2 ]})
           sample_row_2 sample_frame_2).
  - reflexivity.
  - exact sample_frame_2_read.
Defined.

(** ** [print_dataset_summary]: the columns it needs *)

Lemma getitem_missing (c : string) (f : DataFrame) :
  c ∉ names f → getitem c f = inl (Raise KeyError c).
Proof. intros Hc. unfold getitem. by rewrite assoc_None_names. Qed.

Lemma getitem_present (c : string) (f : DataFrame) :
  c ∈ names f → ∃ col, getitem c f = inr col.
Proof.
  intros Hc. destruct (assoc_Some_names c (columns f) Hc) as [col Hcol].
  exists col. by apply getitem_assoc.
Qed.

Lemma print_run (l : line) (w : world) :
  print l w = (inr tt, set_stdout (λ out, out ++ [l]) w).
Proof. reflexivity. Qed.

Lemma deref_run (l : nat) (f : DataFrame) (w : world) :
  heap w !! l = Some f → deref l w = (inr f, w).
Proof. intros H. unfold deref. by rewrite H. Qed.

Lemma getitem_ref_run (l : nat) (c : string) (f : DataFrame) (col : column)
    (w : world) :
  heap w !! l = Some f → getitem c f = inr col →
  getitem_ref l c w = (inr col, w).
Proof.
  intros H Hc. unfold getitem_ref, bind, deref, lift_result. by rewrite H, Hc.
Qed.

Lemma getitem_ref_missing (l : nat) (c : string) (f : DataFrame) (w : world) :
  heap w !! l = Some f → c ∉ names f →
  getitem_ref l c w = (inl (Raise KeyError c), w).
Proof.
  intros H Hc. unfold getitem_ref, bind, deref, lift_result.
  by rewrite H, getitem_missing.
Qed.

Lemma bind_raise {S A B} (m : M S A) (k : A → M S B) (s s' : S) (e : exn) :
  m s = (inl e, s') → bind m k s = (inl e, s').
Proof. intros H. unfold bind. by rewrite H. Qed.

Lemma set_stdout_app (l1 l2 : list line) (w : world) :
  set_stdout (λ out, out ++ l2) (set_stdout (λ out, out ++ l1) w)
  = set_stdout (λ out, out ++ (l1 ++ l2)) w.
Proof. unfold set_stdout. cbn [stdout]. by rewrite app_assoc. Qed.

Ltac run_print := rewrite (bind_run _ _ _ _ _ (print_run _ _)); cbv beta.

Ltac run_by tac := erewrite bind_run by tac; cbv beta.

(** With its four columns there, [print_dataset_summary] only prints. *)
Lemma print_dataset_summary_ok (df : nat) (w : world) (f : DataFrame) :
  heap w !! df = Some f →
  (∀ c, c ∈ summary_cols → c ∈ names f) →
  ∃ lines, print_dataset_summary df w
           = (inr tt, set_stdout (λ out, out ++ lines) w).
Proof.
  intros Hdf Hall.
  assert (Hd : ∀ l, deref df (set_stdout (λ out, out ++ l) w)
                    = (inr f, set_stdout (λ out, out ++ l) w))
    by (intros l; by apply deref_run).
  assert (Hg : ∀ c col l, getitem c f = inr col →
                 getitem_ref df c (set_stdout (λ out, out ++ l) w)
                 = (inr col, set_stdout (λ out, out ++ l) w))
    by (intros c col l Hc; by apply (getitem_ref_run _ _ f)).
  destruct (getitem_present "death_event" f) as [de Hde];
    [apply Hall; by apply (bool_decide_unpack _)|].
  destruct (getitem_present "status" f) as [st Hst];
    [apply Hall; by apply (bool_decide_unpack _)|].
  destruct (getitem_present "futime" f) as [fu Hfu];
    [apply Hall; by apply (bool_decide_unpack _)|].
  destruct (getitem_present "age_years" f) as [ay Hay];
    [apply Hall; by apply (bool_decide_unpack _)|].
  unfold print_dataset_summary.
  run_print. run_print. rewrite set_stdout_app.
  run_by ltac:(apply Hd). run_print. rewrite set_stdout_app.
  run_by ltac:(apply Hg; exact Hde). run_print. rewrite set_stdout_app.
  run_by ltac:(apply Hg; exact Hst). run_print. rewrite set_stdout_app.
  run_by ltac:(apply Hg; exact Hst). run_print. rewrite set_stdout_app.
  run_by ltac:(apply Hg; exact Hfu). run_print. rewrite set_stdout_app.
  run_by ltac:(apply Hg; exact Hay). run_by ltac:(apply Hg; exact Hay).
  run_print. rewrite set_stdout_app.
  run_print. rewrite set_stdout_app.
  run_by ltac:(apply Hd). rewrite print_run, set_stdout_app.
  by eexists.
Qed.

(** X14.  [print_dataset_summary] needs the columns [death_event],
    [status], [futime] and [age_years], in this order: when all four are
    there it returns normally and only prints; otherwise it raises
    KeyError for the first of them that is absent. *)
Theorem print_dataset_summary_needs_columns
    (df : nat) (w : world) (f : DataFrame) :
  heap w !! df = Some f →
  ((∀ c, c ∈ summary_cols → c ∈ names f) →
   ∃ lines, print_dataset_summary df w
            = (inr tt, set_stdout (λ out, out ++ lines) w))
  ∧ (∀ c rest, filter (λ c, c ∉ names f) summary_cols = c :: rest →
       (print_dataset_summary df w).1 = inl (Raise KeyError c)).
Proof.
  intros Hdf.
  assert (Hd : ∀ l, deref df (set_stdout (λ out, out ++ l) w)
                    = (inr f, set_stdout (λ out, out ++ l) w))
    by (intros l; by apply deref_run).
  assert (Hg : ∀ c col l, getitem c f = inr col →
                 getitem_ref df c (set_stdout (λ out, out ++ l) w)
                 = (inr col, set_stdout (λ out, out ++ l) w))
    by (intros c col l Hc; by apply (getitem_ref_run _ _ f)).
  assert (Hm : ∀ c l, c ∉ names f →
                 getitem_ref df c (set_stdout (λ out, out ++ l) w)
                 = (inl (Raise KeyError c), set_stdout (λ out, out ++ l) w))
    by (intros c l Hc; by apply (getitem_ref_missing _ _ f)).
  split; [by apply print_dataset_summary_ok|].
  intros c rest Hfirst.
  unfold summary_cols in Hfirst.
  unfold print_dataset_summary.
  run_print. run_print. rewrite set_stdout_app.
  run_by ltac:(apply Hd). run_print. rewrite set_stdout_app.
  destruct (decide ("death_event"%string ∈ names f)) as [H1|H1].
  2:{ rewrite filter_cons_True in Hfirst by done. injection Hfirst as <- _.
      by erewrite bind_raise by (by apply Hm). }
  rewrite filter_cons_False in Hfirst by (by intros ?).
  destruct (getitem_present _ _ H1) as [de Hde].
  run_by ltac:(apply Hg; exact Hde). run_print. rewrite set_stdout_app.
  destruct (decide ("status"%string ∈ names f)) as [H2|H2].
  2:{ rewrite filter_cons_True in Hfirst by done. injection Hfirst as <- _.
      by erewrite bind_raise by (by apply Hm). }
  rewrite filter_cons_False in Hfirst by (by intros ?).
  destruct (getitem_present _ _ H2) as [st Hst].
  run_by ltac:(apply Hg; exact Hst). run_print. rewrite set_stdout_app.
  run_by ltac:(apply Hg; exact Hst). run_print. rewrite set_stdout_app.
  destruct (decide ("futime"%string ∈ names f)) as [H3|H3].
  2:{ rewrite filter_cons_True in Hfirst by done. injection Hfirst as <- _.
      by erewrite bind_raise by (by apply Hm). }
  rewrite filter_cons_False in Hfirst by (by intros ?).
  destruct (getitem_present _ _ H3) as [fu Hfu].
  run_by ltac:(apply Hg; exact Hfu). run_print. rewrite set_stdout_app.
  destruct (decide ("age_years"%string ∈ names f)) as [H4|H4].
  2:{ rewrite filter_cons_True in Hfirst by done. injection Hfirst as <- _.
      by erewrite bind_raise by (by apply Hm). }
  rewrite filter_cons_False in Hfirst by (by intros ?).
  done.
Qed.
(** ** [load_pbc_data]: when the casts succeed *)









Lemma print_dataset_summary_needs_columns_witness :
  ((∀ c, c ∈ summary_cols → c ∈ names frame_bili_gap) →
   ∃ lines, print_dataset_summary 0 world_bili_gap
            = (inr tt, set_stdout (λ out, out ++ lines) world_bili_gap))
  ∧ (∀ c rest, filter (λ c, c ∉ names frame_bili_gap) summary_cols = c :: rest →
       (print_dataset_summary 0 world_bili_gap).1 = inl (Raise KeyError c)).
Proof.
  apply (print_dataset_summary_needs_columns 0 world_bili_gap frame_bili_gap).
  reflexivity.
Defined.
(** ** Any frame written by [to_csv] and read back *)

Lemma parse_render_float_carried (q : Qc) :
  parse_number (render_float q) = Some (carried q).
Proof.
  unfold render_float, carried. cbv zeta.
  set (k := default float_digits (scale_of q)).
  assert (Hp : 0 < 10 ^ Z.of_nat k) by (apply Z.pow_pos_nonneg; lia).
  assert (Hm : 0 <= Z.abs (Qnum q) * 10 ^ Z.of_nat k / Zpos (Qden q)).
  { apply Z.div_pos; [|lia]. lia. }
  pose proof (parse_unsigned_rendered k _ Hm) as Hparse.
  unfold sign_of. destruct (decide (Qnum q < 0)) as [Hs|Hs].
  - simpl parse_number. by rewrite Hparse.
  - rewrite parse_number_unsigned; [done|].
    apply int_digits_head. by apply Z.div_pos.
Qed.

Lemma carried_exact (q : Qc) : exact_decimal q → carried q = q.
Proof.
  intros Hq. pose proof (parse_render_float q Hq) as H1.
  rewrite parse_render_float_carried in H1. by injection H1.
Qed.

Lemma reread_cell_exact (b : bool) (x : cell) :
  exact_cell x → reread_cell b x = x.
Proof.
  destruct x as [q|]; [|done]. simpl. intros Hq.
  destruct b; [done|]. by rewrite carried_exact.
Qed.

Lemma parse_cell_render_any (c : column) (x : cell) :
  x ∈ c →
  parse_cell default_na (render_cell (int_column c) x)
  = inr (reread_cell (int_column c) x).
Proof.
  intros Hin. unfold parse_cell. destruct x as [q|]; [|reflexivity].
  rewrite decide_False by apply plain_not_na, render_cell_plain.
  simpl. destruct (int_column c) eqn:Hint.
  - rewrite parse_render_int; [done|].
    unfold int_column in Hint. rewrite forallb_forall in Hint.
    apply (Hint (Some q)). by apply list_elem_of_In.
  - by rewrite parse_render_float_carried.
Qed.

Lemma parse_cells_render_any (cols : list (string * column)) (i : nat) :
  Forall (λ c : string * column, is_Some (c.2 !! i)) cols →
  parse_cells default_na
    ((λ c : string * column,
        render_cell (int_column c.2) (default NaN (c.2 !! i))) <$> cols)
  = inr ((λ c : string * column,
            reread_cell (int_column c.2) (default NaN (c.2 !! i))) <$> cols).
Proof.
  induction cols as [|c cols IH]; intros Hall; [done|].
  apply Forall_cons in Hall as [[x Hx] Hall].
  rewrite !fmap_cons. unfold parse_cells; fold parse_cells.
  rewrite Hx. simpl default.
  rewrite parse_cell_render_any by (by eapply list_elem_of_lookup_2).
  by rewrite IH.
Qed.

Lemma row_values_reread (f : DataFrame) (i : nat) :
  Forall (λ c : string * column, is_Some (c.2 !! i)) (columns f) →
  row_values (reread_frame f) i
  = (λ c : string * column,
       reread_cell (int_column c.2) (default NaN (c.2 !! i))) <$> columns f.
Proof.
  intros Hall. unfold row_values, reread_frame. simpl.
  rewrite <- list_fmap_compose. apply Forall_fmap_ext_1.
  eapply Forall_impl; [exact Hall|]. intros c [x Hx]. simpl.
  by rewrite list_lookup_fmap, Hx.
Qed.

Lemma parse_record_render_any (f : DataFrame) (i : nat) :
  wf_frame f → (i < nrows f)%nat → columns f ≠ [] →
  parse_record default_na (length (names f))
    (split_on ","%char (render_row f i))
  = inr (row_values (reread_frame f) i).
Proof.
  intros [_ Hlen] Hi Hne. unfold render_row.
  assert (Hall : Forall (λ c : string * column, is_Some (c.2 !! i)) (columns f)).
  { rewrite Forall_forall in Hlen. apply Forall_forall. intros c Hc.
    apply lookup_lt_is_Some_2. rewrite (Hlen c Hc). lia. }
  rewrite split_join.
  - unfold parse_record. rewrite length_fmap. unfold names. rewrite length_fmap.
    rewrite decide_False by lia.
    rewrite parse_cells_render_any by done.
    rewrite row_values_reread by done.
    rewrite length_fmap, Nat.sub_diag. simpl. by rewrite app_nil_r.
  - by destruct (columns f).
  - apply Forall_fmap, Forall_forall. intros c _. simpl. apply render_cell_clean.
Qed.

Lemma parse_records_render_any (f : DataFrame) (idx : list nat) :
  wf_frame f → columns f ≠ [] →
  Forall (λ i, (i < nrows f)%nat) idx →
  parse_records default_na (length (names f))
    (split_on ","%char <$> (render_row f <$> idx))
  = inr (row_values (reread_frame f) <$> idx).
Proof.
  intros Hwf Hne. induction idx as [|i idx IH]; intros Hall; [done|].
  apply Forall_cons in Hall as [Hi Hall]. rewrite !fmap_cons.
  unfold parse_records; fold parse_records.
  rewrite parse_record_render_any by done. by rewrite IH.
Qed.

Lemma names_reread_frame (f : DataFrame) : names (reread_frame f) = names f.
Proof.
  unfold names, reread_frame. simpl. rewrite <- list_fmap_compose.
  by apply list_fmap_ext.
Qed.

Lemma wf_reread_frame (f : DataFrame) : wf_frame f → wf_frame (reread_frame f).
Proof.
  intros [Hnd Hlen]. split; [by rewrite names_reread_frame|].
  unfold reread_frame. simpl. apply Forall_fmap.
  eapply Forall_impl; [exact Hlen|]. intros c Hc. simpl.
  by rewrite length_fmap.
Qed.

Lemma assoc_reread_frame (f : DataFrame) (c : string) :
  assoc c (columns (reread_frame f))
  = (λ col, reread_cell (int_column col) <$> col) <$> assoc c (columns f).
Proof.
  unfold reread_frame. simpl.
  apply (assoc_fmap_snd (λ _ col, reread_cell (int_column col) <$> col)).
Qed.

(** The text that [to_csv] writes for any frame reads back: every cell
    comes back as the value of the numeral written for it. *)
Lemma read_csv_text_to_csv_text_any (f : DataFrame) :
  wf_frame f →
  (2 <= length (columns f))%nat →
  Forall plain_label (names f) →
  read_csv_text (to_csv_text f) = inr (reread_frame f).
Proof.
  intros Hwf Hn Hlabels.
  assert (Hnames : (2 <= length (names f))%nat)
    by (unfold names; by rewrite length_fmap).
  assert (Hcols : columns f ≠ []) by (destruct (columns f); simpl in *; [lia|done]).
  assert (Hnamesne : names f ≠ []) by (destruct (names f); simpl in *; [lia|done]).
  set (header := join "," (names f)).
  set (rows := render_row f <$> seq 0 (nrows f)).
  assert (Hlines : split_on newline (to_csv_text f) = (header :: rows) ++ [EmptyString]).
  { unfold to_csv_text. fold header. fold rows.
    rewrite split_on_app_sep. f_equal. apply split_join; [done|].
    constructor.
    - apply contains_join; [done|].
      eapply Forall_impl; [exact Hlabels|]. by intros s [_ ?].
    - apply Forall_fmap, Forall_forall. intros i _. by apply render_row_clean. }
  unfold read_csv_text. rewrite Hlines.
  rewrite filter_app, filter_all.
  2:{ constructor; [by apply join_nonempty|].
      apply Forall_fmap, Forall_forall. intros i _. by apply render_row_clean. }
  simpl app.
  assert (Hheader : split_on ","%char header = names f).
  { apply split_join; [done|].
    eapply Forall_impl; [exact Hlabels|]. by intros s [? _]. }
  cbv beta iota. rewrite Hheader.
  change (filter (λ l : string, l ≠ EmptyString) [EmptyString]) with (@nil string).
  rewrite app_nil_r.
  unfold rows. rewrite parse_records_render_any; [|done|done|].
  - change (row_values (reread_frame f) <$> seq 0 (nrows f))
      with (frame_values (reread_frame f)).
    rewrite <- (names_reread_frame f).
    by rewrite frame_of_records_values by (by apply wf_reread_frame).
  - apply Forall_forall. intros i Hi%elem_of_seq. lia.
Qed.
(** ** From the text file to the survival tuple, through the ML-ready file *)

Lemma Forall_assoc_set {A} (P : string * A → Prop) (k : string) (v : A)
    (l : list (string * A)) :
  Forall P l → P (k, v) → Forall P (assoc_set k v l).
Proof.
  intros Hl Hv. induction l as [|[k' v'] l IH]; simpl.
  - by constructor.
  - apply Forall_cons in Hl as [H1 Hl].
    case_decide; constructor; auto.
Qed.

(** The frame [df_ml] of the converter, column by column. *)
Lemma ml_frame_columns (f f_ml : DataFrame) :
  wf_frame f → names f = pbc_columns → derive_ml f = inr f_ml →
  wf_frame f_ml
  ∧ names f_ml = pbc_columns ++ derived_columns
  ∧ nrows f_ml = nrows f
  ∧ (∀ c, c ∈ pbc_columns → assoc c (columns f_ml) = assoc c (columns f))
  ∧ ∃ age st sx dr,
      assoc "age" (columns f) = Some age
      ∧ assoc "status" (columns f) = Some st
      ∧ assoc "sex" (columns f) = Some sx
      ∧ assoc "drug" (columns f) = Some dr
      ∧ assoc "age_years" (columns f_ml) = Some (div_scalar days_per_year age)
      ∧ assoc "death_event" (columns f_ml) = Some (eq_scalar_int (Q2Qc 2) st)
      ∧ assoc "male" (columns f_ml) = Some (eq_scalar_int (Q2Qc 0) sx)
      ∧ assoc "female" (columns f_ml) = Some (eq_scalar_int (Q2Qc 1) sx)
      ∧ assoc "drug_treatment" (columns f_ml) = Some (eq_scalar_int (Q2Qc 1) dr).
Proof.
  intros Hwf Hnames Hml.
  destruct (derive_ml_spec f Hwf Hnames)
    as (age & st & sx & dr & Hage & Hst & Hsx & Hdr & Hml').
  rewrite Hml in Hml'. injection Hml' as ->.
  pose proof (wf_column_length _ _ _ Hwf Hage) as Lage.
  pose proof (wf_column_length _ _ _ Hwf Hst) as Lst.
  pose proof (wf_column_length _ _ _ Hwf Hsx) as Lsx.
  pose proof (wf_column_length _ _ _ Hwf Hdr) as Ldr.
  assert (Hn : names
                 (mkFrame (nrows f)
                    (assoc_set "drug_treatment" (eq_scalar_int (Q2Qc 1) dr)
                    (assoc_set "female" (eq_scalar_int (Q2Qc 1) sx)
                    (assoc_set "male" (eq_scalar_int (Q2Qc 0) sx)
                    (assoc_set "death_event" (eq_scalar_int (Q2Qc 2) st)
                    (assoc_set "age_years" (div_scalar days_per_year age)
                       (columns f)))))))
               = pbc_columns ++ derived_columns).
  { unfold names in *. cbn [columns].
    change (pbc_columns ++ derived_columns)
      with (((((pbc_columns ++ ["age_years"%string]) ++ ["death_event"%string])
                ++ ["male"%string]) ++ ["female"%string])
              ++ ["drug_treatment"%string]).
    repeat (apply names_assoc_set_snoc; [|by apply (bool_decide_unpack _)]).
    exact Hnames. }
  split.
  { split.
    - rewrite Hn. by apply (bool_decide_unpack _).
    - cbn [columns nrows]. destruct Hwf as [_ Hlen].
      repeat (apply Forall_assoc_set;
              [|simpl; unfold eq_scalar_int, div_scalar; by rewrite length_fmap]).
      exact Hlen. }
  split; [exact Hn|]. split; [done|].
  split.
  { intros c Hc. cbn [columns].
    assert (Hne : ∀ d, d ∈ derived_columns → d ≠ c).
    { intros d Hd ->.
      assert (NoDup (pbc_columns ++ derived_columns)) as Hnd
        by (by apply (bool_decide_unpack _)).
      apply NoDup_app in Hnd as (_ & Hdis & _). by apply (Hdis c). }
    rewrite !assoc_assoc_set_ne; [done|..]; apply Hne;
      by apply (bool_decide_unpack _). }
  exists age, st, sx, dr. cbn [columns].
  repeat split; try done.
  - rewrite !assoc_assoc_set_ne by done. apply assoc_assoc_set_eq.
  - rewrite !assoc_assoc_set_ne by done. apply assoc_assoc_set_eq.
  - rewrite !assoc_assoc_set_ne by done. apply assoc_assoc_set_eq.
  - rewrite !assoc_assoc_set_ne by done. apply assoc_assoc_set_eq.
  - apply assoc_assoc_set_eq.
Qed.

Lemma reread_column_exact (b : bool) (col : column) :
  Forall exact_cell col → reread_cell b <$> col = col.
Proof.
  intros Hall. rewrite <- (list_fmap_id col) at 2.
  apply Forall_fmap_ext_1. eapply Forall_impl; [exact Hall|].
  intros x Hx. by apply reread_cell_exact.
Qed.

Lemma eq_scalar_int_exact (k : Qc) (c : column) :
  Forall exact_cell (eq_scalar_int k c) ∧ Forall code_cell (eq_scalar_int k c).
Proof.
  unfold eq_scalar_int. split; apply Forall_fmap, Forall_forall; intros x _; simpl.
  - destruct x as [q|]; [case_decide|]; apply exact_decimal_integer.
  - destruct x as [q|]; [case_decide|]; reflexivity.
Qed.

Lemma exact_frame_assoc (f : DataFrame) (c : string) (col : column) :
  exact_frame f → assoc c (columns f) = Some col → Forall exact_cell col.
Proof.
  intros Hex Hc. apply assoc_elem_of in Hc. unfold exact_frame in Hex.
  rewrite Forall_forall in Hex. by apply (Hex (c, col)).
Qed.

(** The converter followed by [load_pbc_data] on the ML-ready file. *)
Lemma ml_ready_loads (w : world) (text : string) (f : DataFrame) :
  fs w !! "pbc.dat.txt"%string = Some text →
  read_table_text pbc_columns ["."%string] text = inr f →
  short_fields text →
  categorical_ok f →
  ∃ f_ml df w1 ldf w2,
    derive_ml f = inr f_ml
    ∧ convert_pbc_to_csv w = (inr df, w1)
    ∧ load_pbc_data "pbc_ml_ready.csv" w1 = (inr ldf, w2)
    ∧ heap w2 !! ldf = Some (reread_frame f_ml)
    ∧ wf_frame (reread_frame f_ml)
    ∧ names (reread_frame f_ml) = pbc_columns ++ derived_columns
    ∧ (∀ c, c ∈ pbc_columns →
         assoc c (columns (reread_frame f_ml)) = assoc c (columns f))
    ∧ (∀ c col, c ∈ ["death_event"; "male"; "female"; "drug_treatment"]%string →
         assoc c (columns f_ml) = Some col →
         assoc c (columns (reread_frame f_ml)) = Some col).
Proof.
  intros Hfs Hread Hshort Hcat.
  destruct (read_table_text_wf _ _ _ _ NoDup_pbc_columns Hread) as [Hwf Hn].
  pose proof (read_table_text_exact _ _ _ _ Hread Hshort) as Hex.
  destruct (derive_ml_spec f Hwf Hn) as (? & ? & ? & ? & _ & _ & _ & _ & Hml).
  destruct (ml_frame_columns f _ Hwf Hn Hml)
    as (Hwf_ml & Hn_ml & Hrows & Hsame & age & st & sx & dr
        & Hage & Hst & Hsx & Hdr & Hay & Hde & Hma & Hfe & Hdt).
  set (f_ml := mkFrame _ _) in *.
  destruct (convert_run w text f f_ml Hfs Hread Hml) as (w1 & Hrun & Hheap & Hfiles).
  assert (Hcsv : read_csv_text (to_csv_text f_ml) = inr (reread_frame f_ml)).
  { apply read_csv_text_to_csv_text_any; [done| |].
    - change (length (columns f_ml)) with (length (names f_ml)) || idtac.
      assert (length (names f_ml) = 25%nat) as Hlen by (by rewrite Hn_ml).
      unfold names in Hlen. rewrite length_fmap in Hlen. lia.
    - rewrite Hn_ml. repeat constructor. }
  assert (Hpbc : ∀ c, c ∈ pbc_columns →
            assoc c (columns (reread_frame f_ml)) = assoc c (columns f)).
  { intros c Hc. rewrite assoc_reread_frame, (Hsame c Hc).
    destruct (assoc c (columns f)) as [col|] eqn:Hcol; [|done]. simpl.
    f_equal. apply reread_column_exact. by eapply exact_frame_assoc. }
  assert (Hind : ∀ c col,
            c ∈ ["death_event"; "male"; "female"; "drug_treatment"]%string →
            assoc c (columns f_ml) = Some col →
            assoc c (columns (reread_frame f_ml)) = Some col).
  { intros c col Hc Hcol. rewrite assoc_reread_frame, Hcol. simpl. f_equal.
    apply reread_column_exact.
    repeat (apply elem_of_cons in Hc as [->|Hc]);
      [| | | |by apply elem_of_nil in Hc];
      [rewrite Hde in Hcol|rewrite Hma in Hcol|rewrite Hfe in Hcol
      |rewrite Hdt in Hcol];
      injection Hcol as <-; apply eq_scalar_int_exact. }
  assert (Hcat' : categorical_ok (reread_frame f_ml)).
  { intros c col Hc Hcol.
    repeat (apply elem_of_cons in Hc as [->|Hc]);
      [..|by apply elem_of_nil in Hc].
    1-6: (rewrite Hpbc in Hcol by (by apply (bool_decide_unpack _));
          eapply Hcat; [|exact Hcol]; by apply (bool_decide_unpack _)).
    - erewrite Hind in Hcol; [|by apply (bool_decide_unpack _)|exact Hde].
      injection Hcol as <-. apply eq_scalar_int_exact.
    - erewrite Hind in Hcol; [|by apply (bool_decide_unpack _)|exact Hma].
      injection Hcol as <-. apply eq_scalar_int_exact.
    - erewrite Hind in Hcol; [|by apply (bool_decide_unpack _)|exact Hfe].
      injection Hcol as <-. apply eq_scalar_int_exact.
    - erewrite Hind in Hcol; [|by apply (bool_decide_unpack _)|exact Hdt].
      injection Hcol as <-. apply eq_scalar_int_exact. }
  assert (Hfs1 : fs w1 !! "pbc_ml_ready.csv"%string = Some (to_csv_text f_ml))
    by (by rewrite Hfiles, lookup_insert_eq).
  pose proof (load_pbc_data_run w1 _ _ _ Hfs1 Hcsv
                (wf_reread_frame _ Hwf_ml) Hcat') as Hload.
  eexists f_ml, _, w1, _, _. split; [exact Hml|]. split; [exact Hrun|].
  split; [exact Hload|]. split; [simpl; by rewrite lookup_insert_eq|].
  split; [by apply wf_reread_frame|].
  split; [by rewrite names_reread_frame|]. done.
Qed.
(** X16.  The ML-ready file loads.  For a table of valid records (fields
    with at most [float_digits] digits after the point, categorical
    fields codes or missing), [load_pbc_data] on the pbc_ml_ready.csv
    that the converter wrote returns a table with the 20 columns as
    read followed by the five derived columns, one row per record: the
    20 columns and the four indicators hold exactly the values the
    converter computed, and [age_years] is present exactly where [age]
    is. *)
Theorem ml_ready_file_loads (w : world) (text : string) (f : DataFrame) :
  fs w !! "pbc.dat.txt"%string = Some text →
  read_table_text pbc_columns ["."%string] text = inr f →
  short_fields text →
  categorical_ok f →
  ∃ df w1 ldf w2 g,
    convert_pbc_to_csv w = (inr df, w1)
    ∧ load_pbc_data "pbc_ml_ready.csv" w1 = (inr ldf, w2)
    ∧ heap w2 !! ldf = Some g
    ∧ names g = pbc_columns ++ derived_columns
    ∧ nrows g = nrows f
    ∧ (∀ c, c ∈ pbc_columns → assoc c (columns g) = assoc c (columns f))
    ∧ ∃ age st sx dr ay,
        assoc "age" (columns f) = Some age
        ∧ assoc "status" (columns f) = Some st
        ∧ assoc "sex" (columns f) = Some sx
        ∧ assoc "drug" (columns f) = Some dr
        ∧ assoc "death_event" (columns g) = Some (eq_scalar_int (Q2Qc 2) st)
        ∧ assoc "male" (columns g) = Some (eq_scalar_int (Q2Qc 0) sx)
        ∧ assoc "female" (columns g) = Some (eq_scalar_int (Q2Qc 1) sx)
        ∧ assoc "drug_treatment" (columns g) = Some (eq_scalar_int (Q2Qc 1) dr)
        ∧ assoc "age_years" (columns g) = Some ay
        ∧ length ay = length age
        ∧ ∀ i, ay !! i = Some NaN ↔ age !! i = Some NaN.
Proof.
  intros Hfs Hread Hshort Hcat.
  destruct (ml_ready_loads w text f Hfs Hread Hshort Hcat)
    as (f_ml & df & w1 & ldf & w2 & Hml & Hrun & Hload & Hg & Hwfg & Hng
        & Hpbc & Hind).
  destruct (read_table_text_wf _ _ _ _ NoDup_pbc_columns Hread) as [Hwf Hn].
  destruct (ml_frame_columns f f_ml Hwf Hn Hml)
    as (_ & _ & Hrows & _ & age & st & sx & dr
        & Hage & Hst & Hsx & Hdr & Hay & Hde & Hma & Hfe & Hdt).
  exists df, w1, ldf, w2, (reread_frame f_ml).
  split; [done|]. split; [done|]. split; [done|]. split; [done|].
  split; [done|]. split; [done|].
  exists age, st, sx, dr. eexists.
  split; [done|]. split; [done|]. split; [done|]. split; [done|].
  split; [apply Hind; [by apply (bool_decide_unpack _)|done]|].
  split; [apply Hind; [by apply (bool_decide_unpack _)|done]|].
  split; [apply Hind; [by apply (bool_decide_unpack _)|done]|].
  split; [apply Hind; [by apply (bool_decide_unpack _)|done]|].
  split; [by rewrite assoc_reread_frame, Hay|].
  unfold div_scalar. split; [by rewrite !length_fmap|].
  intros i. rewrite !list_lookup_fmap.
  destruct (age !! i) as [[q|]|]; simpl; split; intros H; by simplify_eq.
Qed.


Lemma ml_ready_file_loads_witness :
  ∃ df w1 ldf w2 g,
    convert_pbc_to_csv (sample_world {[ "pbc.dat.txt"%string := sample_row_2 ]})
    = (inr df, w1)
    ∧ load_pbc_data "pbc_ml_ready.csv" w1 = (inr ldf, w2)
    ∧ heap w2 !! ldf = Some g
    ∧ names g = pbc_columns ++ derived_columns
    ∧ nrows g = nrows sample_frame_2
    ∧ (∀ c, c ∈ pbc_columns →
         assoc c (columns g) = assoc c (columns sample_frame_2))
    ∧ ∃ age st sx dr ay,
        assoc "age" (columns sample_frame_2) = Some age
        ∧ assoc "status" (columns sample_frame_2) = Some st
        ∧ assoc "sex" (columns sample_frame_2) = Some sx
        ∧ assoc "drug" (columns sample_frame_2) = Some dr
        ∧ assoc "death_event" (columns g) = Some (eq_scalar_int (Q2Qc 2) st)
        ∧ assoc "male" (columns g) = Some (eq_scalar_int (Q2Qc 0) sx)
        ∧ assoc "female" (columns g) = Some (eq_scalar_int (Q2Qc 1) sx)
        ∧ assoc "drug_treatment" (columns g) = Some (eq_scalar_int (Q2Qc 1) dr)
        ∧ assoc "age_years" (columns g) = Some ay
        ∧ length ay = length age
        ∧ ∀ i, ay !! i = Some NaN ↔ age !! i = Some NaN.
Proof.
  apply (ml_ready_file_loads
           (sample_world {[ "pbc.dat.txt"%string := sample_row_2 ]})
           sample_row_2 sample_frame_2).
  - reflexivity.
  - exact sample_frame_2_read.
  - exact sample_row_2_short.
  - exact sample_frame_2_categorical.
Defined.

(** ** Imputation and the median *)

Lemma Qc_two : Q2Qc 2 = (1 + 1)%Qc.
Proof. by apply Qc_is_canon. Qed.

Lemma half_double (a : Qc) : ((a + a) / Q2Qc 2)%Qc = a.
Proof.
  replace (a + a)%Qc with (a * Q2Qc 2)%Qc by (rewrite Qc_two; ring).
  by apply Qcdiv_mult_l.
Qed.

(** The average of two values lies between them. *)
Lemma mid_between (a b : Qc) :
  (a <= b)%Qc → (a <= (a + b) / Q2Qc 2)%Qc ∧ ((a + b) / Q2Qc 2 <= b)%Qc.
Proof.
  intros Hab.
  assert (H0 : (Q2Qc 0 <= / Q2Qc 2)%Qc) by done.
  split.
  - rewrite <- (half_double a) at 1. unfold Qcdiv.
    apply Qcmult_le_compat_r; [|done]. by apply Qcplus_le_compat.
  - rewrite <- (half_double b) at 2. unfold Qcdiv.
    apply Qcmult_le_compat_r; [|done]. by apply Qcplus_le_compat.
Qed.

Lemma odd_half (n : nat) : Nat.odd n = true → n = (2 * (n / 2) + 1)%nat.
Proof.
  intros [m Hm]%Nat.odd_spec.
  pose proof (Nat.div_mod_eq n 2). pose proof (Nat.mod_upper_bound n 2). lia.
Qed.

Lemma even_half (n : nat) : Nat.odd n = false → n = (2 * (n / 2))%nat.
Proof.
  intros H. rewrite <- Nat.negb_even in H.
  apply negb_false_iff, Nat.even_spec in H. destruct H as [m Hm].
  pose proof (Nat.div_mod_eq n 2). pose proof (Nat.mod_upper_bound n 2). lia.
Qed.

(** Filling the missing entries with [m] adds copies of [m] to the
    present values. *)
Lemma present_fill_cell (m : Qc) (col : column) :
  ∃ k, present (fill_cell m <$> col) ≡ₚ present col ++ replicate k m.
Proof.
  induction col as [|[q|] col [k IH]].
  - by exists 0%nat.
  - exists k. change (q :: present (fill_cell m <$> col)
                     ≡ₚ q :: (present col ++ replicate k m)).
    by constructor.
  - exists (S k). change (m :: present (fill_cell m <$> col)
                         ≡ₚ present col ++ m :: replicate k m).
    rewrite IH. apply Permutation_middle.
Qed.

Lemma sorted_lookup_le (s : list Qc) (i j : nat) (u v : Qc) :
  StronglySorted Qcle s → (i ≤ j)%nat →
  s !! i = Some u → s !! j = Some v → (u <= v)%Qc.
Proof.
  intros Hs Hij Hu Hv.
  destruct (decide (i = j)) as [->|Hne].
  - rewrite Hu in Hv. injection Hv as ->. apply Qcle_refl.
  - rewrite <- (take_drop j s) in Hs.
    eapply StronglySorted_app_1_elem_of; [exact Hs| |].
    + apply list_elem_of_lookup. exists i. rewrite lookup_take_lt by lia. done.
    + apply list_elem_of_lookup. exists 0%nat. rewrite lookup_drop.
      by rewrite Nat.add_0_r.
Qed.

Lemma StronglySorted_replicate (k : nat) (m : Qc) :
  StronglySorted Qcle (replicate k m).
Proof.
  induction k as [|k IH]; simpl; constructor; [done|].
  apply Forall_forall. intros x ->%elem_of_replicate_inv. apply Qcle_refl.
Qed.

(** Copies of the median, put in the middle of the ordered values, keep
    them ordered and keep the median. *)
Lemma median_sorted_insert (s : list Qc) (m : Qc) (k : nat) :
  StronglySorted Qcle s →
  median_sorted s = Some m →
  StronglySorted Qcle
    (take (length s / 2) s ++ replicate k m ++ drop (length s / 2) s)
  ∧ median_sorted
      (take (length s / 2) s ++ replicate k m ++ drop (length s / 2) s)
    = Some m.
Proof.
  intros Hs Hmed.
  set (n := length s). set (h := (n / 2)%nat).
  assert (Hn : n ≠ 0%nat).
  { intros H0. unfold median_sorted in Hmed. fold n in Hmed.
    by rewrite decide_True in Hmed. }
  assert (Hh : (h < n)%nat) by (apply Nat.div_lt; lia).
  assert (Hhdef : h = (n / 2)%nat) by reflexivity.
  clearbody h.
  assert (Hbounds : (∀ x, x ∈ take h s → (x <= m)%Qc)
                    ∧ (∀ y, y ∈ drop h s → (m <= y)%Qc)
                    ∧ (Nat.odd n = true → s !! h = Some m)).
  { unfold median_sorted in Hmed. fold n in Hmed.
    rewrite decide_False in Hmed by done. cbv zeta in Hmed.
    fold n in Hmed. rewrite <- Hhdef in Hmed.
    destruct (Nat.odd n) eqn:Hodd.
    - split; [|split; [|done]].
      + intros x (i & Hi & Hlt)%elem_of_take.
        apply (sorted_lookup_le s i h); [done|lia|done|done].
      + intros y [j Hj]%list_elem_of_lookup. rewrite lookup_drop in Hj.
        apply (sorted_lookup_le s h (h + j)); [done|lia|done|done].
    - destruct (s !! (h - 1)%nat) as [a|] eqn:Ha; [|done].
      destruct (s !! h) as [b|] eqn:Hb; [|done].
      injection Hmed as <-.
      assert (Hab : (a <= b)%Qc)
        by (apply (sorted_lookup_le s (h - 1) h); [done|lia|done|done]).
      destruct (mid_between a b Hab) as [Hlo Hhi].
      split; [|split; [|done]].
      + intros x (i & Hi & Hlt)%elem_of_take.
        eapply Qcle_trans; [|exact Hlo].
        apply (sorted_lookup_le s i (h - 1)); [done|lia|done|done].
      + intros y [j Hj]%list_elem_of_lookup. rewrite lookup_drop in Hj.
        eapply Qcle_trans; [exact Hhi|].
        apply (sorted_lookup_le s h (h + j)); [done|lia|done|done]. }
  destruct Hbounds as (Hlow & Hhigh & Hmid).
  assert (Hparts : StronglySorted Qcle (take h s) ∧ StronglySorted Qcle (drop h s)).
  { rewrite <- (take_drop h s) in Hs.
    split; [by eapply StronglySorted_app_1_l|by eapply StronglySorted_app_1_r]. }
  destruct Hparts as [Htake Hdrop].
  split.
  { apply StronglySorted_app_2; [|done|].
    - intros x y Hx [->%elem_of_replicate_inv|Hy]%elem_of_app; [by apply Hlow|].
      eapply Qcle_trans; [by apply Hlow|by apply Hhigh].
    - apply StronglySorted_app_2; [|apply StronglySorted_replicate|done].
      intros x y ->%elem_of_replicate_inv Hy. by apply Hhigh. }
  destruct k as [|k].
  { simpl. by rewrite take_drop. }
  set (L := take h s ++ replicate (S k) m ++ drop h s).
  assert (Hlen_take : length (take h s) = h) by (rewrite length_take; lia).
  assert (HlenL : length L = (n + S k)%nat).
  { unfold L. rewrite !length_app, Hlen_take, length_replicate, length_drop.
    fold n. lia. }
  assert (Hblock : ∀ i, (h ≤ i)%nat →
            (i < h + S k)%nat ∨ (Nat.odd n = true ∧ i = (h + S k)%nat) →
            L !! i = Some m).
  { intros i Hi Hcase. unfold L.
    rewrite lookup_app_r by lia. rewrite Hlen_take.
    destruct Hcase as [Hlt|[Hodd ->]].
    - rewrite lookup_app_l by (rewrite length_replicate; lia).
      apply lookup_replicate_2. lia.
    - rewrite lookup_app_r by (rewrite length_replicate; lia).
      rewrite length_replicate, lookup_drop.
      replace (h + (h + S k - h - S k))%nat with h by lia. by apply Hmid. }
  unfold median_sorted. rewrite HlenL.
  rewrite decide_False by lia. cbv zeta.
  assert (Hpar : n = (2 * h + 1)%nat ∧ Nat.odd n = true
                 ∨ n = (2 * h)%nat ∧ Nat.odd n = false).
  { destruct (Nat.odd n) eqn:Hoddn;
      [pose proof (odd_half _ Hoddn)|pose proof (even_half _ Hoddn)];
      rewrite <- Hhdef in *; [left|right]; done. }
  assert (Hidx : ∀ i, (h ≤ i)%nat → (i ≤ h + S k)%nat →
            (Nat.odd n = false → i < h + S k)%nat → L !! i = Some m).
  { intros i H1 H2 H3. apply Hblock; [done|].
    destruct (decide (i < h + S k)%nat); [by left|right].
    split; [|lia]. destruct (Nat.odd n); [done|]. specialize (H3 eq_refl). lia. }
  destruct (Nat.odd (n + S k)) eqn:HoddN.
  - pose proof (odd_half _ HoddN) as HN.
    apply Hidx; destruct Hpar as [[Hp Ho]|[Hp Ho]]; rewrite ?Ho; try done; lia.
  - pose proof (even_half _ HoddN) as HN.
    rewrite !Hidx;
      try (destruct Hpar as [[Hp Ho]|[Hp Ho]]; rewrite ?Ho; try done; lia).
    by rewrite half_double.
Qed.
(** Filling the missing entries of a column with its median leaves the
    median where it was. *)
Lemma median_fill_cell (col : column) (m : Qc) :
  median col = Some m → median (fill_cell m <$> col) = Some m.
Proof.
  intros Hmed. unfold median in *.
  set (s := merge_sort Qcle (present col)) in *.
  assert (Hs : StronglySorted Qcle s)
    by apply (StronglySorted_merge_sort Qcle).
  destruct (present_fill_cell m col) as [k Hperm].
  destruct (median_sorted_insert s m k Hs Hmed) as [Hsorted Hmid].
  rewrite <- Hmid. f_equal.
  apply (StronglySorted_unique Qcle);
    [apply (StronglySorted_merge_sort Qcle)|exact Hsorted|].
  rewrite merge_sort_Permutation, Hperm.
  rewrite <- (merge_sort_Permutation Qcle (present col)). fold s.
  rewrite <- (take_drop (length s / 2) s) at 1.
  rewrite <- app_assoc. f_equiv. apply Permutation_app_comm.
Qed.

(** X18.  Imputation does not move the medians: in the feature matrix
    that [get_survival_data] returns, every column has the median that
    the same column of the input table has (none, when the column holds
    no value). *)
Theorem get_survival_data_keeps_medians
    (df : nat) (w w' : world) (f : DataFrame) (T E : column) (X : nat) :
  heap w !! df = Some f →
  get_survival_data df w = (inr (T, E, X), w') →
  ∃ fx, heap w' !! X = Some fx
    ∧ ∀ c, c ∈ feature_cols →
        ∃ col col', assoc c (columns f) = Some col
          ∧ assoc c (columns fx) = Some col'
          ∧ median col' = median col.
Proof.
  intros Hdf Hrun.
  destruct (get_survival_data_inv df w w' f T E X Hdf Hrun)
    as (sel & fx & HT & HE & Hsel & HX & Hfill & Hsame & Hhas).
  exists fx. split; [done|].
  destruct (fillna_median_columns sel) as (fx' & Hfill' & _ & _ & Hcols).
  rewrite Hfill in Hfill'. injection Hfill' as <-.
  intros c Hc. destruct (Hhas c Hc) as [col Hcol].
  exists col. eexists. split; [done|].
  split; [apply Hcols; by rewrite Hsame|].
  destruct (median col) as [m|] eqn:Hm; [|done].
  by apply median_fill_cell.
Qed.

Lemma get_survival_data_keeps_medians_witness :
  ∃ fx, heap (get_survival_data 0 world_bili_gap).2 !! 3%nat = Some fx
    ∧ ∀ c, c ∈ feature_cols →
        ∃ col col', assoc c (columns frame_bili_gap) = Some col
          ∧ assoc c (columns fx) = Some col'
          ∧ median col' = median col.
Proof.
  apply (get_survival_data_keeps_medians 0 world_bili_gap
           (get_survival_data 0 world_bili_gap).2 frame_bili_gap
           [num 0; num 0; num 1; num 1] [num 0; num 0; num 1; num 1] 3).
  - reflexivity.
  - apply injective_projections; [by vm_compute|reflexivity].
Defined.
(** ** The counts of the summary *)

Lemma Q2Qc_inject_plus (a b : Z) :
  (Q2Qc (inject_Z a) + Q2Qc (inject_Z b))%Qc = Q2Qc (inject_Z (a + b)).
Proof.
  apply Qc_is_canon. simpl. rewrite !Qred_correct. by rewrite inject_Z_plus.
Qed.

(** Summing an indicator column counts the rows that hold the code. *)
Lemma col_sum_indicator (k : Z) (c : column) :
  col_sum (eq_scalar_int (Q2Qc (inject_Z k)) c)
  = Q2Qc (inject_Z (count_code k c)).
Proof.
  unfold col_sum, count_code. induction c as [|x c IH]; [done|].
  assert (Hstep : ∀ v : Z,
    foldr Qcplus (Q2Qc 0) (present (num v :: eq_scalar_int (Q2Qc (inject_Z k)) c))
    = (Q2Qc (inject_Z v)
       + foldr Qcplus (Q2Qc 0) (present (eq_scalar_int (Q2Qc (inject_Z k)) c)))%Qc)
    by reflexivity.
  change (eq_scalar_int _ (x :: c))
    with ((match x with
           | Some q => if decide (q = Q2Qc (inject_Z k)) then num 1 else num 0
           | None => num 0
           end) :: eq_scalar_int (Q2Qc (inject_Z k)) c).
  destruct x as [q|].
  - case_decide as Hq.
    + subst q. rewrite Hstep, IH, Q2Qc_inject_plus.
      rewrite filter_cons_True by done. simpl length. do 2 f_equal. lia.
    + rewrite Hstep, IH, Q2Qc_inject_plus.
      rewrite filter_cons_False by (intros [= ->]; by apply Hq). done.
  - rewrite Hstep, IH, Q2Qc_inject_plus.
    rewrite filter_cons_False by done. done.
Qed.

Lemma count_codes_bound (c : column) :
  count_code 2 c + count_code 1 c + count_code 0 c <= Z.of_nat (length c).
Proof.
  unfold count_code. induction c as [|x c IH]; [done|].
  simpl length.
  destruct (decide (x = num 2)) as [->|H2].
  { rewrite filter_cons_True by done.
    rewrite !(filter_cons_False (λ x, x = num 1)) by done.
    rewrite !(filter_cons_False (λ x, x = num 0)) by done. simpl length. lia. }
  rewrite (filter_cons_False (λ x, x = num 2)) by done.
  destruct (decide (x = num 1)) as [->|H1].
  { rewrite filter_cons_True by done.
    rewrite !(filter_cons_False (λ x, x = num 0)) by done. simpl length. lia. }
  rewrite (filter_cons_False (λ x, x = num 1)) by done.
  destruct (decide (x = num 0)) as [->|H0].
  { rewrite filter_cons_True by done. simpl length. lia. }
  rewrite (filter_cons_False (λ x, x = num 0)) by done. lia.
Qed.

(** X19.  On a table whose [death_event] column is the indicator of
    [status] being 2, as the converter builds it, the three counts that
    [print_dataset_summary] prints are the numbers of rows with status
    2, 1 and 0.  A row whose status is missing or another value is
    counted in none of them, so the counts add up to at most the number
    of patients. *)
Theorem summary_counts_rows_by_status
    (df : nat) (w : world) (f : DataFrame) (st : column) :
  heap w !! df = Some f →
  wf_frame f →
  assoc "status" (columns f) = Some st →
  assoc "death_event" (columns f) = Some (eq_scalar_int (Q2Qc 2) st) →
  "futime"%string ∈ names f →
  "age_years"%string ∈ names f →
  (∃ before after,
     print_dataset_summary df w
     = (inr tt,
        set_stdout
          (λ out, out ++ before
                   ++ [[Lit "Deaths: "; PVal (num (count_code 2 st))];
                       [Lit "Transplants: "; PVal (num (count_code 1 st))];
                       [Lit "Alive: "; PVal (num (count_code 0 st))]]
                   ++ after) w))
  ∧ count_code 2 st + count_code 1 st + count_code 0 st <= Z.of_nat (nrows f).
Proof.
  intros Hdf Hwf Hst Hde Hfu Hay. split.
  - assert (Hd : ∀ l, deref df (set_stdout (λ out, out ++ l) w)
                      = (inr f, set_stdout (λ out, out ++ l) w))
      by (intros l; by apply deref_run).
    assert (Hg : ∀ c col l, getitem c f = inr col →
                   getitem_ref df c (set_stdout (λ out, out ++ l) w)
                   = (inr col, set_stdout (λ out, out ++ l) w))
      by (intros c col l Hc; by apply (getitem_ref_run _ _ f)).
    destruct (getitem_present "futime" f Hfu) as [fu Hfu'].
    destruct (getitem_present "age_years" f Hay) as [ay Hay'].
    pose proof (getitem_assoc _ _ _ Hst) as Hst'.
    pose proof (getitem_assoc _ _ _ Hde) as Hde'.
    unfold print_dataset_summary.
    run_print. run_print. rewrite set_stdout_app.
    run_by ltac:(apply Hd). run_print. rewrite set_stdout_app.
    run_by ltac:(apply Hg; exact Hde'). run_print. rewrite set_stdout_app.
    run_by ltac:(apply Hg; exact Hst'). run_print. rewrite set_stdout_app.
    run_by ltac:(apply Hg; exact Hst'). run_print. rewrite set_stdout_app.
    run_by ltac:(apply Hg; exact Hfu'). run_print. rewrite set_stdout_app.
    run_by ltac:(apply Hg; exact Hay'). run_by ltac:(apply Hg; exact Hay').
    run_print. rewrite set_stdout_app.
    run_print. rewrite set_stdout_app.
    run_by ltac:(apply Hd). rewrite print_run, set_stdout_app.
    rewrite (col_sum_indicator 2), (col_sum_indicator 1), (col_sum_indicator 0).
    eexists [_; _; _], [_; _; _; _]. reflexivity.
  - rewrite <- (wf_column_length _ _ _ Hwf Hst). apply count_codes_bound.
Qed.

(** ** The feature descriptions *)

(** X20.  [get_feature_descriptions] describes exactly the columns that
    [get_survival_data] reads, in the order in which it reads them: the
    two outcomes, then the 17 features.  Every description is a
    non-empty text, no label is described twice, and the columns that
    only the raw table or the converter has ([id], [status], [drug],
    [age], [sex], [female]) have none. *)
Theorem feature_descriptions_cover_survival_columns (w : world) :
  ∃ d, get_feature_descriptions w = (inr d, w)
    ∧ d.*1 = "futime"%string :: "death_event"%string :: feature_cols
    ∧ NoDup d.*1
    ∧ Forall (λ p : string * string, p.2 ≠ EmptyString) d
    ∧ Forall (λ c, c ∉ d.*1)
        ["id"; "status"; "drug"; "age"; "sex"; "female"]%string.
Proof.
  eexists. split; [reflexivity|]. split; [reflexivity|].
  split; [by apply (bool_decide_unpack _)|].
  split; [repeat constructor; done|].
  by apply (bool_decide_unpack _).
Qed.

Lemma wf_frame_summary : wf_frame frame_summary.
Proof.
  split.
  - by apply (bool_decide_unpack _).
  - repeat constructor.
Qed.

Lemma summary_counts_rows_by_status_witness :
  (∃ before after,
     print_dataset_summary 0 world_summary
     = (inr tt,
        set_stdout
          (λ out, out ++ before
                   ++ [[Lit "Deaths: ";
                        PVal (num (count_code 2 [num 2; num 1; NaN]))];
                       [Lit "Transplants: ";
                        PVal (num (count_code 1 [num 2; num 1; NaN]))];
                       [Lit "Alive: ";
                        PVal (num (count_code 0 [num 2; num 1; NaN]))]]
                   ++ after) world_summary))
  ∧ count_code 2 [num 2; num 1; NaN] + count_code 1 [num 2; num 1; NaN]
    + count_code 0 [num 2; num 1; NaN]
    <= Z.of_nat (nrows frame_summary).
Proof.
  apply (summary_counts_rows_by_status 0 world_summary frame_summary
           [num 2; num 1; NaN]).
  - reflexivity.
  - exact wf_frame_summary.
  - reflexivity.
  - reflexivity.
  - by apply (bool_decide_unpack _).
  - by apply (bool_decide_unpack _).
Defined.
(** ** [read_pbc_data]: fields, rows and columns *)







